(** * NSBall: the physics-driven interaction core, embedded in Rocq

    A shallow embedding of the TypeScript sources of NSBall
    (util.ts, motion.ts, ball.ts, view_controller.ts) together with the
    properties stated about them.

    Conventions of the embedding.
    - A JavaScript [number] is a [JS.number]: an exact rational when it is
      finite, or one of [Infinity], [-Infinity], [NaN].  Rounding of IEEE-754
      doubles, overflow and the sign of zero are abstracted away; what is
      kept is which operations leave the finite range (division by zero and
      arithmetic on the special values).  A statement about a finite result
      therefore says which formula the code evaluates and on which branch;
      what would hold of the rationals only (a result being finite, an edge
      landing exactly on another after a subtraction and an addition) is
      not stated, and a division by zero is looked at only where the zero
      is the positive one.
    - Objects that the program shares and mutates (the [Ball] nodes) live in a
      store, a list of records in which a reference is a position;
      everything else is passed and returned explicitly.
    - Reads of the clock ([CACurrentMediaTime()]) and of [Math.random()] are
      arguments of the operations that perform them.
    - Closures that the program stores (queued physics callbacks, timer
      blocks, action completions) are defunctionalised into data together with
      the function that runs them. *)

From Stdlib Require Import QArith Qround Qminmax Lqa Lia ZArith List Bool.
From stdpp Require Import base option list gmap.

(* ===================================================================== *)
(** * JavaScript numbers *)
(* ===================================================================== *)

Module JS.

Inductive number : Type :=
| Finite (q : Q)
| PosInfinity
| NegInfinity
| NaN.

(** Strict comparison of rationals as a boolean. *)
Definition Qltb (a b : Q) : bool := negb (Qle_bool b a).

Definition signed_inf (positive : bool) : number :=
  if positive then PosInfinity else NegInfinity.

(** An infinity multiplied by the finite [q]. *)
Definition scale_inf (positive : bool) (q : Q) : number :=
  if Qeq_bool q 0 then NaN
  else signed_inf (if Qltb 0 q then positive else negb positive).

(** Unary minus. *)
Definition neg (a : number) : number :=
  match a with
  | Finite q => Finite (- q)
  | PosInfinity => NegInfinity
  | NegInfinity => PosInfinity
  | NaN => NaN
  end.

(** [a + b] *)
Definition add (a b : number) : number :=
  match a, b with
  | NaN, _ | _, NaN => NaN
  | Finite p, Finite q => Finite (p + q)
  | PosInfinity, NegInfinity | NegInfinity, PosInfinity => NaN
  | PosInfinity, _ | _, PosInfinity => PosInfinity
  | NegInfinity, _ | _, NegInfinity => NegInfinity
  end.

(** [a - b] *)
Definition sub (a b : number) : number := add a (neg b).

(** [a * b] *)
Definition mul (a b : number) : number :=
  match a, b with
  | NaN, _ | _, NaN => NaN
  | Finite p, Finite q => Finite (p * q)
  | Finite p, PosInfinity | PosInfinity, Finite p => scale_inf true p
  | Finite p, NegInfinity | NegInfinity, Finite p => scale_inf false p
  | PosInfinity, PosInfinity | NegInfinity, NegInfinity => PosInfinity
  | PosInfinity, NegInfinity | NegInfinity, PosInfinity => NegInfinity
  end.

(** [a / b]: a finite quotient only when the divisor is a non-zero finite
    number; [0 / 0] is [NaN] and [p / 0] is an infinity with the sign of
    [p], the zero being the positive one. *)
Definition div (a b : number) : number :=
  match a, b with
  | NaN, _ | _, NaN => NaN
  | Finite p, Finite q =>
      if Qeq_bool q 0
      then (if Qeq_bool p 0 then NaN else signed_inf (Qltb 0 p))
      else Finite (p / q)
  | Finite _, (PosInfinity | NegInfinity) => Finite 0
  | PosInfinity, Finite q => signed_inf (Qle_bool 0 q)
  | NegInfinity, Finite q => signed_inf (negb (Qle_bool 0 q))
  | (PosInfinity | NegInfinity), (PosInfinity | NegInfinity) => NaN
  end.

(** [a < b]; every comparison with [NaN] is false. *)
Definition lt (a b : number) : bool :=
  match a, b with
  | NaN, _ | _, NaN => false
  | Finite p, Finite q => Qltb p q
  | PosInfinity, _ => false
  | _, NegInfinity => false
  | NegInfinity, _ => true
  | Finite _, PosInfinity => true
  end.

(** [a > b] *)
Definition gt (a b : number) : bool := lt b a.

(** [a <= b] *)
Definition le (a b : number) : bool :=
  match a, b with
  | NaN, _ | _, NaN => false
  | Finite p, Finite q => Qle_bool p q
  | NegInfinity, _ => true
  | _, PosInfinity => true
  | PosInfinity, _ => false
  | Finite _, NegInfinity => false
  end.

Definition is_nan (a : number) : bool :=
  match a with NaN => true | _ => false end.

(** [Math.max(a, b)] *)
Definition max (a b : number) : number :=
  if is_nan a || is_nan b then NaN else if lt a b then b else a.

(** [Math.min(a, b)] *)
Definition min (a b : number) : number :=
  if is_nan a || is_nan b then NaN else if lt b a then b else a.

(** [Number.isFinite(a)] *)
Definition isFinite (a : number) : bool :=
  match a with Finite _ => true | _ => false end.

(** [a ?? d] on an optional number. *)
Definition nullish (a : option number) (d : number) : number :=
  match a with Some v => v | None => d end.

(** Two numbers denote the same value. *)
Definition eqv (a b : number) : Prop :=
  match a, b with
  | Finite p, Finite q => (p == q)%Q
  | PosInfinity, PosInfinity => True
  | NegInfinity, NegInfinity => True
  | NaN, NaN => True
  | _, _ => False
  end.

End JS.

Coercion JS.Finite : Q >-> JS.number.

Declare Scope js_scope.
Delimit Scope js_scope with js.
Bind Scope js_scope with JS.number.
Infix "+" := JS.add : js_scope.
Infix "-" := JS.sub : js_scope.
Infix "*" := JS.mul : js_scope.
Infix "/" := JS.div : js_scope.
Notation "- a" := (JS.neg a) : js_scope.
Infix "<?" := JS.lt : js_scope.
Infix ">?" := JS.gt (at level 70) : js_scope.
Infix "<=?" := JS.le : js_scope.
Infix "=n=" := JS.eqv (at level 70, no associativity).

(* ===================================================================== *)
(** * CoreGraphics value types and accessors *)
(* ===================================================================== *)

Module CGPoint.
Record t : Type := mk { x : JS.number; y : JS.number }.
End CGPoint.

Module CGSize.
Record t : Type := mk { width : JS.number; height : JS.number }.
End CGSize.

Module CGVector.
Record t : Type := mk { dx : JS.number; dy : JS.number }.
End CGVector.

Module CGRect.
Record t : Type := mk { origin : CGPoint.t; size : CGSize.t }.
End CGRect.

Definition CGPointZero : CGPoint.t := CGPoint.mk 0%Q 0%Q.

(** The accessors of CoreGraphics.  They read the standardised rectangle:
    with a negative extent the origin is the far edge. *)
Definition CGRectGetMinX (r : CGRect.t) : JS.number :=
  let x := CGPoint.x (CGRect.origin r) in
  let w := CGSize.width (CGRect.size r) in
  if (w <? 0%Q)%js then (x + w)%js else x.

Definition CGRectGetMaxX (r : CGRect.t) : JS.number :=
  let x := CGPoint.x (CGRect.origin r) in
  let w := CGSize.width (CGRect.size r) in
  if (w <? 0%Q)%js then x else (x + w)%js.

Definition CGRectGetMinY (r : CGRect.t) : JS.number :=
  let y := CGPoint.y (CGRect.origin r) in
  let h := CGSize.height (CGRect.size r) in
  if (h <? 0%Q)%js then (y + h)%js else y.

Definition CGRectGetMaxY (r : CGRect.t) : JS.number :=
  let y := CGPoint.y (CGRect.origin r) in
  let h := CGSize.height (CGRect.size r) in
  if (h <? 0%Q)%js then y else (y + h)%js.

Definition CGRectGetMidX (r : CGRect.t) : JS.number :=
  (CGPoint.x (CGRect.origin r) + CGSize.width (CGRect.size r) / 2%Q)%js.

Definition CGRectGetMidY (r : CGRect.t) : JS.number :=
  (CGPoint.y (CGRect.origin r) + CGSize.height (CGRect.size r) / 2%Q)%js.

(** A rectangle given by four finite numbers. *)
Definition rect_of (x y w h : Q) : CGRect.t :=
  CGRect.mk (CGPoint.mk x y) (CGSize.mk w h).

(* ===================================================================== *)
(** * util.ts *)
(* ===================================================================== *)

Definition RADIUS : JS.number := 100%Q.

Definition set_origin_x (r : CGRect.t) (v : JS.number) : CGRect.t :=
  CGRect.mk (CGPoint.mk v (CGPoint.y (CGRect.origin r))) (CGRect.size r).

Definition set_origin_y (r : CGRect.t) (v : JS.number) : CGRect.t :=
  CGRect.mk (CGPoint.mk (CGPoint.x (CGRect.origin r)) v) (CGRect.size r).

(** [constrainRect(r, bounds)].  The source assigns to [r.origin] in place
    and returns [r]; each test reads the rectangle as the earlier
    assignments left it. *)
Definition constrainRect (r bounds : CGRect.t) : CGRect.t :=
  let boundsMinX := CGRectGetMinX bounds in
  let boundsMaxX := CGRectGetMaxX bounds in
  let boundsMinY := CGRectGetMinY bounds in
  let boundsMaxY := CGRectGetMaxY bounds in
  let r := if (CGRectGetMinX r <? boundsMinX)%js
           then set_origin_x r boundsMinX else r in
  let r := if (CGRectGetMaxX r >? boundsMaxX)%js
           then set_origin_x r (boundsMaxX - CGSize.width (CGRect.size r))%js
           else r in
  let r := if (CGRectGetMinY r <? boundsMinY)%js
           then set_origin_y r boundsMinY else r in
  let r := if (CGRectGetMaxY r >? boundsMaxY)%js
           then set_origin_y r (boundsMaxY - CGSize.height (CGRect.size r))%js
           else r in
  r.

(** [remap(x, domainStart, domainEnd, rangeStart, rangeEnd, clamp = true)] *)
Definition remap (x domainStart domainEnd rangeStart rangeEnd : JS.number)
    (clamp : bool) : JS.number :=
  let domain := (domainEnd - domainStart)%js in
  let range := (rangeEnd - rangeStart)%js in
  let value := ((x - domainStart) / domain)%js in
  let result := (rangeStart + value * range)%js in
  if clamp then
    if (rangeStart <? rangeEnd)%js
    then JS.min (JS.max result rangeStart) rangeEnd
    else JS.min (JS.max result rangeEnd) rangeStart
  else result.


(* ===================================================================== *)
(** * motion.ts *)
(* ===================================================================== *)

(** An external function the program is handed and calls back
    ([onChange], [onComplete]): known by its identity only. *)
Definition Callback : Type := nat.

(** ** popmotion, the spring solver the program drives *)

Module popmotion.

(** The options [SpringAnimation.start] passes to [animate]. *)
Record AnimateOptions : Type := mkOptions {
  from : JS.number;
  to : JS.number;
  velocity : JS.number;
  stiffness : JS.number;
  damping : JS.number;
  restDelta : JS.number;
}.

(** What the solver has computed at one tick: the value it hands to
    [onUpdate], its current rate of change (kept inside the solver, not an
    argument of [onUpdate]) and whether it has come to rest. *)
Record Frame : Type := mkFrame {
  latest : JS.number;
  rate : JS.number;
  done : bool;
}.

End popmotion.

Module motion.

(** *** class CALayerDriver: the shared tick source *)

Module CALayerDriver.

(** [displayLink] is set or undefined; [tickers] is the [Set] of subscribed
    update closures, each known by the playback it belongs to. *)
Record t : Type := mk {
  displayLink : bool;
  tickers : gset nat;
}.

Definition instance : t := mk false ∅.

(** [static start()] *)
Definition start (d : t) : t :=
  if displayLink d then d else mk true (tickers d).

(** [static stop()] *)
Definition stop (d : t) : t :=
  if negb (displayLink d) then d else mk false (tickers d).

(** [driver(update).start()] *)
Definition driver_start (update : nat) (d : t) : t :=
  let d := mk (displayLink d) ({[ update ]} ∪ tickers d) in
  if decide (size (tickers d) = 1%nat) then start d else d.

(** [driver(update).stop()] *)
Definition driver_stop (update : nat) (d : t) : t :=
  if decide (update ∈ tickers d) then
    let d := mk (displayLink d) (tickers d ∖ {[ update ]}) in
    if decide (size (tickers d) = 0%nat) then stop d else d
  else d.

End CALayerDriver.

(** *** class SpringParams *)

Module SpringParams.

Record t : Type := mk {
  response : JS.number;
  dampingRatio : JS.number;
  epsilon : JS.number;
}.

(** [new SpringParams(response, dampingRatio)] with the default [epsilon]. *)
Definition new_ (response dampingRatio : JS.number) : t :=
  mk response dampingRatio (1 # 100)%Q.

Definition passiveEase : t := new_ (35 # 100)%Q (85 # 100)%Q.

End SpringParams.

(** *** interface Sample, class VelocityTracker (scalar samples) *)

Module Sample.
Record t : Type := mk { time : JS.number; value : JS.number }.
End Sample.

Module VelocityTracker.

Record t : Type := mk {
  samples : list Sample.t;
  lookBack : JS.number;
}.

Definition new_ : t := mk [] (1%Q / 15%Q)%js.

(** The loop of [trim()]: shift the head while it is older than
    [lookBack]. *)
Fixpoint trim_loop (now lookBack : JS.number) (l : list Sample.t)
    : list Sample.t :=
  match l with
  | [] => []
  | s :: rest =>
      if (now - Sample.time s >? lookBack)%js
      then trim_loop now lookBack rest
      else l
  end.

(** [trim()] *)
Definition trim (now : Q) (k : t) : t :=
  mk (trim_loop now (lookBack k) (samples k)) (lookBack k).

(** [addSample(val)] *)
Definition addSample (now : Q) (val : JS.number) (k : t) : t :=
  trim now (mk (samples k ++ [Sample.mk now val]) (lookBack k)).

(** [get velocity()]: the value read and the tracker as [trim()] left it.
    [samples[0]] and [samples[samples.length - 1]] are both undefined
    exactly on the empty array. *)
Definition velocity (now : Q) (k : t) : JS.number * t :=
  let k := trim now k in
  match samples k !! 0%nat, samples k !! (length (samples k) - 1)%nat with
  | Some first, Some last =>
      let timeDelta := (now - Sample.time first)%js in
      let distDelta := (Sample.value last - Sample.value first)%js in
      if (timeDelta >? 0%Q)%js then ((distDelta / timeDelta)%js, k)
      else (JS.Finite 0, k)
  | _, _ => (JS.Finite 0, k)
  end.

End VelocityTracker.

(** *** What the methods of a SpringAnimation act on outside the instance *)

Module Engine.

(** The shared [CALayerDriver.instance], the calls of popmotion's [animate]
    made so far (a playback is known by its position in this list) and the
    calls of [onChange] observers made so far. *)
Record t : Type := mk {
  driver : CALayerDriver.t;
  playbacks : list popmotion.AnimateOptions;
  notified : list (Callback * JS.number);
}.

Definition initial : t := mk CALayerDriver.instance [] [].

(** popmotion's [animate(options)] with [driver: CALayerDriver.driver]:
    a new playback subscribes its update closure at once; the returned
    control is the playback's identity. *)
Definition animate (options : popmotion.AnimateOptions) (e : t) : nat * t :=
  let id := length (playbacks e) in
  (id, mk (CALayerDriver.driver_start id (driver e))
          (playbacks e ++ [options]) (notified e)).

(** The [stop] control [animate] returned for playback [id]. *)
Definition playback_stop (id : nat) (e : t) : t :=
  mk (CALayerDriver.driver_stop id (driver e)) (playbacks e) (notified e).

Definition notify (cb : Callback) (v : JS.number) (e : t) : t :=
  mk (driver e) (playbacks e) (notified e ++ [(cb, v)]).

End Engine.

(** *** class SpringAnimation *)

Definition Math_PI : Q := 884279719003555 # 281474976710656.

Module SpringAnimation.

Record t : Type := mk {
  animating : bool;
  externallySetVelocityTracker : VelocityTracker.t;
  onChange : option Callback;
  _value : JS.number;
  targetValue : option JS.number;
  _velocity : option JS.number;
  stopFunction : option nat;
  scale : JS.number;
  params : SpringParams.t;
}.

Definition set_animating (b : bool) (s : t) : t :=
  mk b (externallySetVelocityTracker s) (onChange s) (_value s)
     (targetValue s) (_velocity s) (stopFunction s) (scale s) (params s).

Definition set_tracker (k : VelocityTracker.t) (s : t) : t :=
  mk (animating s) k (onChange s) (_value s)
     (targetValue s) (_velocity s) (stopFunction s) (scale s) (params s).

Definition set__value (v : JS.number) (s : t) : t :=
  mk (animating s) (externallySetVelocityTracker s) (onChange s) v
     (targetValue s) (_velocity s) (stopFunction s) (scale s) (params s).

Definition set_targetValue (v : option JS.number) (s : t) : t :=
  mk (animating s) (externallySetVelocityTracker s) (onChange s) (_value s)
     v (_velocity s) (stopFunction s) (scale s) (params s).

Definition set__velocity (v : option JS.number) (s : t) : t :=
  mk (animating s) (externallySetVelocityTracker s) (onChange s) (_value s)
     (targetValue s) v (stopFunction s) (scale s) (params s).

Definition set_stopFunction (f : option nat) (s : t) : t :=
  mk (animating s) (externallySetVelocityTracker s) (onChange s) (_value s)
     (targetValue s) (_velocity s) f (scale s) (params s).

(** [get value()] *)
Definition value (s : t) : JS.number := _value s.

(** [stop()] *)
Definition stop (s : t) (e : Engine.t) : t * Engine.t :=
  let s := set_targetValue None s in
  let s := set_animating false s in
  match stopFunction s with
  | Some id => (s, Engine.playback_stop id e)
  | None => (s, e)
  end.

(** [set value(value)] *)
Definition set_value (now : Q) (value : JS.number) (s : t) (e : Engine.t)
    : t * Engine.t :=
  let s := set__value value s in
  let '(s, e) := stop s e in
  (set_tracker
     (VelocityTracker.addSample now value (externallySetVelocityTracker s)) s,
   e).

(** [get velocity()]: the tracker is trimmed when it is the one read. *)
Definition velocity (now : Q) (s : t) : JS.number * t :=
  if animating s then (JS.nullish (_velocity s) 0%Q, s)
  else
    let '(v, k) :=
      VelocityTracker.velocity now (externallySetVelocityTracker s) in
    (v, set_tracker k s).

(** [constructor(initialValue, scale, params)], after the field
    initialisers. *)
Definition new_ (now : Q) (initialValue scale : JS.number)
    (params : SpringParams.t) (e : Engine.t) : t * Engine.t :=
  set_value now initialValue
    (mk false VelocityTracker.new_ None 0%Q None None None scale params) e.

(** The [onUpdate] closure [start] hands to the solver. *)
Definition onUpdate (value : JS.number) (s : t) (e : Engine.t)
    : t * Engine.t :=
  let s := set__value (value / scale s)%js s in
  match onChange s with
  | Some cb => (s, Engine.notify cb (SpringAnimation.value s) e)
  | None => (s, e)
  end.

(** The [onComplete] closure [start] hands to the solver. *)
Definition onComplete (s : t) (e : Engine.t) : t * Engine.t :=
  stop (set_stopFunction None s) e.

(** [start(targetValue, velocity)] *)
Definition start (now : Q) (targetValue velocity : JS.number)
    (s : t) (e : Engine.t) : t * Engine.t :=
  let '(s, e) := stop s e in
  let s := set_animating true s in
  let s := set_targetValue (Some targetValue) s in
  let s := set__velocity (Some velocity) s in
  let from := (value s * scale s)%js in
  let to := (JS.nullish (SpringAnimation.targetValue s) JS.NaN * scale s)%js in
  let '(v, s) := SpringAnimation.velocity now s in
  let response := SpringParams.response (params s) in
  let options :=
    popmotion.mkOptions from to (v * scale s)%js
      ((2%Q * Math_PI / response) * (2%Q * Math_PI / response))%js
      (4%Q * Math_PI * SpringParams.dampingRatio (params s) / response)%js
      (SpringParams.epsilon (params s)) in
  let '(id, e) := Engine.animate options e in
  (set_stopFunction (Some id) s, e).

(** One call of the update closure of playback [id], which belongs to [s],
    by the driver's [tick()]: the driver calls subscribed closures only.
    popmotion hands the frame's value to [onUpdate]; when the solver is done
    it unsubscribes the playback and calls [onComplete]. *)
Definition playback_update (id : nat) (frame : popmotion.Frame)
    (s : t) (e : Engine.t) : t * Engine.t :=
  if decide (id ∈ CALayerDriver.tickers (Engine.driver e)) then
    let '(s, e) := onUpdate (popmotion.latest frame) s e in
    if popmotion.done frame
    then onComplete s (Engine.playback_stop id e)
    else (s, e)
  else (s, e).

End SpringAnimation.

End motion.

(* ===================================================================== *)
(** * SpriteKit and AppKit objects the program uses *)
(* ===================================================================== *)

Module SKPhysicsBody.

(** The properties the program writes, and the impulses handed to
    [applyImpulse], oldest first. *)
Record t : Type := mk {
  isDynamic : bool;
  affectedByGravity : bool;
  restitution : JS.number;
  allowsRotation : bool;
  usesPreciseCollisionDetection : bool;
  contactTestBitMask : nat;
  velocity : CGVector.t;
  impulses : list CGVector.t;
}.

(** [SKPhysicsBody.bodyWithCircleOfRadius(radius)], with SpriteKit's
    defaults. *)
Definition bodyWithCircleOfRadius (radius : JS.number) : t :=
  mk true true (2 # 10)%Q true false 0 (CGVector.mk 0%Q 0%Q) [].

Definition applyImpulse (impulse : CGVector.t) (b : t) : t :=
  mk (isDynamic b) (affectedByGravity b) (restitution b) (allowsRotation b)
     (usesPreciseCollisionDetection b) (contactTestBitMask b) (velocity b)
     (impulses b ++ [impulse]).

End SKPhysicsBody.

Inductive SKAction : Type :=
| scaleToDuration (scale duration : JS.number)
| moveToDuration (location : CGPoint.t) (duration : JS.number).

(** The completion block [dock] attaches to its move action:
    [() => { this.ball = undefined; onComplete(); }]. *)
Inductive Completion : Type :=
| DockCompletion (onComplete : Callback).

(** The block [didCollide] hands to its timer:
    [() => { this.squish.start(1, velocity); }], for the ball [self]. *)
Inductive TimerBlock : Type :=
| RestartSquish (self : nat) (velocity : JS.number).

Module NSTimer.
(** [NSTimer.scheduledTimerWithTimeIntervalRepeatsBlock(interval, repeats,
    block)] *)
Record t : Type := mk {
  interval : JS.number;
  repeats : bool;
  block : TimerBlock;
}.
End NSTimer.

Module NSSound.
Record t : Type := mk { isPlaying : bool; volume : JS.number }.

(** [sound.play()] *)
Definition play (s : t) : t := mk true (volume s).

Definition set_volume (v : JS.number) (s : t) : t := mk (isPlaying s) v.
End NSSound.

(* ===================================================================== *)
(** * ball.ts *)
(* ===================================================================== *)

Module Ball.

Import motion.

(** A [Ball] node.  Of the SpriteKit node itself: [position], the uniform
    scale written by [setScale], [physicsBody] (null once destroyed) and the
    actions handed to [runAction], oldest first.  Of its child nodes: the
    properties [create] and [didCollide] write. *)
Record t : Type := mk {
  radius : JS.number;
  position : CGPoint.t;
  nodeScale : JS.number;
  physicsBody : option SKPhysicsBody.t;
  actions : list (SKAction * option Completion);
  dragScale : SpringAnimation.t;
  squish : SpringAnimation.t;
  _beingDragged : bool;
  imgContainer_zRotation : JS.number;
  imgNode_zRotation : JS.number;
  imgNode_size : CGSize.t;
  shadowSprite_size : CGSize.t;
  shadowSprite_alpha : JS.number;
  shadowContainer_alpha : JS.number;
}.

Definition set_physicsBody (p : option SKPhysicsBody.t) (b : t) : t :=
  mk (radius b) (position b) (nodeScale b) p (actions b)
     (dragScale b) (squish b) (_beingDragged b)
     (imgContainer_zRotation b) (imgNode_zRotation b) (imgNode_size b)
     (shadowSprite_size b) (shadowSprite_alpha b) (shadowContainer_alpha b).



(** [setScale(scale)] *)
Definition setScale (scale : JS.number) (b : t) : t :=
  mk (radius b) (position b) scale (physicsBody b) (actions b)
     (dragScale b) (squish b) (_beingDragged b)
     (imgContainer_zRotation b) (imgNode_zRotation b) (imgNode_size b)
     (shadowSprite_size b) (shadowSprite_alpha b) (shadowContainer_alpha b).

(** [runAction(action)] and [runActionCompletion(action, block)] *)
Definition runAction (a : SKAction) (c : option Completion) (b : t) : t :=
  mk (radius b) (position b) (nodeScale b) (physicsBody b)
     (actions b ++ [(a, c)])
     (dragScale b) (squish b) (_beingDragged b)
     (imgContainer_zRotation b) (imgNode_zRotation b) (imgNode_size b)
     (shadowSprite_size b) (shadowSprite_alpha b) (shadowContainer_alpha b).

(** [get rect()] *)
Definition rect (b : t) : CGRect.t :=
  CGRect.mk
    (CGPoint.mk (CGPoint.x (position b) - radius b)%js
                (CGPoint.y (position b) - radius b)%js)
    (CGSize.mk (radius b * 2%Q)%js (radius b * 2%Q)%js).

(** [Ball.new()]: the field initialisers, which construct the two
    springs. *)
Definition new_ (now : Q) (e : Engine.t) : t * Engine.t :=
  let '(dragScale, e) :=
    SpringAnimation.new_ now 1%Q 1000%Q
      (SpringParams.new_ (2 # 10)%Q (8 # 10)%Q) e in
  let '(squish, e) :=
    SpringAnimation.new_ now 1%Q 1000%Q
      (SpringParams.new_ (3 # 10)%Q (5 # 10)%Q) e in
  (mk 0%Q CGPointZero 1%Q None [] dragScale squish false
      0%Q 0%Q (CGSize.mk 0%Q 0%Q) (CGSize.mk 0%Q 0%Q) 1%Q 1%Q,
   e).

(** [static create(radius, pos)] *)
Definition create (now : Q) (radius : JS.number) (pos : CGPoint.t)
    (e : Engine.t) : t * Engine.t :=
  let '(ball, e) := new_ now e in
  let body := SKPhysicsBody.bodyWithCircleOfRadius radius in
  let body :=
    SKPhysicsBody.mk true (SKPhysicsBody.affectedByGravity body)
      (6 # 10)%Q false true 1
      (SKPhysicsBody.velocity body) (SKPhysicsBody.impulses body) in
  let shadowWidth := (radius * 4%Q)%js in
  (mk radius pos (nodeScale ball) (Some body) (actions ball)
      (dragScale ball) (squish ball) (_beingDragged ball)
      (imgContainer_zRotation ball) (imgNode_zRotation ball)
      (CGSize.mk (radius * 2%Q)%js (radius * 2%Q)%js)
      (CGSize.mk shadowWidth ((564 # 1000)%Q * shadowWidth)%js)
      0%Q 0%Q,
   e).

(** [destroy()], for the ball with reference [self]:
    [removeFromParent()] takes it out of the children of the scene, then
    the physics body is cleared. *)
Definition destroy (self : nat) (b : t) (children : list nat)
    : t * list nat :=
  (set_physicsBody None b, filter (fun n => n ≠ self) children).

Section DidCollide.

(** [Math.atan2] *)
Variable Math_atan2 : JS.number -> JS.number -> JS.number.


End DidCollide.


End Ball.

(* ===================================================================== *)
(** * view_controller.ts *)
(* ===================================================================== *)

Module view_controller.

(** *** interface Sample, class VelocityTracker (point samples) *)

Module Sample.
Record t : Type := mk { time : JS.number; pos : CGPoint.t }.
End Sample.

Module VelocityTracker.

Record t : Type := mk { samples : list Sample.t }.

Definition new_ : t := mk [].

(** [get filteredSamples()] *)
Definition filteredSamples (now : Q) (k : t) : list Sample.t :=
  List.filter (fun sample => (now - Sample.time sample <? (1 # 10)%Q)%js)
    (samples k).

(** [add(pos)] *)
Definition add (now : Q) (pos : CGPoint.t) (k : t) : t :=
  let k := mk (samples k ++ [Sample.mk now pos]) in
  mk (filteredSamples now k).

(** [get velocity()].  With two samples or more the first and the last
    exist, so the last case is never taken. *)
Definition velocity (now : Q) (k : t) : CGPoint.t :=
  let samples := filteredSamples now k in
  if (length samples <? 2)%nat then CGPointZero
  else
    match samples !! 0%nat, samples !! (length samples - 1)%nat with
    | Some first, Some last =>
        let delta :=
          CGPoint.mk
            (CGPoint.x (Sample.pos last) - CGPoint.x (Sample.pos first))%js
            (CGPoint.y (Sample.pos last) - CGPoint.y (Sample.pos first))%js in
        let time := (Sample.time last - Sample.time first)%js in
        CGPoint.mk (CGPoint.x delta / time)%js (CGPoint.y delta / time)%js
    | _, _ => CGPointZero
    end.

End VelocityTracker.

(** *** What the controller's methods act on outside the instance *)

(** A closure pushed on [physicsQueue]:
    [() => { ball.physicsBody.applyImpulse(impulse); }]. *)
Inductive PhysicsCallback : Type :=
| ApplyImpulse (ball : nat) (impulse : CGVector.t).

(** The block [didBeginContact] adds to the main operation queue; it has
    captured [collisionStrength]. *)
Inductive Operation : Type :=
| PlayCollisionSound (collisionStrength : JS.number).

Module World.

(** The [Ball] objects created so far (a reference is a position in
    [balls]; objects are never freed, so a reference the program holds is
    always allocated), the spring engine, the timers scheduled, the blocks
    waiting on [NSOperationQueue.mainQueue] and the calls of external
    callbacks made so far. *)
Record t : Type := mk {
  balls : list Ball.t;
  engine : motion.Engine.t;
  timers : list NSTimer.t;
  mainQueue : list Operation;
  invoked : list Callback;
}.

Definition initial : t := mk [] motion.Engine.initial [] [] [].

Definition set_balls (l : list Ball.t) (w : t) : t :=
  mk l (engine w) (timers w) (mainQueue w) (invoked w).

Definition set_engine (e : motion.Engine.t) (w : t) : t :=
  mk (balls w) e (timers w) (mainQueue w) (invoked w).

(** A new object: its reference and the store with it. *)
Definition alloc (b : Ball.t) (w : t) : nat * t :=
  (length (balls w), set_balls (balls w ++ [b]) w).

(** A method that changes only its receiver. *)
Definition update (ball : nat) (f : Ball.t -> Ball.t) (w : t) : t :=
  set_balls (alter f ball (balls w)) w.

Definition schedule (k : NSTimer.t) (w : t) : t :=
  mk (balls w) (engine w) (timers w ++ [k]) (mainQueue w) (invoked w).

Definition addOperation (o : Operation) (w : t) : t :=
  mk (balls w) (engine w) (timers w) (mainQueue w ++ [o]) (invoked w).

(** A call of the external callback [cb]. *)
Definition invoke (cb : Callback) (w : t) : t :=
  mk (balls w) (engine w) (timers w) (mainQueue w) (invoked w ++ [cb]).

End World.

(** *** class ViewController *)

Module ViewController.

(** [scene]: the children of [this.scene]; [screen]: the frame of
    [this.view.window?.screen] when there is one. *)
Record t : Type := mk {
  scene : list nat;
  physicsQueue : list PhysicsCallback;
  _ball : option nat;
  sounds : list NSSound.t;
  screen : option CGRect.t;
}.

(** A controller whose view has loaded: three sounds, started at volume
    zero by [viewDidLoad]. *)
Definition initial (screen : option CGRect.t) : t :=
  mk [] [] None (replicate 3 (NSSound.mk true 0%Q)) screen.

Definition set_scene (l : list nat) (c : t) : t :=
  mk l (physicsQueue c) (_ball c) (sounds c) (screen c).

Definition set_physicsQueue (q : list PhysicsCallback) (c : t) : t :=
  mk (scene c) q (_ball c) (sounds c) (screen c).

Definition set__ball (b : option nat) (c : t) : t :=
  mk (scene c) (physicsQueue c) b (sounds c) (screen c).

Definition set_sounds (l : list NSSound.t) (c : t) : t :=
  mk (scene c) (physicsQueue c) (_ball c) l (screen c).

(** [get ball()] *)
Definition ball (c : t) : option nat := _ball c.

(** [ball.destroy()] on the object [old] refers to. *)
Definition destroy (old : nat) (c : t) (w : World.t) : t * World.t :=
  match World.balls w !! old with
  | Some b =>
      let '(b, children) := Ball.destroy old b (scene c) in
      (set_scene children c, World.set_balls (<[old := b]> (World.balls w)) w)
  | None => (c, w)
  end.

(** [this.scene.addChild(value)] *)
Definition addChild (value : nat) (c : t) : t :=
  set_scene (scene c ++ [value]) c.

(** [set ball(value)] *)
Definition set_ball (value : option nat) (c : t) (w : World.t)
    : t * World.t :=
  let '(c, w) :=
    match ball c with
    | Some old => destroy old c w
    | None => (c, w)
    end in
  let c := set__ball value c in
  match value with
  | Some v => (addChild v c, w)
  | None => (c, w)
  end.

(** The radius of the ball [ball] refers to. *)
Definition radius_of (ball : nat) (w : World.t) : JS.number :=
  from_option Ball.radius JS.NaN (World.balls w !! ball).

(** [launch(rect)] *)
Definition launch (now : Q) (rect : CGRect.t) (c : t) (w : World.t)
    : t * World.t :=
  match screen c with
  | None => (c, w)
  | Some frame =>
      let '(b, e) :=
        Ball.create now RADIUS
          (CGPoint.mk (CGRectGetMidX rect) (CGRectGetMidY rect))
          (World.engine w) in
      let '(ball, w) := World.alloc b (World.set_engine e w) in
      let '(c, w) := set_ball (Some ball) c w in
      let strength : JS.number := 2000%Q in
      let impulse := CGVector.mk 0%Q 0%Q in
      let distFromLeft := (CGRectGetMidX rect - CGRectGetMinX frame)%js in
      let distFromRight := (CGRectGetMaxX frame - CGRectGetMidX rect)%js in
      let distFromBottom := (CGRectGetMidY rect - CGRectGetMinY frame)%js in
      let impulse :=
        if (distFromBottom <? 200%Q)%js
        then CGVector.mk (CGVector.dx impulse) strength
        else impulse in
      let impulse :=
        if (distFromLeft <? 200%Q)%js
        then CGVector.mk strength (CGVector.dy impulse)
        else if (distFromRight <? 200%Q)%js
        then CGVector.mk (- strength)%js (CGVector.dy impulse)
        else impulse in
      let w :=
        World.update ball
          (Ball.setScale
             (CGSize.width (CGRect.size rect) / (radius_of ball w * 2%Q))%js)
          w in
      let scaleUp := scaleToDuration 1%Q (5 # 10)%Q in
      let w := World.update ball (Ball.runAction scaleUp None) w in
      (set_physicsQueue (physicsQueue c ++ [ApplyImpulse ball impulse]) c, w)
  end.

Definition freeze (p : SKPhysicsBody.t) : SKPhysicsBody.t :=
  SKPhysicsBody.mk false false (SKPhysicsBody.restitution p)
    (SKPhysicsBody.allowsRotation p)
    (SKPhysicsBody.usesPreciseCollisionDetection p)
    (SKPhysicsBody.contactTestBitMask p)
    (CGVector.mk 0%Q 0%Q) (SKPhysicsBody.impulses p).

(** [dock(rect, onComplete)] *)
Definition dock (rect : CGRect.t) (onComplete : Callback)
    (c : t) (w : World.t) : t * World.t :=
  match ball c with
  | None => (c, World.invoke onComplete w)
  | Some ball =>
      let w :=
        World.update ball
          (fun b => Ball.set_physicsBody (freeze <$> Ball.physicsBody b) b)
          w in
      let w :=
        World.update ball
          (Ball.runAction
             (scaleToDuration
                (CGSize.width (CGRect.size rect) / (radius_of ball w * 2%Q))%js
                (25 # 100)%Q)
             None)
          w in
      let w :=
        World.update ball
          (Ball.runAction
             (moveToDuration
                (CGPoint.mk (CGRectGetMidX rect) (CGRectGetMidY rect))
                (25 # 100)%Q)
             (Some (DockCompletion onComplete)))
          w in
      (c, w)
  end.

(** Running the completion block of an action that has finished. *)
Definition run_completion (k : Completion) (c : t) (w : World.t)
    : t * World.t :=
  match k with
  | DockCompletion onComplete =>
      let '(c, w) := set_ball None c w in
      (c, World.invoke onComplete w)
  end.

(** How a call ended, and the store it left. *)
Inductive Outcome : Type :=
| Returned (w : World.t)
| Threw (w : World.t).

(** Calling a queued closure: [ball.physicsBody] is null on a destroyed
    ball, and the call on it throws. *)
Definition run_callback (cb : PhysicsCallback) (w : World.t)
    : option World.t :=
  match cb with
  | ApplyImpulse ball impulse =>
      b ← World.balls w !! ball;
      p ← Ball.physicsBody b;
      Some (World.update ball
              (Ball.set_physicsBody
                 (Some (SKPhysicsBody.applyImpulse impulse p)))
              w)
  end.

(** [for (const cb of queue) cb();] *)
Fixpoint run_queue (queue : list PhysicsCallback) (w : World.t) : Outcome :=
  match queue with
  | [] => Returned w
  | cb :: rest =>
      match run_callback cb w with
      | Some w => run_queue rest w
      | None => Threw w
      end
  end.

(** [didSimulatePhysicsForScene(scene)] *)
Definition didSimulatePhysicsForScene (c : t) (w : World.t) : t * Outcome :=
  let queue := physicsQueue c in
  let c := set_physicsQueue [] c in
  (c, run_queue queue w).

(** The strength [didBeginContact] computes from [contact.collisionImpulse]. *)
Definition collisionStrength (collisionImpulse : JS.number) : JS.number :=
  let minImpulse : JS.number := 1000%Q in
  let maxImpulse : JS.number := 2000%Q in
  remap collisionImpulse minImpulse maxImpulse 0%Q (5 # 10)%Q true.

(** [didBeginContact(contact)] *)
Definition didBeginContact (collisionImpulse : JS.number) (w : World.t)
    : World.t :=
  let collisionStrength := collisionStrength collisionImpulse in
  if (collisionStrength <=? 0%Q)%js then w
  else World.addOperation (PlayCollisionSound collisionStrength) w.

(** [sounds.filter((sound) => !sound.isPlaying)], each sound with its
    position in [sounds]. *)
Definition soundsUsable (sounds : list NSSound.t) : list (nat * NSSound.t) :=
  filter (fun p => NSSound.isPlaying p.2 = false) (imap pair sounds).

(** Running the block of [didBeginContact]; [random] is what
    [Math.random()] returns.  The index is within [soundsUsable] whenever
    [0 <= random < 1]. *)
Definition run_operation (random : Q) (o : Operation) (c : t) : t :=
  match o with
  | PlayCollisionSound collisionStrength =>
      let soundsUsable := soundsUsable (sounds c) in
      if decide (length soundsUsable = 0%nat) then c
      else
        let index :=
          Z.to_nat
            (Qfloor (random * inject_Z (Z.of_nat (length soundsUsable)))) in
        match soundsUsable !! index with
        | Some (i, _) =>
            set_sounds
              (alter (fun s => NSSound.play
                                 (NSSound.set_volume collisionStrength s))
                 i (sounds c))
              c
        | None => c
        end
  end.

End ViewController.

End view_controller.

(* ===================================================================== *)
(** * Vocabulary of the properties *)
(* ===================================================================== *)

(** A scalar sample taken at a finite time with a finite value. *)
Definition scalar_sample (t v : Q) : motion.Sample.t :=
  motion.Sample.mk t v.

(** A point sample taken at a finite time at a finite position. *)
Definition point_sample (t x y : Q) : view_controller.Sample.t :=
  view_controller.Sample.mk t (CGPoint.mk x y).

(** The samples a scalar tracker retains when it is read at [now]. *)
Definition retained (now : Q) (k : motion.VelocityTracker.t)
    : list motion.Sample.t :=
  motion.VelocityTracker.samples (motion.VelocityTracker.trim now k).

Definition finite_sample (s : motion.Sample.t) : bool :=
  JS.isFinite (motion.Sample.time s) && JS.isFinite (motion.Sample.value s).

Definition finite_point (p : CGPoint.t) : bool :=
  JS.isFinite (CGPoint.x p) && JS.isFinite (CGPoint.y p).

(** The origin [constrainRect] computes on one axis, for a rectangle at [p]
    of extent [e] and bounds at [bp] of extent [be], all finite. *)
Definition constrain_axis (p e bp be : Q) : Q :=
  let p1 := if JS.Qltb p bp then bp else p in
  if JS.Qltb (bp + be) (p1 + e) then (bp + be - e)%Q else p1.

(** [r] lies within [bounds]. *)
Definition rect_within (r bounds : CGRect.t) : bool :=
  (CGRectGetMinX bounds <=? CGRectGetMinX r)%js &&
  (CGRectGetMaxX r <=? CGRectGetMaxX bounds)%js &&
  (CGRectGetMinY bounds <=? CGRectGetMinY r)%js &&
  (CGRectGetMaxY r <=? CGRectGetMaxY bounds)%js.

(** The solver ticking playback [id] of the spring [s] once per frame of
    [frames], oldest first. *)
Definition run_frames (id : nat) (frames : list popmotion.Frame)
    (s : motion.SpringAnimation.t) (e : motion.Engine.t)
    : motion.SpringAnimation.t * motion.Engine.t :=
  fold_left
    (fun se frame => motion.SpringAnimation.playback_update id frame se.1 se.2)
    frames (s, e).

(** A spring as [ball.ts] constructs its [squish]. *)
Definition squish_spring (now : Q) : motion.SpringAnimation.t :=
  (motion.SpringAnimation.new_ now 1%Q 1000%Q
     (motion.SpringParams.new_ (3 # 10)%Q (5 # 10)%Q)
     motion.Engine.initial).1.

(** A controller together with the store it acts on. *)
Definition Config : Type :=
  (view_controller.ViewController.t * view_controller.World.t)%type.

(** What can happen to a controller: its methods are called, an action of a
    ball finishes and SpriteKit runs its completion block, a block of the
    main queue runs, or [ball] is assigned an allocated object or
    undefined. *)
Inductive step : Config -> Config -> Prop :=
| step_launch (now : Q) (rect : CGRect.t) c w :
    step (c, w) (view_controller.ViewController.launch now rect c w)
| step_dock (rect : CGRect.t) (onComplete : Callback) c w :
    step (c, w) (view_controller.ViewController.dock rect onComplete c w)
| step_completion (ball : nat) (b : Ball.t) (a : SKAction) (k : Completion)
    c w :
    view_controller.World.balls w !! ball = Some b ->
    (a, Some k) ∈ Ball.actions b ->
    step (c, w) (view_controller.ViewController.run_completion k c w)
| step_physics_returned c w c' w' :
    view_controller.ViewController.didSimulatePhysicsForScene c w =
      (c', view_controller.ViewController.Returned w') ->
    step (c, w) (c', w')
| step_physics_threw c w c' w' :
    view_controller.ViewController.didSimulatePhysicsForScene c w =
      (c', view_controller.ViewController.Threw w') ->
    step (c, w) (c', w')
| step_contact (collisionImpulse : JS.number) c w :
    step (c, w)
         (c, view_controller.ViewController.didBeginContact collisionImpulse w)
| step_operation (random : Q) (o : view_controller.Operation) c w :
    o ∈ view_controller.World.mainQueue w ->
    step (c, w) (view_controller.ViewController.run_operation random o c, w)
| step_assign (value : option nat) c w :
    (forall v, value = Some v ->
               (v < length (view_controller.World.balls w))%nat) ->
    step (c, w) (view_controller.ViewController.set_ball value c w).


(** The ball the controller holds is an allocated object, and the children
    of the scene are exactly the ball it holds. *)
Definition consistent (cfg : Config) : Prop :=
  (forall b, view_controller.ViewController._ball cfg.1 = Some b ->
             (b < length (view_controller.World.balls cfg.2))%nat) /\
  view_controller.ViewController.scene cfg.1 =
    option_list (view_controller.ViewController._ball cfg.1).

(** The physics body of the object [ball] refers to, when it has one. *)
Definition body_of (ball : nat) (w : view_controller.World.t)
    : option SKPhysicsBody.t :=
  view_controller.World.balls w !! ball ≫= Ball.physicsBody.

(** The impulse [launch(rect)] computes on a screen of frame [frame]. *)
Definition launch_impulse (rect frame : CGRect.t) : CGVector.t :=
  let distFromLeft := (CGRectGetMidX rect - CGRectGetMinX frame)%js in
  let distFromRight := (CGRectGetMaxX frame - CGRectGetMidX rect)%js in
  let distFromBottom := (CGRectGetMidY rect - CGRectGetMinY frame)%js in
  CGVector.mk
    (if (distFromLeft <? 200%Q)%js then JS.Finite 2000
     else if (distFromRight <? 200%Q)%js then (- JS.Finite 2000)%js
     else JS.Finite 0)
    (if (distFromBottom <? 200%Q)%js then JS.Finite 2000 else JS.Finite 0).

(* ===================================================================== *)
(** * util.ts: the dock geometry *)
(* ===================================================================== *)

(** [a == b] on numbers. *)
Definition js_eq (a b : JS.number) : bool :=
  match a, b with
  | JS.Finite p, JS.Finite q => Qeq_bool p q
  | JS.PosInfinity, JS.PosInfinity => true
  | JS.NegInfinity, JS.NegInfinity => true
  | _, _ => false
  end.

(** An [NSScreen], by the two rectangles the program reads. *)
Module NSScreen.
Record t : Type := mk { frame : CGRect.t; visibleFrame : CGRect.t }.
End NSScreen.

Module WBDockPosition.
Definition BOTTOM : nat := 0.
Definition LEFT : nat := 1.
Definition RIGHT : nat := 2.
End WBDockPosition.

(** [getDockPosition(screen)] *)
Definition getDockPosition (screen : NSScreen.t) : nat :=
  if js_eq (CGPoint.y (CGRect.origin (NSScreen.visibleFrame screen))) 0%Q
  then
    if js_eq (CGPoint.x (CGRect.origin (NSScreen.visibleFrame screen))) 0%Q
    then WBDockPosition.RIGHT
    else WBDockPosition.LEFT
  else WBDockPosition.BOTTOM.

(** [getDockSize(screen, position)]; [None] when it throws
    [Error("unreachable")]. *)
Definition getDockSize (screen : NSScreen.t) (position : nat)
    : option JS.number :=
  match position with
  | 2%nat =>
      Some (CGSize.width (CGRect.size (NSScreen.frame screen))
            - CGSize.width (CGRect.size (NSScreen.visibleFrame screen)))%js
  | 1%nat => Some (CGPoint.x (CGRect.origin (NSScreen.visibleFrame screen)))
  | 0%nat => Some (CGPoint.y (CGRect.origin (NSScreen.visibleFrame screen)))
  | _ => None
  end.

(** [getInferredRectOfHoveredDockIcon(screen)]; [mouseLocation] is what
    [NSEvent.mouseLocation] returns.  [None] when [getDockSize] throws. *)
Definition getInferredRectOfHoveredDockIcon (mouseLocation : CGPoint.t)
    (screen : NSScreen.t) : option CGRect.t :=
  let dockPos := getDockPosition screen in
  dockSize ← getDockSize screen dockPos;
  let tileSize := (dockSize * (64%Q / 79%Q))%js in
  let center := mouseLocation in
  let center :=
    if Nat.eqb dockPos WBDockPosition.BOTTOM then
      let center :=
        CGPoint.mk (CGPoint.x center)
          (CGRectGetMinY (NSScreen.frame screen) + tileSize / 2%Q)%js in
      CGPoint.mk (CGPoint.x center)
        (CGPoint.y center + ((25 # 10)%Q / 79%Q) * dockSize)%js
    else center in
  Some (CGRect.mk
          (CGPoint.mk (CGPoint.x center - tileSize / 2%Q)%js
                      (CGPoint.y center - tileSize / 2%Q)%js)
          (CGSize.mk tileSize tileSize)).

(* ===================================================================== *)
(** * motion.ts: runs of calls *)
(* ===================================================================== *)

From stdpp Require Import sorting.

(** A call of one of the two controls [CALayerDriver.driver(update)]
    returns. *)
Inductive DriverCall : Type :=
| DriverStart (update : nat)
| DriverStop (update : nat).

Definition driver_call (k : DriverCall) (d : motion.CALayerDriver.t)
    : motion.CALayerDriver.t :=
  match k with
  | DriverStart update => motion.CALayerDriver.driver_start update d
  | DriverStop update => motion.CALayerDriver.driver_stop update d
  end.

Definition driver_run (calls : list DriverCall) (d : motion.CALayerDriver.t)
    : motion.CALayerDriver.t :=
  fold_left (fun d k => driver_call k d) calls d.

(** The display link exists exactly while some update is subscribed. *)
Definition driver_balanced (d : motion.CALayerDriver.t) : Prop :=
  motion.CALayerDriver.displayLink d = true <->
  motion.CALayerDriver.tickers d <> ∅.

(** [addSample(v)] called once per element of [l], at time [t], oldest
    first. *)
Definition feed (l : list (Q * Q)) (k : motion.VelocityTracker.t)
    : motion.VelocityTracker.t :=
  fold_left
    (fun k (tv : Q * Q) =>
       motion.VelocityTracker.addSample tv.1 (JS.Finite tv.2) k)
    l k.

(** Samples given by their times and values, in non-decreasing order of
    time. *)
Definition by_time (l : list (Q * Q)) : Prop :=
  StronglySorted (fun a b : Q * Q => (a.1 <= b.1)%Q) l.

Definition scalar_samples (l : list (Q * Q)) : list motion.Sample.t :=
  map (fun tv : Q * Q => scalar_sample tv.1 tv.2) l.

(** The springs of the program and the one driver they share
    ([CALayerDriver.instance] is static).  A spring is known by its
    position in [springs]; [owners] gives, for each playback, the spring
    whose [start] created it: the [this] its closures have captured. *)
Module Springs.

Record t : Type := mk {
  springs : list motion.SpringAnimation.t;
  owners : list nat;
  engine : motion.Engine.t;
}.

Definition initial : t := mk [] [] motion.Engine.initial.

(** A method of the spring [i] is called; the playbacks it creates are that
    spring's. *)
Definition call (i : nat)
    (f : motion.SpringAnimation.t -> motion.Engine.t ->
         motion.SpringAnimation.t * motion.Engine.t)
    (st : t) : t :=
  match springs st !! i with
  | Some s =>
      let se := f s (engine st) in
      mk (<[i := se.1]> (springs st))
         (owners st
            ++ replicate
                 (length (motion.Engine.playbacks se.2)
                  - length (motion.Engine.playbacks (engine st)))
                 i)
         se.2
  | None => st
  end.

End Springs.

(** What can happen to the springs: one is constructed, the setter and
    the methods of one are called, and the driver ticks the update closure
    of a playback, which acts on the spring that owns it. *)
Inductive SpringEvent : Type :=
| EvNew (now : Q) (initialValue scale : JS.number)
    (params : motion.SpringParams.t)
| EvSetValue (i : nat) (now : Q) (value : JS.number)
| EvStart (i : nat) (now : Q) (targetValue velocity : JS.number)
| EvStop (i : nat)
| EvTick (id : nat) (frame : popmotion.Frame).

Definition spring_event (ev : SpringEvent) (st : Springs.t) : Springs.t :=
  match ev with
  | EvNew now initialValue scale params =>
      let se :=
        motion.SpringAnimation.new_ now initialValue scale params
          (Springs.engine st) in
      Springs.mk (Springs.springs st ++ [se.1]) (Springs.owners st) se.2
  | EvSetValue i now value =>
      Springs.call i (motion.SpringAnimation.set_value now value) st
  | EvStart i now targetValue velocity =>
      Springs.call i (motion.SpringAnimation.start now targetValue velocity)
        st
  | EvStop i => Springs.call i motion.SpringAnimation.stop st
  | EvTick id frame =>
      match Springs.owners st !! id with
      | Some i =>
          Springs.call i (motion.SpringAnimation.playback_update id frame) st
      | None => st
      end
  end.

Definition spring_run (evs : list SpringEvent) (st : Springs.t)
    : Springs.t :=
  fold_left (fun st ev => spring_event ev st) evs st.

(** The springs and the driver they share are in step: the subscribed
    updates are exactly the playbacks that the animating springs hold in
    [stopFunction], each owned by the spring that holds it; an animating
    spring has a target and an idle one has none; and the display link
    exists exactly while some update is subscribed. *)
Definition springs_in_step (st : Springs.t) : Prop :=
  let d := motion.Engine.driver (Springs.engine st) in
  length (Springs.owners st) =
    length (motion.Engine.playbacks (Springs.engine st)) /\
  driver_balanced d /\
  (forall i s id,
     Springs.springs st !! i = Some s ->
     motion.SpringAnimation.stopFunction s = Some id ->
     Springs.owners st !! id = Some i) /\
  (forall i s,
     Springs.springs st !! i = Some s ->
     motion.SpringAnimation.animating s = true ->
     is_Some (motion.SpringAnimation.stopFunction s) /\
     is_Some (motion.SpringAnimation.targetValue s)) /\
  (forall i s,
     Springs.springs st !! i = Some s ->
     motion.SpringAnimation.animating s = false ->
     motion.SpringAnimation.targetValue s = None) /\
  (forall id,
     id ∈ motion.CALayerDriver.tickers d <->
     exists i s,
       Springs.springs st !! i = Some s /\
       motion.SpringAnimation.animating s = true /\
       motion.SpringAnimation.stopFunction s = Some id).

(** What a call leaves of a spring and the engine, as far as being in step
    goes.  [idled]: the spring has been stopped, its playback, if any,
    unsubscribed.  [unmoved]: nothing that matters has changed. *)
Definition idled (s s' : motion.SpringAnimation.t)
    (e e' : motion.Engine.t) : Prop :=
  motion.SpringAnimation.animating s' = false /\
  motion.SpringAnimation.targetValue s' = None /\
  (motion.SpringAnimation.stopFunction s' =
     motion.SpringAnimation.stopFunction s \/
   motion.SpringAnimation.stopFunction s' = None) /\
  motion.Engine.playbacks e' = motion.Engine.playbacks e /\
  motion.Engine.driver e' =
    match motion.SpringAnimation.stopFunction s with
    | Some id => motion.CALayerDriver.driver_stop id (motion.Engine.driver e)
    | None => motion.Engine.driver e
    end.

Definition unmoved (s s' : motion.SpringAnimation.t)
    (e e' : motion.Engine.t) : Prop :=
  motion.SpringAnimation.animating s' = motion.SpringAnimation.animating s /\
  motion.SpringAnimation.targetValue s' =
    motion.SpringAnimation.targetValue s /\
  motion.SpringAnimation.stopFunction s' =
    motion.SpringAnimation.stopFunction s /\
  motion.Engine.playbacks e' = motion.Engine.playbacks e /\
  motion.Engine.driver e' = motion.Engine.driver e.

(* ===================================================================== *)
(** * ball.ts: the other methods *)
(* ===================================================================== *)

(** The properties of the child nodes that [update()] reads and writes and
    [Ball.t] does not hold. *)
Module BallView.
Record t : Type := mk {
  shadowSprite_position : CGPoint.t;
  imgContainer_xScale : JS.number;
  imgContainer_position : CGPoint.t;
  imgNode_scale : JS.number;
}.

(** The child nodes as SpriteKit creates them. *)
Definition initial : t := mk CGPointZero 1%Q CGPointZero 1%Q.
End BallView.

Module BallMethods.

Import motion.

Definition set_position (p : CGPoint.t) (b : Ball.t) : Ball.t :=
  Ball.mk (Ball.radius b) p (Ball.nodeScale b) (Ball.physicsBody b)
    (Ball.actions b) (Ball.dragScale b) (Ball.squish b)
    (Ball._beingDragged b) (Ball.imgContainer_zRotation b)
    (Ball.imgNode_zRotation b) (Ball.imgNode_size b)
    (Ball.shadowSprite_size b) (Ball.shadowSprite_alpha b)
    (Ball.shadowContainer_alpha b).

Definition set_dragScale (s : SpringAnimation.t) (b : Ball.t) : Ball.t :=
  Ball.mk (Ball.radius b) (Ball.position b) (Ball.nodeScale b)
    (Ball.physicsBody b) (Ball.actions b) s (Ball.squish b)
    (Ball._beingDragged b) (Ball.imgContainer_zRotation b)
    (Ball.imgNode_zRotation b) (Ball.imgNode_size b)
    (Ball.shadowSprite_size b) (Ball.shadowSprite_alpha b)
    (Ball.shadowContainer_alpha b).

Definition set__beingDragged (f : bool) (b : Ball.t) : Ball.t :=
  Ball.mk (Ball.radius b) (Ball.position b) (Ball.nodeScale b)
    (Ball.physicsBody b) (Ball.actions b) (Ball.dragScale b) (Ball.squish b)
    f (Ball.imgContainer_zRotation b)
    (Ball.imgNode_zRotation b) (Ball.imgNode_size b)
    (Ball.shadowSprite_size b) (Ball.shadowSprite_alpha b)
    (Ball.shadowContainer_alpha b).

Definition set_shadowSprite_alpha (a : JS.number) (b : Ball.t) : Ball.t :=
  Ball.mk (Ball.radius b) (Ball.position b) (Ball.nodeScale b)
    (Ball.physicsBody b) (Ball.actions b) (Ball.dragScale b) (Ball.squish b)
    (Ball._beingDragged b) (Ball.imgContainer_zRotation b)
    (Ball.imgNode_zRotation b) (Ball.imgNode_size b)
    (Ball.shadowSprite_size b) a
    (Ball.shadowContainer_alpha b).

(** [animateDrag(beingDragged)].  The argument [this.dragScale.velocity] is
    read, trimming the tracker of an idle spring, before [start] runs. *)
Definition animateDrag (now : Q) (beingDragged : bool) (b : Ball.t)
    (e : Engine.t) : Ball.t * Engine.t :=
  let old := Ball._beingDragged b in
  let b := set__beingDragged beingDragged b in
  if Bool.eqb old beingDragged then (b, e)
  else
    let '(velocity, s) := SpringAnimation.velocity now (Ball.dragScale b) in
    let '(s, e) :=
      SpringAnimation.start now
        (if beingDragged then JS.Finite (105 # 100) else JS.Finite 1)
        velocity s e in
    (set_dragScale s b, e).

(** [update()] *)
Definition update (b : Ball.t) (v : BallView.t) : Ball.t * BallView.t :=
  let shadowSprite_position :=
    CGPoint.mk 0%Q
      (Ball.radius b * (3 # 10)%Q - CGPoint.y (Ball.position b))%js in
  let distFromBottom := (CGPoint.y (Ball.position b) - Ball.radius b)%js in
  let b :=
    set_shadowSprite_alpha (remap distFromBottom 0%Q 200%Q 1%Q 0%Q true) b in
  let yDelta :=
    ((- (1%Q - BallView.imgContainer_xScale v)) * Ball.radius b / 2%Q)%js in
  (b,
   BallView.mk shadowSprite_position
     (SpringAnimation.value (Ball.squish b))
     (CGPoint.mk 0%Q yDelta)
     (SpringAnimation.value (Ball.dragScale b))).

End BallMethods.

(** What can happen to the drag-scale spring of a ball: [animateDrag] is
    called, and the driver ticks one of its playbacks. *)
Inductive DragScaleEvent : Type :=
| EvAnimateDrag (now : Q) (beingDragged : bool)
| EvDragScaleTick (id : nat) (frame : popmotion.Frame).

Definition dragScale_event (ev : DragScaleEvent)
    (be : Ball.t * motion.Engine.t) : Ball.t * motion.Engine.t :=
  match ev with
  | EvAnimateDrag now beingDragged =>
      BallMethods.animateDrag now beingDragged be.1 be.2
  | EvDragScaleTick id frame =>
      let '(s, e) :=
        motion.SpringAnimation.playback_update id frame
          (Ball.dragScale be.1) be.2 in
      (BallMethods.set_dragScale s be.1, e)
  end.

Definition dragScale_run (evs : list DragScaleEvent)
    (be : Ball.t * motion.Engine.t) : Ball.t * motion.Engine.t :=
  fold_left (fun be ev => dragScale_event ev be) evs be.

(** The drag-scale spring has only ever been given a value by its
    constructor, and has only ever been started at rest. *)
Definition dragScale_at_rest (be : Ball.t * motion.Engine.t) : Prop :=
  let s := Ball.dragScale be.1 in
  (exists l, motion.SpringAnimation.externallySetVelocityTracker s =
               motion.VelocityTracker.mk l (JS.Finite (1 / 15)) /\
             (l = [] \/ exists t : Q, l = [scalar_sample t 1])) /\
  (forall v, motion.SpringAnimation._velocity s = Some v ->
             v =n= JS.Finite 0) /\
  motion.SpringAnimation.scale s = JS.Finite 1000 /\
  Forall (fun o => popmotion.velocity o =n= JS.Finite 0)
    (motion.Engine.playbacks be.2).

(* ===================================================================== *)
(** * view_controller.ts: dragging *)
(* ===================================================================== *)

(** *** class DragState *)

Module DragState.

Record t : Type := mk {
  velocityTracker : view_controller.VelocityTracker.t;
  ballStart : CGPoint.t;
  mouseStart : CGPoint.t;
  currentMousePos : CGPoint.t;
}.

(** [new DragState(ballStart, mouseStart, currentMousePos)] *)
Definition new_ (ballStart mouseStart currentMousePos : CGPoint.t) : t :=
  mk view_controller.VelocityTracker.new_ ballStart mouseStart
     currentMousePos.

(** [get currentBallPos()] *)
Definition currentBallPos (d : t) : CGPoint.t :=
  let delta :=
    CGPoint.mk
      (CGPoint.x (currentMousePos d) - CGPoint.x (mouseStart d))%js
      (CGPoint.y (currentMousePos d) - CGPoint.y (mouseStart d))%js in
  CGPoint.mk (CGPoint.x (ballStart d) + CGPoint.x delta)%js
             (CGPoint.y (ballStart d) + CGPoint.y delta)%js.

End DragState.

(** *** class ViewController: the drag state and the mouse handlers *)

Module Dragging.

Import view_controller.

(** A controller with the fields its mouse handlers use besides those of
    [ViewController.t]: [_dragState], and [bounds] for [this.view.bounds]. *)
Record t : Type := mk {
  controller : ViewController.t;
  _dragState : option DragState.t;
  bounds : CGRect.t;
}.

Definition set_isDynamic (f : bool) (p : SKPhysicsBody.t)
    : SKPhysicsBody.t :=
  SKPhysicsBody.mk f (SKPhysicsBody.affectedByGravity p)
    (SKPhysicsBody.restitution p) (SKPhysicsBody.allowsRotation p)
    (SKPhysicsBody.usesPreciseCollisionDetection p)
    (SKPhysicsBody.contactTestBitMask p) (SKPhysicsBody.velocity p)
    (SKPhysicsBody.impulses p).

(** The position [set dragState] gives a ball of radius [radius] for the
    drag state [value] within [bounds]. *)
Definition constrained_position (value : DragState.t) (radius : JS.number)
    (bounds : CGRect.t) : CGPoint.t :=
  let pos := DragState.currentBallPos value in
  let constrainedRect :=
    constrainRect
      (CGRect.mk
         (CGPoint.mk (CGPoint.x pos - radius)%js (CGPoint.y pos - radius)%js)
         (CGSize.mk (radius * 2%Q)%js (radius * 2%Q)%js))
      bounds in
  CGPoint.mk (CGRectGetMidX constrainedRect) (CGRectGetMidY constrainedRect).

(** [set dragState(value)]; [None] when it throws, which it does when the
    ball held has no physics body: [this.ball.physicsBody.isDynamic = ...]
    on null. *)
Definition set_dragState (value : option DragState.t) (c : t) (w : World.t)
    : option (t * World.t) :=
  let c := mk (controller c) value (bounds c) in
  match value, ViewController.ball (controller c) with
  | Some value, Some ball =>
      b ← World.balls w !! ball;
      p ← Ball.physicsBody b;
      let b := Ball.set_physicsBody (Some (set_isDynamic false p)) b in
      let b :=
        BallMethods.set_position
          (constrained_position value (Ball.radius b) (bounds c)) b in
      Some (c, World.set_balls (<[ball := b]> (World.balls w)) w)
  | None, Some ball =>
      b ← World.balls w !! ball;
      p ← Ball.physicsBody b;
      let b := Ball.set_physicsBody (Some (set_isDynamic true p)) b in
      Some (c, World.set_balls (<[ball := b]> (World.balls w)) w)
  | _, None => Some (c, w)
  end.

(** [onMouseDown()]; [scenePos] is [this.mouseScenePos] and [hit] is what
    [this.ball.containsPoint(scenePos)] answers. *)
Definition onMouseDown (scenePos : CGPoint.t) (hit : bool) (c : t)
    (w : World.t) : option (t * World.t) :=
  match ViewController.ball (controller c) with
  | Some ball =>
      if hit then
        b ← World.balls w !! ball;
        set_dragState
          (Some (DragState.new_ (Ball.position b) scenePos scenePos)) c w
      else set_dragState None c w
  | None => set_dragState None c w
  end.

(** [onMouseDrag()] *)
Definition onMouseDrag (now : Q) (scenePos : CGPoint.t) (c : t)
    (w : World.t) : option (t * World.t) :=
  match _dragState c with
  | Some d =>
      let d :=
        DragState.mk (DragState.velocityTracker d) (DragState.ballStart d)
          (DragState.mouseStart d) scenePos in
      let d :=
        DragState.mk
          (VelocityTracker.add now (DragState.currentMousePos d)
             (DragState.velocityTracker d))
          (DragState.ballStart d) (DragState.mouseStart d)
          (DragState.currentMousePos d) in
      set_dragState (Some d) c w
  | None => Some (c, w)
  end.

Section MouseUp.

(** [Math.sqrt] *)
Variable Math_sqrt : JS.number -> JS.number.

(** [CGPointGetLength(point)], of util.ts. *)
Definition CGPointGetLength (point : CGPoint.t) : JS.number :=
  Math_sqrt (CGPoint.x point * CGPoint.x point
             + CGPoint.y point * CGPoint.y point)%js.

(** [onMouseUp()]; the impulse is applied only when there are a ball and a
    body. *)
Definition onMouseUp (now : Q) (c : t) (w : World.t)
    : option (t * World.t) :=
  let velocity :=
    match _dragState c with
    | Some d => VelocityTracker.velocity now (DragState.velocityTracker d)
    | None => CGPointZero
    end in
  '(c, w) ← set_dragState None c w;
  if (CGPointGetLength velocity >? 0%Q)%js then
    match ViewController.ball (controller c) with
    | Some ball =>
        Some (c,
              World.update ball
                (fun b =>
                   Ball.set_physicsBody
                     (SKPhysicsBody.applyImpulse
                        (CGVector.mk (CGPoint.x velocity)
                                     (CGPoint.y velocity))
                        <$> Ball.physicsBody b)
                     b)
                w)
    | None => Some (c, w)
    end
  else Some (c, w).

End MouseUp.

End Dragging.

(** [Math.sqrt] answers a finite number at least zero, and zero only at
    zero, on every finite number at least zero: all the mouse handlers need
    of it. *)
Definition sqrt_signs (Math_sqrt : JS.number -> JS.number) : Prop :=
  forall q : Q, (0 <= q)%Q ->
    exists r : Q, Math_sqrt (JS.Finite q) = JS.Finite r /\
                  (0 <= r)%Q /\ ((r == 0)%Q <-> (q == 0)%Q).

(** The controller holds the allocated ball [ball], whose body has
    received the impulses [impulses]. *)
Definition holds_ball (ball : nat) (impulses : list CGVector.t)
    (c : Dragging.t) (w : view_controller.World.t) : Prop :=
  view_controller.ViewController.ball (Dragging.controller c) = Some ball /\
  exists (b : Ball.t) (p : SKPhysicsBody.t),
    view_controller.World.balls w !! ball = Some b /\
    Ball.physicsBody b = Some p /\
    SKPhysicsBody.impulses p = impulses.

(** A ball of radius [RADIUS] at [(725, 35)] alone in the store, held by a
    controller whose view has the bounds of a 1440 by 900 screen. *)
Definition example_ball : Ball.t :=
  (Ball.create 0 RADIUS (CGPoint.mk 725%Q 35%Q) motion.Engine.initial).1.

Definition example_body : SKPhysicsBody.t :=
  SKPhysicsBody.mk true true (6 # 10)%Q false true 1
    (CGVector.mk 0%Q 0%Q) [].

Definition example_world : view_controller.World.t :=
  view_controller.World.mk [example_ball] motion.Engine.initial [] [] [].

Definition example_controller : Dragging.t :=
  Dragging.mk
    (view_controller.ViewController.set__ball (Some 0%nat)
       (view_controller.ViewController.set_scene [0%nat]
          (view_controller.ViewController.initial
             (Some (rect_of 0 0 1440 900)))))
    None (rect_of 0 0 1440 900).

(** The mouse events a controller is sent, with what the handlers read from
    the outside. *)
Inductive MouseEvent : Type :=
| MouseDown (scenePos : CGPoint.t) (hit : bool)
| MouseDrag (now : Q) (scenePos : CGPoint.t)
| MouseUp (now : Q).

Definition mouse_event (Math_sqrt : JS.number -> JS.number)
    (ev : MouseEvent) (cw : Dragging.t * view_controller.World.t)
    : option (Dragging.t * view_controller.World.t) :=
  match ev with
  | MouseDown scenePos hit => Dragging.onMouseDown scenePos hit cw.1 cw.2
  | MouseDrag now scenePos => Dragging.onMouseDrag now scenePos cw.1 cw.2
  | MouseUp now => Dragging.onMouseUp Math_sqrt now cw.1 cw.2
  end.

(** The handlers called one after the other; [None] as soon as one
    throws. *)
Fixpoint mouse_run (Math_sqrt : JS.number -> JS.number)
    (evs : list MouseEvent) (cw : Dragging.t * view_controller.World.t)
    : option (Dragging.t * view_controller.World.t) :=
  match evs with
  | [] => Some cw
  | ev :: evs =>
      match mouse_event Math_sqrt ev cw with
      | Some cw => mouse_run Math_sqrt evs cw
      | None => None
      end
  end.

(** A stand-in for [Math.sqrt] that has its signs. *)
Definition sqrt_stand_in (a : JS.number) : JS.number :=
  match a with
  | JS.Finite q => if JS.Qltb 0 q then JS.Finite q else JS.Finite 0
  | _ => a
  end.

(* ===================================================================== *)
(** * view_controller.ts: the physics queue *)
(* ===================================================================== *)

(** The impulses the closures of [queue] hold for the object [ball], in the
    order of the queue. *)
Definition impulses_for (ball : nat)
    (queue : list view_controller.PhysicsCallback) : list CGVector.t :=
  omap (fun cb =>
          match cb with
          | view_controller.ApplyImpulse b impulse =>
              if decide (b = ball) then Some impulse else None
          end)
       queue.

(** [applyImpulse] called on a body with each impulse of [l] in turn. *)
Definition apply_all (l : list CGVector.t) (p : SKPhysicsBody.t)
    : SKPhysicsBody.t :=
  foldl (fun p impulse => SKPhysicsBody.applyImpulse impulse p) p l.

(* ===================================================================== *)
(** * app_delegate.ts *)
(* ===================================================================== *)

Module AppDelegate.

Import view_controller.

(** Of the delegate: [_ballVisible], and what [set ballVisible] writes
    outside it: [ballWindow.isVisible], [sceneView.isPaused] of the
    controller, whether the dock tile shows [putBackImageView] (or else
    [ballImageView]), and [clickWindow.isVisible]. *)
Record t : Type := mk {
  _ballVisible : bool;
  ballWindow_isVisible : bool;
  sceneView_isPaused : bool;
  dockTile_putBack : bool;
  clickWindow_isVisible : bool;
}.

(** [get ballVisible()] *)
Definition ballVisible (a : t) : bool := _ballVisible a.

(** [set ballVisible(value)]; [updateClickWindow()] only moves the click
    window. *)
Definition set_ballVisible (value : bool) (a : t) : t :=
  if Bool.eqb value (ballVisible a) then a
  else mk value value (negb value) value value.

(** The closure the delegate hands to [dock]:
    [() => { this.ballVisible = false; }]. *)
Definition hide : Callback := 0%nat.

(** The delegate after the calls [calls] of its closure. *)
Definition deliver (calls : list Callback) (a : t) : t :=
  foldl (fun a _ => set_ballVisible false a) a calls.

(** The calls of outside callbacks made between the stores [w] and [w']. *)
Definition calls_between (w w' : World.t) : list Callback :=
  drop (length (World.invoked w)) (World.invoked w').

(** The application: the delegate, its [ballViewController] and the store
    the controller acts on. *)
Record App : Type := mkApp {
  delegate : t;
  controller : ViewController.t;
  world : World.t;
}.

(** [applicationShouldHandleReopenHasVisibleWindows(sender, flag)], which
    returns [true] on every path.  [currentScreen] is the screen its loop
    over [NSScreen.screens] finds for the mouse location, if any; [None] as
    a result is a call that throws. *)
Definition applicationShouldHandleReopenHasVisibleWindows (now : Q)
    (mouseLocation : CGPoint.t) (currentScreen : option NSScreen.t)
    (s : App) : option App :=
  match currentScreen with
  | None => Some s
  | Some currentScreen =>
      r ← getInferredRectOfHoveredDockIcon mouseLocation currentScreen;
      let dockIconRect := constrainRect r (NSScreen.frame currentScreen) in
      if ballVisible (delegate s) then
        let docked :=
          ViewController.dock dockIconRect hide (controller s) (world s) in
        Some (mkApp (deliver (calls_between (world s) docked.2) (delegate s))
                    docked.1 docked.2)
      else
        let launched :=
          ViewController.launch now dockIconRect (controller s) (world s) in
        Some (mkApp (set_ballVisible true (delegate s))
                    launched.1 launched.2)
  end.

(** The completion block of a finished action runs, and with it the
    delegate's closure. *)
Definition run_completion (k : Completion) (s : App) : App :=
  let completed :=
    ViewController.run_completion k (controller s) (world s) in
  mkApp (deliver (calls_between (world s) completed.2) (delegate s))
        completed.1 completed.2.

(** The store an outcome left. *)
Definition outcome_world (o : ViewController.Outcome) : World.t :=
  match o with
  | ViewController.Returned w => w
  | ViewController.Threw w => w
  end.

(** A delegate that has just been constructed. *)
Definition fresh (a : t) : Prop := _ballVisible a = false.

Definition initial (a : t) (screen : option CGRect.t) : App :=
  mkApp a (ViewController.initial screen) World.initial.

End AppDelegate.

(** What happens to the application: its dock icon is clicked, the
    completion of an action on a ball runs, SpriteKit calls the physics
    delegate methods, a block of the main queue runs. *)
Inductive app_step : AppDelegate.App -> AppDelegate.App -> Prop :=
| app_reopen (now : Q) (mouseLocation : CGPoint.t)
    (currentScreen : option NSScreen.t) s s' :
    AppDelegate.applicationShouldHandleReopenHasVisibleWindows
      now mouseLocation currentScreen s = Some s' ->
    app_step s s'
| app_completion (ball : nat) (b : Ball.t) (a : SKAction) (k : Completion)
    s :
    view_controller.World.balls (AppDelegate.world s) !! ball = Some b ->
    (a, Some k) ∈ Ball.actions b ->
    app_step s (AppDelegate.run_completion k s)
| app_physics s :
    app_step s
      (AppDelegate.mkApp (AppDelegate.delegate s)
         (view_controller.ViewController.didSimulatePhysicsForScene
            (AppDelegate.controller s) (AppDelegate.world s)).1
         (AppDelegate.outcome_world
            (view_controller.ViewController.didSimulatePhysicsForScene
               (AppDelegate.controller s) (AppDelegate.world s)).2))
| app_contact (collisionImpulse : JS.number) s :
    app_step s
      (AppDelegate.mkApp (AppDelegate.delegate s) (AppDelegate.controller s)
         (view_controller.ViewController.didBeginContact collisionImpulse
            (AppDelegate.world s)))
| app_operation (random : Q) (o : view_controller.Operation) s :
    o ∈ view_controller.World.mainQueue (AppDelegate.world s) ->
    app_step s
      (AppDelegate.mkApp (AppDelegate.delegate s)
         (view_controller.ViewController.run_operation random o
            (AppDelegate.controller s))
         (AppDelegate.world s)).

(** The states the application reaches from the delegate [a0] on a
    controller whose window is on [screen]. *)
Inductive app_reachable (a0 : AppDelegate.t) (screen : option CGRect.t)
    : AppDelegate.App -> Prop :=
| app_reachable_initial :
    app_reachable a0 screen (AppDelegate.initial a0 screen)
| app_reachable_step s s' :
    app_reachable a0 screen s -> app_step s s' -> app_reachable a0 screen s'.

(** While the delegate says the ball is visible, the ball window and the
    click window are shown, the scene runs, and the dock tile offers to put
    the ball back. *)
Definition shown (a : AppDelegate.t) : Prop :=
  AppDelegate.ballWindow_isVisible a = true /\
  AppDelegate.sceneView_isPaused a = false /\
  AppDelegate.dockTile_putBack a = true /\
  AppDelegate.clickWindow_isVisible a = true.

(** The delegate says the ball is visible only with its windows shown. *)
Definition visible_shown (a : AppDelegate.t) : Prop :=
  AppDelegate.ballVisible a = true -> shown a.

(** What a state of the application keeps true. *)
Definition app_invariant (s : AppDelegate.App) : Prop :=
  (is_Some (view_controller.ViewController.ball (AppDelegate.controller s)) ->
   AppDelegate.ballVisible (AppDelegate.delegate s) = true) /\
  visible_shown (AppDelegate.delegate s) /\
  consistent (AppDelegate.controller s, AppDelegate.world s).

(* ===================================================================== *)
(** * motion.ts: the driver's clock *)
(* ===================================================================== *)

(** The shared [CALayerDriver] instance with [prevTick], which [start()]
    and [tick()] write. *)
Module DriverClock.

Import motion.

Record t : Type := mk {
  driver : CALayerDriver.t;
  prevTick : option Q;
}.

(** [static start()]; [timestamp] is what [performance.now()] returns. *)
Definition start (timestamp : Q) (d : t) : t :=
  if CALayerDriver.displayLink (driver d) then d
  else mk (CALayerDriver.start (driver d)) (Some timestamp).

(** [static stop()] *)
Definition stop (d : t) : t :=
  mk (CALayerDriver.stop (driver d)) (prevTick d).

(** [tick()]: the delta it hands to every ticker, and the instance after
    it; [None] when it throws.  [this.prevTick ? ... : 0] takes a
    [prevTick] of zero for an unset one. *)
Definition tick (timestamp : Q) (d : t) : option (Q * t) :=
  if negb (CALayerDriver.displayLink (driver d)) then None
  else
    let delta :=
      match prevTick d with
      | Some p => if Qeq_bool p 0 then 0%Q else (timestamp - p)%Q
      | None => 0%Q
      end in
    Some (delta, mk (driver d) (Some timestamp)).

(** [tick()] called at each of [timestamps] in turn: the deltas handed
    out. *)
Fixpoint ticks (timestamps : list Q) (d : t) : option (list Q * t) :=
  match timestamps with
  | [] => Some ([], d)
  | timestamp :: rest =>
      match tick timestamp d with
      | Some (delta, d) =>
          match ticks rest d with
          | Some (deltas, d) => Some (delta :: deltas, d)
          | None => None
          end
      | None => None
      end
  end.

Definition total (deltas : list Q) : Q := fold_right Qplus 0%Q deltas.

End DriverClock.

(* ===================================================================== *)
(** * Facts about numbers *)
(* ===================================================================== *)

Section NumberFacts.
Local Open Scope Q_scope.

Lemma Qltb_true (a b : Q) : JS.Qltb a b = true <-> a < b.
Proof.
  unfold JS.Qltb. rewrite negb_true_iff.
  split; intros H.
  - apply Qnot_le_lt. intros Hle. apply Qle_bool_iff in Hle. congruence.
  - destruct (Qle_bool b a) eqn:E; [|reflexivity].
    apply Qle_bool_iff in E. lra.
Qed.

Lemma Qltb_false (a b : Q) : JS.Qltb a b = false <-> b <= a.
Proof.
  unfold JS.Qltb. rewrite negb_false_iff. apply Qle_bool_iff.
Qed.

Lemma Qle_bool_false (a b : Q) : Qle_bool a b = false <-> b < a.
Proof.
  split; intros H.
  - apply Qnot_le_lt. intros Hle. apply Qle_bool_iff in Hle. congruence.
  - destruct (Qle_bool a b) eqn:E; [|reflexivity].
    apply Qle_bool_iff in E. lra.
Qed.

Lemma Qeq_bool_false (a b : Q) : Qeq_bool a b = false <-> ~ a == b.
Proof.
  split; intros H.
  - intros Heq. apply Qeq_bool_iff in Heq. congruence.
  - destruct (Qeq_bool a b) eqn:E; [|reflexivity].
    apply Qeq_bool_iff in E. contradiction.
Qed.

Lemma eqv_refl (a : JS.number) : a =n= a.
Proof. destruct a; simpl; auto. reflexivity. Qed.

Lemma eqv_sym (a b : JS.number) : a =n= b -> b =n= a.
Proof. destruct a, b; simpl; auto. intros H; symmetry; exact H. Qed.

Lemma eqv_trans (a b c : JS.number) : a =n= b -> b =n= c -> a =n= c.
Proof.
  destruct a, b, c; simpl; try tauto. intros H1 H2. rewrite H1. exact H2.
Qed.

(** Division of finite numbers stays finite when the divisor is not zero. *)
Lemma div_finite (p q : Q) :
  ~ q == 0 -> JS.div (JS.Finite p) (JS.Finite q) = JS.Finite (p / q).
Proof.
  intros H. unfold JS.div. apply Qeq_bool_false in H. rewrite H. reflexivity.
Qed.

End NumberFacts.

#[export] Instance eqv_equivalence : Equivalence JS.eqv.
Proof.
  split.
  - exact eqv_refl.
  - exact eqv_sym.
  - exact eqv_trans.
Qed.

(** Case analysis on a rational comparison in the goal, turning the boolean
    test into the order fact it decides. *)
Ltac qcase :=
  match goal with
  | |- context [JS.Qltb ?a ?b] =>
      let E := fresh "E" in
      destruct (JS.Qltb a b) eqn:E;
      [apply Qltb_true in E | apply Qltb_false in E]
  | |- context [Qle_bool ?a ?b] =>
      let E := fresh "E" in
      destruct (Qle_bool a b) eqn:E;
      [apply Qle_bool_iff in E | apply Qle_bool_false in E]
  | |- context [Qeq_bool ?a ?b] =>
      let E := fresh "E" in
      destruct (Qeq_bool a b) eqn:E;
      [apply Qeq_bool_iff in E | apply Qeq_bool_false in E]
  end.

(** Unfold the arithmetic of finite numbers. *)
Ltac js_arith :=
  cbn [JS.add JS.sub JS.mul JS.neg JS.lt JS.gt JS.le JS.max JS.min
       JS.is_nan JS.isFinite JS.nullish orb negb JS.eqv].

(** [lra] does not look through a division; divisions by closed constants
    are turned into multiplications by the inverse, computed. *)
Ltac qinv_consts :=
  unfold Qdiv in *;
  repeat match goal with
  | |- context [Qinv ?c] =>
      let v := eval vm_compute in (Qinv c) in
      progress change (Qinv c) with v
  | H : context [Qinv ?c] |- _ =>
      let v := eval vm_compute in (Qinv c) in
      progress change (Qinv c) with v in H
  end.

Ltac qlra := qinv_consts; lra.

(** Unfold the methods of a spring down to its fields. *)
Ltac spring_unfold :=
  unfold motion.SpringAnimation.start, motion.SpringAnimation.velocity,
    motion.SpringAnimation.onComplete, motion.SpringAnimation.onUpdate,
    motion.SpringAnimation.stop, motion.SpringAnimation.value,
    motion.SpringAnimation.set_animating,
    motion.SpringAnimation.set_targetValue,
    motion.SpringAnimation.set__velocity, motion.SpringAnimation.set__value,
    motion.SpringAnimation.set_stopFunction,
    motion.SpringAnimation.set_tracker,
    motion.Engine.animate, motion.Engine.playback_stop,
    motion.Engine.notify in *;
  cbn [motion.SpringAnimation.animating
       motion.SpringAnimation.externallySetVelocityTracker
       motion.SpringAnimation.onChange motion.SpringAnimation._value
       motion.SpringAnimation.targetValue motion.SpringAnimation._velocity
       motion.SpringAnimation.stopFunction motion.SpringAnimation.scale
       motion.SpringAnimation.params motion.Engine.driver
       motion.Engine.playbacks motion.Engine.notified
       fst snd JS.nullish] in *.

(** Unfold the field updates of the controller and of the store. *)
Ltac vc_unfold :=
  unfold view_controller.ViewController.ball,
    view_controller.ViewController.addChild,
    view_controller.ViewController.set_scene,
    view_controller.ViewController.set_physicsQueue,
    view_controller.ViewController.set__ball,
    view_controller.ViewController.set_sounds,
    view_controller.World.update, view_controller.World.alloc,
    view_controller.World.set_balls, view_controller.World.set_engine,
    view_controller.World.schedule, view_controller.World.addOperation,
    view_controller.World.invoke in *;
  cbn [view_controller.ViewController.scene
       view_controller.ViewController.physicsQueue
       view_controller.ViewController._ball
       view_controller.ViewController.sounds
       view_controller.ViewController.screen
       view_controller.World.balls view_controller.World.engine
       view_controller.World.timers view_controller.World.mainQueue
       view_controller.World.invoked fst snd] in *.

(* ===================================================================== *)
(** * util.ts: remap and constrainRect *)
(* ===================================================================== *)

Section Remap.
Local Open Scope Q_scope.

Example remap_shadow_0 : remap 0 0 200 1 0 true =n= 1.
Proof. vm_compute. reflexivity. Qed.

Example remap_shadow_200 : remap 200 0 200 1 0 true =n= 0.
Proof. vm_compute. reflexivity. Qed.

Example remap_shadow_300 : remap 300 0 200 1 0 true =n= 0.
Proof. vm_compute. reflexivity. Qed.

Example remap_shadow_neg : remap (-50) 0 200 1 0 true =n= 1.
Proof. vm_compute. reflexivity. Qed.

Lemma collisionStrength_value (x : Q) :
  view_controller.ViewController.collisionStrength x =
    JS.min (JS.max (JS.Finite (0 + (x - 1000) / (2000 - 1000) * ((5 # 10) - 0)))
                   (JS.Finite 0))
           (JS.Finite (5 # 10)).
Proof.
  unfold view_controller.ViewController.collisionStrength, remap.
  js_arith.
  rewrite div_finite by (intros H; vm_compute in H; discriminate).
  js_arith.
  replace (JS.Qltb 0 (5 # 10)) with true by reflexivity.
  reflexivity.
Qed.

End Remap.

Section CollisionStrength.
Local Open Scope Q_scope.
Import view_controller.

Lemma collisionStrength_in_range (x : Q) :
  1000 <= x <= 2000 ->
  ViewController.collisionStrength x
    =n= JS.Finite ((x - 1000) / 1000 * (1 # 2))%Q.
Proof.
  intros [Hlo Hhi]. rewrite collisionStrength_value.
  js_arith. repeat (qcase; js_arith); qlra.
Qed.

Lemma collisionStrength_below (x : Q) :
  x <= 1000 -> ViewController.collisionStrength x =n= JS.Finite 0.
Proof.
  intros Hlo. rewrite collisionStrength_value.
  js_arith. repeat (qcase; js_arith); qlra.
Qed.

Lemma collisionStrength_above (x : Q) :
  2000 <= x -> ViewController.collisionStrength x =n= JS.Finite (1 # 2).
Proof.
  intros Hlo. rewrite collisionStrength_value.
  js_arith. repeat (qcase; js_arith); qlra.
Qed.

Lemma collisionStrength_finite (x : Q) :
  exists s : Q, ViewController.collisionStrength x = JS.Finite s
                /\ 0 <= s <= 1 # 2.
Proof.
  rewrite collisionStrength_value.
  js_arith. repeat (qcase; js_arith); eexists; (split; [reflexivity|qlra]).
Qed.

End CollisionStrength.

Section CollisionSound.
Local Open Scope Q_scope.
Import view_controller.

(** [Math.floor(Math.random() * n)] is an index below [n]. *)
Lemma random_index_lt (random : Q) (n : nat) :
  0 <= random < 1 -> (0 < n)%nat ->
  (Z.to_nat (Qfloor (random * inject_Z (Z.of_nat n))) < n)%nat.
Proof.
  intros [Hlo Hhi] Hn.
  set (q := random * inject_Z (Z.of_nat n)).
  assert (Hn' : 0 < inject_Z (Z.of_nat n)).
  { change 0 with (inject_Z 0). rewrite <- Zlt_Qlt. lia. }
  assert (Hq0 : 0 <= q) by (unfold q; nra).
  assert (Hq1 : q < inject_Z (Z.of_nat n)) by (unfold q; nra).
  assert (H0 : (0 <= Qfloor q)%Z).
  { change 0%Z with (Qfloor 0). apply Qfloor_resp_le. exact Hq0. }
  assert (H1 : (Qfloor q < Z.of_nat n)%Z).
  { rewrite Zlt_Qlt. eapply Qle_lt_trans; [apply Qfloor_le | exact Hq1]. }
  lia.
Qed.

Lemma soundsUsable_spec (sounds : list NSSound.t) (i : nat) (s : NSSound.t) :
  (i, s) ∈ ViewController.soundsUsable sounds <->
  sounds !! i = Some s /\ NSSound.isPlaying s = false.
Proof.
  unfold ViewController.soundsUsable.
  rewrite list_elem_of_filter. simpl.
  rewrite elem_of_lookup_imap.
  split.
  - intros (Hp & j & y & Heq & Hl). inversion Heq; subst. auto.
  - intros (Hl & Hp). split; [exact Hp|]. exists i, s. auto.
Qed.

Lemma soundsUsable_empty (sounds : list NSSound.t) :
  length (ViewController.soundsUsable sounds) = 0%nat <->
  Forall (fun s => NSSound.isPlaying s = true) sounds.
Proof.
  rewrite Forall_lookup. split.
  - intros Hlen i s Hl.
    destruct (NSSound.isPlaying s) eqn:Hp; [reflexivity|].
    assert (Hin : (i, s) ∈ ViewController.soundsUsable sounds)
      by (apply soundsUsable_spec; auto).
    destruct (ViewController.soundsUsable sounds); [|discriminate].
    inversion Hin.
  - intros Hall.
    destruct (ViewController.soundsUsable sounds) as [|[i s] l] eqn:E;
      [reflexivity|].
    assert (Hin : (i, s) ∈ ViewController.soundsUsable sounds)
      by (rewrite E; left).
    apply soundsUsable_spec in Hin as [Hl Hp].
    specialize (Hall i s Hl). simpl in Hall. congruence.
Qed.

(** The block of [didBeginContact] with every player busy: nothing
    changes. *)
Lemma run_operation_busy (random : Q) (s : JS.number)
    (c : ViewController.t) :
  Forall (fun p => NSSound.isPlaying p = true) (ViewController.sounds c) ->
  ViewController.run_operation random (PlayCollisionSound s) c = c.
Proof.
  intros Hall. apply soundsUsable_empty in Hall.
  unfold ViewController.run_operation.
  destruct (decide _) as [_|Hne]; [reflexivity | contradiction].
Qed.

(** The block of [didBeginContact] with some player idle: one idle player
    gets the strength as its volume and is started; nothing else changes. *)
Lemma run_operation_idle (random : Q) (s : JS.number)
    (c : ViewController.t) :
  0 <= random < 1 ->
  ~ Forall (fun p => NSSound.isPlaying p = true) (ViewController.sounds c) ->
  exists (i : nat) (p : NSSound.t),
    ViewController.sounds c !! i = Some p /\
    NSSound.isPlaying p = false /\
    ViewController.run_operation random (PlayCollisionSound s) c =
      ViewController.set_sounds
        (<[i := NSSound.mk true s]> (ViewController.sounds c)) c.
Proof.
  intros Hr Hidle. rewrite <- soundsUsable_empty in Hidle.
  unfold ViewController.run_operation.
  destruct (decide _) as [He|Hne]; [contradiction|].
  set (usable := ViewController.soundsUsable (ViewController.sounds c)) in *.
  destruct (lookup_lt_is_Some_2 usable
              (Z.to_nat (Qfloor (random * inject_Z (Z.of_nat (length usable))))))
    as [[i p] Hip].
  { apply random_index_lt; [exact Hr | lia]. }
  rewrite Hip.
  assert (Hin : (i, p) ∈ usable) by (eapply list_elem_of_lookup_2; eauto).
  apply soundsUsable_spec in Hin as [Hl Hp].
  exists i, p. repeat split; auto.
  f_equal. apply list_eq. intros j.
  destruct (decide (i = j)) as [->|Hij].
  - rewrite list_lookup_alter_eq, Hl. simpl.
    rewrite list_lookup_insert_eq by (eapply lookup_lt_Some; eauto).
    reflexivity.
  - rewrite list_lookup_alter_ne, list_lookup_insert_ne by auto. reflexivity.
Qed.

End CollisionSound.

Section CollisionClaim.
Local Open Scope Q_scope.
Import view_controller.

(** C6.  The collision strength is the impulse remapped linearly from
    [1000, 2000] to [0, 0.5] and clamped: below 1000 it is not positive and
    [didBeginContact] does nothing; at 1500 it is 0.25; from 2000 on it is
    0.5.  [didBeginContact] queues its block only when the strength is
    positive, and the block starts a sound, at a volume equal to the
    strength, only when some player is idle: one idle player gets the volume
    and is started, and with every player busy nothing changes. *)
Theorem C6_collision_strength :
  (forall x : Q, 1000 <= x <= 2000 ->
     ViewController.collisionStrength x
       =n= JS.Finite ((x - 1000) / 1000 * (1 # 2)))
  /\
  (forall x : Q, x < 1000 ->
     (ViewController.collisionStrength x <=? 0%Q)%js = true /\
     forall w, ViewController.didBeginContact x w = w)
  /\
  ViewController.collisionStrength 1500 =n= JS.Finite (1 # 4)
  /\
  (forall x : Q, 2000 <= x ->
     ViewController.collisionStrength x =n= JS.Finite (1 # 2))
  /\
  (forall (x : Q) (w : World.t),
     (x <= 1000 -> ViewController.didBeginContact x w = w) /\
     (1000 < x ->
      exists s : Q,
        ViewController.collisionStrength x = JS.Finite s /\
        0 < s /\
        ViewController.didBeginContact x w =
          World.addOperation (PlayCollisionSound (JS.Finite s)) w))
  /\
  (forall (random : Q) (s : JS.number) (c : ViewController.t),
     0 <= random < 1 ->
     (Forall (fun p => NSSound.isPlaying p = true) (ViewController.sounds c) ->
      ViewController.run_operation random (PlayCollisionSound s) c = c) /\
     (~ Forall (fun p => NSSound.isPlaying p = true) (ViewController.sounds c) ->
      exists (i : nat) (p : NSSound.t),
        ViewController.sounds c !! i = Some p /\
        NSSound.isPlaying p = false /\
        ViewController.run_operation random (PlayCollisionSound s) c =
          ViewController.set_sounds
            (<[i := NSSound.mk true s]> (ViewController.sounds c)) c)).
Proof.
  repeat apply conj.
  - exact collisionStrength_in_range.
  - intros x Hx.
    assert (Hle : (ViewController.collisionStrength x <=? 0%Q)%js = true).
    { assert (H : x <= 1000) by lra.
      pose proof (collisionStrength_below x H) as Hs.
      destruct (ViewController.collisionStrength x) as [q| | |];
        cbn [JS.eqv] in Hs; try contradiction.
      cbn [JS.le]. apply Qle_bool_iff. lra. }
    split; [exact Hle|].
    intros w. unfold ViewController.didBeginContact. cbv zeta.
    rewrite Hle. reflexivity.
  - vm_compute. reflexivity.
  - exact collisionStrength_above.
  - intros x w. split.
    + intros Hx. pose proof (collisionStrength_below x Hx) as Hs.
      unfold ViewController.didBeginContact. cbv zeta.
      destruct (ViewController.collisionStrength x) as [q| | |];
        cbn [JS.eqv] in Hs; try contradiction.
      cbn [JS.le]. replace (Qle_bool q 0) with true; [reflexivity|].
      symmetry. apply Qle_bool_iff. lra.
    + intros Hx.
      assert (Hpos : exists s : Q,
                ViewController.collisionStrength x = JS.Finite s /\ 0 < s).
      { rewrite collisionStrength_value. js_arith.
        repeat (qcase; js_arith); eexists;
          (split; [reflexivity | qlra]). }
      destruct Hpos as (s & Hs & Hpos). exists s.
      split; [exact Hs|]. split; [exact Hpos|].
      unfold ViewController.didBeginContact. cbv zeta. rewrite Hs.
      cbn [JS.le]. replace (Qle_bool s 0) with false; [reflexivity|].
      symmetry. apply Qle_bool_false. exact Hpos.
  - intros random s c Hr. split.
    + apply run_operation_busy.
    + apply run_operation_idle. exact Hr.
Qed.

Lemma C6_collision_strength_witness :
  ViewController.collisionStrength 1200 =n= JS.Finite (1 # 10) /\
  ViewController.didBeginContact 500 World.initial = World.initial /\
  ViewController.collisionStrength 2500 =n= JS.Finite (1 # 2) /\
  ViewController.run_operation (1 # 2) (PlayCollisionSound (1 # 4))
    (ViewController.initial None) = ViewController.initial None.
Proof.
  destruct C6_collision_strength as (Hin & Hlo & _ & Hhi & _ & Hrun).
  split; [|split; [|split]].
  - etransitivity; [apply (Hin 1200); split; discriminate|]. reflexivity.
  - apply (Hlo 500). reflexivity.
  - apply (Hhi 2500). discriminate.
  - apply (Hrun (1 # 2) (JS.Finite (1 # 4)) (ViewController.initial None)).
    + split; [discriminate | reflexivity].
    + repeat constructor.
Defined.

Example collision_sound_played :
  let c :=
    ViewController.set_sounds
      [NSSound.mk true 0; NSSound.mk false 0; NSSound.mk true 0]
      (ViewController.initial None) in
  ViewController.sounds
    (ViewController.run_operation (1 # 2) (PlayCollisionSound (1 # 4)) c) =
    [NSSound.mk true 0; NSSound.mk true (1 # 4); NSSound.mk true 0].
Proof. reflexivity. Qed.

End CollisionClaim.

(* ===================================================================== *)
(** * The two velocity trackers *)
(* ===================================================================== *)

Section ScalarTracker.
Local Open Scope Q_scope.
Import motion.

Lemma trim_loop_Forall (P : Sample.t -> Prop) (now L : JS.number)
    (l : list Sample.t) :
  Forall P l -> Forall P (VelocityTracker.trim_loop now L l).
Proof.
  induction 1 as [|s l Hs Hl IH]; simpl; [constructor|].
  destruct (_ >? _)%js; [exact IH | constructor; assumption].
Qed.

Lemma finite_sample_inv (s : Sample.t) :
  finite_sample s = true -> exists t v : Q, s = scalar_sample t v.
Proof.
  destruct s as [[t| | |] [v| | |]]; try discriminate.
  intros _. exists t, v. reflexivity.
Qed.

(** What the scalar tracker answers, by cases on what it retains. *)
Lemma scalar_velocity_nil (now : Q) (k : VelocityTracker.t) :
  retained now k = [] ->
  (VelocityTracker.velocity now k).1 = JS.Finite 0.
Proof.
  unfold retained, VelocityTracker.velocity. intros ->. reflexivity.
Qed.

Lemma scalar_velocity_cons (now t0 v0 : Q) (rest : list Sample.t)
    (k : VelocityTracker.t) :
  retained now k = scalar_sample t0 v0 :: rest ->
  forall tl vl : Q,
    last (scalar_sample t0 v0 :: rest) = Some (scalar_sample tl vl) ->
    (VelocityTracker.velocity now k).1 =
      if JS.Qltb 0 (now - t0) then JS.Finite ((vl - v0) / (now - t0))
      else JS.Finite 0.
Proof.
  unfold retained, VelocityTracker.velocity. intros -> tl vl Hlast.
  rewrite last_lookup in Hlast.
  replace (length (scalar_sample t0 v0 :: rest) - 1)%nat
    with (Nat.pred (length (scalar_sample t0 v0 :: rest))) by lia.
  rewrite Hlast. cbn [lookup list_lookup scalar_sample Sample.time Sample.value].
  js_arith. unfold Qminus.
  destruct (JS.Qltb 0 (now + - t0)) eqn:E; [|reflexivity].
  apply Qltb_true in E. cbn [fst].
  rewrite div_finite by lra. reflexivity.
Qed.

End ScalarTracker.

Section PointTracker.
Local Open Scope Q_scope.
Import view_controller.

(** Fewer than two samples in the window: the zero point. *)
Lemma point_velocity_short (now : Q) (k : VelocityTracker.t) :
  (length (VelocityTracker.filteredSamples now k) < 2)%nat ->
  VelocityTracker.velocity now k = CGPointZero.
Proof.
  intros Hlen. unfold VelocityTracker.velocity.
  apply Nat.ltb_lt in Hlen. rewrite Hlen. reflexivity.
Qed.

(** Two samples or more in the window: the quotient over the first and the
    last, as JavaScript computes it. *)
Lemma point_velocity_long (now t0 x0 y0 tl xl yl : Q)
    (s : Sample.t) (rest : list Sample.t) (k : VelocityTracker.t) :
  VelocityTracker.filteredSamples now k = point_sample t0 x0 y0 :: s :: rest ->
  last (s :: rest) = Some (point_sample tl xl yl) ->
  VelocityTracker.velocity now k =
    CGPoint.mk (JS.Finite (xl - x0) / JS.Finite (tl - t0))%js
               (JS.Finite (yl - y0) / JS.Finite (tl - t0))%js.
Proof.
  intros Hf Hlast. unfold VelocityTracker.velocity. rewrite Hf.
  cbn [length Nat.ltb Nat.leb].
  replace (S (S (length rest)) - 1)%nat with (S (length rest)) by lia.
  rewrite last_lookup in Hlast. cbn [length Nat.pred] in Hlast.
  change ((point_sample t0 x0 y0 :: s :: rest) !! 0%nat)
    with (Some (point_sample t0 x0 y0)).
  change ((point_sample t0 x0 y0 :: s :: rest) !! S (length rest))
    with ((s :: rest) !! length rest).
  rewrite Hlast. reflexivity.
Qed.

Lemma point_velocity_distinct (now t0 x0 y0 tl xl yl : Q)
    (s : Sample.t) (rest : list Sample.t) (k : VelocityTracker.t) :
  VelocityTracker.filteredSamples now k = point_sample t0 x0 y0 :: s :: rest ->
  last (s :: rest) = Some (point_sample tl xl yl) ->
  ~ t0 == tl ->
  VelocityTracker.velocity now k =
    CGPoint.mk (JS.Finite ((xl - x0) / (tl - t0)))
               (JS.Finite ((yl - y0) / (tl - t0))).
Proof.
  intros Hf Hlast Hne.
  rewrite (point_velocity_long _ _ _ _ _ _ _ _ _ _ Hf Hlast).
  rewrite !div_finite by lra. reflexivity.
Qed.

(** With equal first and last timestamps the division is by zero, and both
    coordinates of the answer are non-finite. *)
Lemma point_velocity_zero_elapsed (now t0 x0 y0 tl xl yl : Q)
    (s : Sample.t) (rest : list Sample.t) (k : VelocityTracker.t) :
  VelocityTracker.filteredSamples now k = point_sample t0 x0 y0 :: s :: rest ->
  last (s :: rest) = Some (point_sample tl xl yl) ->
  t0 == tl ->
  finite_point (VelocityTracker.velocity now k) = false /\
  JS.isFinite (CGPoint.x (VelocityTracker.velocity now k)) = false /\
  JS.isFinite (CGPoint.y (VelocityTracker.velocity now k)) = false.
Proof.
  intros Hf Hlast Heq.
  rewrite (point_velocity_long _ _ _ _ _ _ _ _ _ _ Hf Hlast).
  assert (Hz : Qeq_bool (tl - t0) 0 = true) by (apply Qeq_bool_iff; lra).
  unfold finite_point, JS.div. cbn [CGPoint.x CGPoint.y]. rewrite Hz.
  repeat split; repeat (destruct (Qeq_bool _ 0)); 
    repeat (destruct (JS.Qltb _ _)); reflexivity.
Qed.

End PointTracker.

Section TrackerClaims.
Local Open Scope Q_scope.

(** C1 (as amended).  A tracker that retains exactly the two samples
    [(t0, v0)] and [(t1, v1)], [t0 < t1], when it is read at [now]:
    the point tracker of view_controller.ts answers
    [(v1 - v0) / (t1 - t0)] on each coordinate; the scalar tracker of
    motion.ts, read at or after [t1], answers [(v1 - v0) / (now - t0)], the
    elapsed time being measured up to the time of the query, which is
    [(v1 - v0) / (t1 - t0)] when the query is made at [t1]. *)
Theorem C1_two_sample_velocity (t0 t1 now : Q) :
  t0 < t1 ->
  (forall (x0 y0 x1 y1 : Q) (k : view_controller.VelocityTracker.t),
     view_controller.VelocityTracker.filteredSamples now k =
       [point_sample t0 x0 y0; point_sample t1 x1 y1] ->
     view_controller.VelocityTracker.velocity now k =
       CGPoint.mk (JS.Finite ((x1 - x0) / (t1 - t0)))
                  (JS.Finite ((y1 - y0) / (t1 - t0))))
  /\
  (forall (v0 v1 : Q) (k : motion.VelocityTracker.t),
     retained now k = [scalar_sample t0 v0; scalar_sample t1 v1] ->
     t1 <= now ->
     (motion.VelocityTracker.velocity now k).1 =
       JS.Finite ((v1 - v0) / (now - t0)) /\
     (now == t1 ->
      (motion.VelocityTracker.velocity now k).1
        =n= JS.Finite ((v1 - v0) / (t1 - t0)))).
Proof.
  intros Hlt. split.
  - intros x0 y0 x1 y1 k Hf.
    apply (point_velocity_distinct now t0 x0 y0 t1 x1 y1 _ [] k Hf).
    + reflexivity.
    + lra.
  - intros v0 v1 k Hret Hnow.
    rewrite (scalar_velocity_cons now t0 v0 _ k Hret t1 v1 eq_refl).
    assert (E : JS.Qltb 0 (now - t0) = true) by (apply Qltb_true; lra).
    rewrite E. split; [reflexivity|].
    intros Heq. cbn [JS.eqv]. rewrite Heq. reflexivity.
Qed.

Lemma C1_two_sample_velocity_witness :
  view_controller.VelocityTracker.velocity (1 # 100)
    (view_controller.VelocityTracker.add (1 # 100) (CGPoint.mk 3 4)
       (view_controller.VelocityTracker.add 0 (CGPoint.mk 1 2)
          view_controller.VelocityTracker.new_)) =
    CGPoint.mk (JS.Finite ((3 - 1) / ((1 # 100) - 0)))
               (JS.Finite ((4 - 2) / ((1 # 100) - 0)))
  /\
  (motion.VelocityTracker.velocity (1 # 100)
     (motion.VelocityTracker.addSample (1 # 100) 7
        (motion.VelocityTracker.addSample 0 5
           motion.VelocityTracker.new_))).1
    =n= JS.Finite ((7 - 5) / ((1 # 100) - 0)).
Proof.
  destruct (C1_two_sample_velocity 0 (1 # 100) (1 # 100)) as [Hp Hs].
  - reflexivity.
  - split.
    + apply Hp. reflexivity.
    + apply Hs.
      * reflexivity.
      * discriminate.
      * reflexivity.
Defined.

(** The claim as written fails on the scalar tracker: two retained samples
    [(0, 0)] and [(1/100, 1)] read at [2/100] give 50, not
    [(1 - 0) / (1/100 - 0) = 100]. *)
Lemma C1_counterexample :
  let k :=
    motion.VelocityTracker.addSample (1 # 100) 1
      (motion.VelocityTracker.addSample 0 0 motion.VelocityTracker.new_) in
  retained (2 # 100) k = [scalar_sample 0 0; scalar_sample (1 # 100) 1] /\
  (motion.VelocityTracker.velocity (2 # 100) k).1 =n= JS.Finite 50 /\
  ~ (motion.VelocityTracker.velocity (2 # 100) k).1
      =n= JS.Finite ((1 - 0) / ((1 # 100) - 0)).
Proof.
  cbv zeta. split; [reflexivity|]. split.
  - vm_compute. reflexivity.
  - intros H. vm_compute in H. discriminate.
Qed.




End TrackerClaims.

(* ===================================================================== *)
(** * constrainRect *)
(* ===================================================================== *)

Section ConstrainRect.
Local Open Scope Q_scope.

Lemma constrainRect_size (r bounds : CGRect.t) :
  CGRect.size (constrainRect r bounds) = CGRect.size r.
Proof.
  unfold constrainRect. cbv zeta.
  repeat match goal with
         | |- context [if ?c then _ else _] => destruct c
         end; reflexivity.
Qed.

Lemma rect_accessors (x y w h : Q) :
  0 <= w -> 0 <= h ->
  CGRectGetMinX (rect_of x y w h) = JS.Finite x /\
  CGRectGetMaxX (rect_of x y w h) = JS.Finite (x + w) /\
  CGRectGetMinY (rect_of x y w h) = JS.Finite y /\
  CGRectGetMaxY (rect_of x y w h) = JS.Finite (y + h).
Proof.
  intros Hw Hh.
  unfold CGRectGetMinX, CGRectGetMaxX, CGRectGetMinY, CGRectGetMaxY, rect_of.
  cbn [CGRect.origin CGRect.size CGPoint.x CGPoint.y CGSize.width
       CGSize.height JS.lt JS.add].
  apply Qltb_false in Hw, Hh. rewrite Hw, Hh. auto.
Qed.

(** On rectangles of finite coordinates and non-negative extent,
    [constrainRect] moves each axis by [constrain_axis] and keeps the
    size. *)
Lemma constrainRect_axes (x y w h bx by_ bw bh : Q) :
  0 <= w -> 0 <= h -> 0 <= bw -> 0 <= bh ->
  constrainRect (rect_of x y w h) (rect_of bx by_ bw bh) =
    rect_of (constrain_axis x w bx bw) (constrain_axis y h by_ bh) w h.
Proof.
  intros Hw Hh Hbw Hbh.
  destruct (rect_accessors bx by_ bw bh Hbw Hbh) as (B1 & B2 & B3 & B4).
  unfold constrainRect. rewrite B1, B2, B3, B4. cbv zeta.
  unfold constrain_axis, JS.gt.
  destruct (rect_accessors x y w h Hw Hh) as (R1 & _).
  rewrite R1. cbn [JS.lt].
  set (x1 := if JS.Qltb x bx then bx else x).
  assert (E1 : (if JS.Qltb x bx then set_origin_x (rect_of x y w h) bx
                else rect_of x y w h) = rect_of x1 y w h).
  { unfold x1. destruct (JS.Qltb x bx); reflexivity. }
  rewrite E1.
  destruct (rect_accessors x1 y w h Hw Hh) as (_ & R2 & _).
  rewrite R2. cbn [JS.lt].
  set (x2 := if JS.Qltb (bx + bw) (x1 + w) then bx + bw - w else x1).
  assert (E2 : (if JS.Qltb (bx + bw) (x1 + w)
                then set_origin_x (rect_of x1 y w h)
                       (JS.Finite (bx + bw)
                        - CGSize.width (CGRect.size (rect_of x1 y w h)))%js
                else rect_of x1 y w h) = rect_of x2 y w h).
  { unfold x2. destruct (JS.Qltb (bx + bw) (x1 + w)); reflexivity. }
  rewrite E2.
  destruct (rect_accessors x2 y w h Hw Hh) as (_ & _ & R3 & _).
  rewrite R3. cbn [JS.lt].
  set (y1 := if JS.Qltb y by_ then by_ else y).
  assert (E3 : (if JS.Qltb y by_ then set_origin_y (rect_of x2 y w h) by_
                else rect_of x2 y w h) = rect_of x2 y1 w h).
  { unfold y1. destruct (JS.Qltb y by_); reflexivity. }
  rewrite E3.
  destruct (rect_accessors x2 y1 w h Hw Hh) as (_ & _ & _ & R4).
  rewrite R4. cbn [JS.lt].
  destruct (JS.Qltb (by_ + bh) (y1 + h)); reflexivity.
Qed.

(** A rectangle that fits the bounds on an axis ends within them on that
    axis. *)
Lemma constrain_axis_fits (p e bp be : Q) :
  e <= be ->
  bp <= constrain_axis p e bp be /\ constrain_axis p e bp be + e <= bp + be.
Proof.
  intros He. unfold constrain_axis. cbv zeta.
  destruct (JS.Qltb p bp) eqn:E1;
    [apply Qltb_true in E1 | apply Qltb_false in E1]; qcase; lra.
Qed.

(** A rectangle larger than the bounds on an axis ends with its far edge on
    the far edge of the bounds. *)
Lemma constrain_axis_larger (p e bp be : Q) :
  be < e -> constrain_axis p e bp be == bp + be - e.
Proof.
  intros He. unfold constrain_axis. cbv zeta.
  destruct (JS.Qltb p bp) eqn:E1;
    [apply Qltb_true in E1 | apply Qltb_false in E1]; qcase; lra.
Qed.

(** A rectangle that fits the bounds on an axis and sticks out over the
    near edge is moved onto that edge. *)
Lemma constrain_axis_near (p e bp be : Q) :
  p < bp -> e <= be ->
  constrain_axis p e bp be = bp /\ constrain_axis p e bp be + e <= bp + be.
Proof.
  intros H1 H2. unfold constrain_axis. cbv zeta.
  apply Qltb_true in H1. rewrite H1.
  assert (E : JS.Qltb (bp + be) (bp + e) = false) by (apply Qltb_false; lra).
  rewrite E. split; [reflexivity | lra].
Qed.

(** A rectangle that sticks out over the far edge on an axis gets the
    origin [bounds.max - size]. *)
Lemma constrain_axis_far (p e bp be : Q) :
  bp <= p -> bp + be < p + e ->
  constrain_axis p e bp be == bp + be - e.
Proof.
  intros H1 H2. unfold constrain_axis. cbv zeta.
  apply Qltb_false in H1. rewrite H1.
  apply Qltb_true in H2. rewrite H2. reflexivity.
Qed.

(** A rectangle already within the bounds on an axis is not moved. *)
Lemma constrain_axis_inside (p e bp be : Q) :
  bp <= p -> p + e <= bp + be -> constrain_axis p e bp be = p.
Proof.
  intros H1 H2. unfold constrain_axis. cbv zeta.
  destruct (JS.Qltb p bp) eqn:E1;
    [apply Qltb_true in E1 | apply Qltb_false in E1];
    qcase; try reflexivity; lra.
Qed.

End ConstrainRect.

Section ConstrainRectClaim.
Local Open Scope Q_scope.

Example constrainRect_left_edge :
  constrainRect (rect_of (-10) 5 20 20) (rect_of 0 0 100 100) =
    rect_of 0 5 20 20.
Proof. reflexivity. Qed.

Example constrainRect_top_edge :
  CGPoint.y (CGRect.origin
               (constrainRect (rect_of 10 90 20 20) (rect_of 0 0 100 100)))
    =n= JS.Finite 80.
Proof. vm_compute. reflexivity. Qed.

(** C3 (as amended).  [constrainRect] never changes the size.  On
    rectangles with finite coordinates and non-negative extents, axis by
    axis: a rectangle inside the bounds is not moved; a rectangle that fits
    the bounds and sticks out over the near edge is moved onto that edge,
    and then lies within the bounds; a rectangle that sticks out over the
    far edge gets the origin [bounds.max - r.size], the subtraction that
    puts its far edge on the far edge of the bounds; and so does a
    rectangle larger than the bounds, which is not pinned to the origin of
    the bounds.  A rectangle that fits and whose far edges do not stick out
    ends within the bounds. *)
Theorem C3_constrainRect :
  (forall r bounds : CGRect.t,
     CGRect.size (constrainRect r bounds) = CGRect.size r)
  /\
  (forall x y w h bx by_ bw bh : Q,
     0 <= w -> 0 <= h -> 0 <= bw -> 0 <= bh ->
     exists x' y' : Q,
       constrainRect (rect_of x y w h) (rect_of bx by_ bw bh) =
         rect_of x' y' w h /\
       (bx <= x -> x + w <= bx + bw -> x' = x) /\
       (by_ <= y -> y + h <= by_ + bh -> y' = y) /\
       (x < bx -> w <= bw -> x' = bx /\ x' + w <= bx + bw) /\
       (y < by_ -> h <= bh -> y' = by_ /\ y' + h <= by_ + bh) /\
       (bx <= x -> bx + bw < x + w -> x' == bx + bw - w) /\
       (by_ <= y -> by_ + bh < y + h -> y' == by_ + bh - h) /\
       (bw < w -> x' == bx + bw - w) /\
       (bh < h -> y' == by_ + bh - h) /\
       (w <= bw -> h <= bh -> x + w <= bx + bw -> y + h <= by_ + bh ->
        rect_within (constrainRect (rect_of x y w h) (rect_of bx by_ bw bh))
          (rect_of bx by_ bw bh) = true)).
Proof.
  split; [exact constrainRect_size|].
  intros x y w h bx by_ bw bh Hw Hh Hbw Hbh.
  exists (constrain_axis x w bx bw), (constrain_axis y h by_ bh).
  pose proof (constrainRect_axes x y w h bx by_ bw bh Hw Hh Hbw Hbh) as Heq.
  split; [exact Heq|].
  split; [apply constrain_axis_inside|].
  split; [apply constrain_axis_inside|].
  split; [apply constrain_axis_near|].
  split; [apply constrain_axis_near|].
  split; [apply constrain_axis_far|].
  split; [apply constrain_axis_far|].
  split; [apply constrain_axis_larger|].
  split; [apply constrain_axis_larger|].
  intros Hfw Hfh Hx Hy. rewrite Heq. unfold rect_within.
  destruct (rect_accessors bx by_ bw bh Hbw Hbh) as (-> & -> & -> & ->).
  destruct (rect_accessors (constrain_axis x w bx bw)
              (constrain_axis y h by_ bh) w h Hw Hh) as (-> & -> & -> & ->).
  cbn [JS.le].
  destruct (constrain_axis_fits x w bx bw Hfw) as [X1 X2].
  destruct (constrain_axis_fits y h by_ bh Hfh) as [Y1 Y2].
  apply Qle_bool_iff in X1, X2, Y1, Y2. rewrite X1, X2, Y1, Y2. reflexivity.
Qed.

Lemma C3_constrainRect_witness :
  exists x' y' : Q,
    constrainRect (rect_of (-10) 5 20 20) (rect_of 0 0 100 100) =
      rect_of x' y' 20 20 /\
    (x' = 0 /\ x' + 20 <= 0 + 100) /\
    y' = 5.
Proof.
  destruct C3_constrainRect as [_ H].
  destruct (H (-10) 5 20 20 0 0 100 100)
    as (x' & y' & Heq & _ & Hy & Hx & _);
    try discriminate.
  exists x', y'. split; [exact Heq|]. split.
  - apply Hx; [reflexivity | discriminate].
  - apply Hy; discriminate.
Defined.

(** The claim as written fails on a rectangle wider than the bounds: the
    result's origin is not the origin of the bounds. *)
Lemma C3_counterexample :
  let r := rect_of 0 0 300 10 in
  let bounds := rect_of 0 0 200 200 in
  CGPoint.x (CGRect.origin (constrainRect r bounds)) =n= JS.Finite (-100) /\
  ~ CGPoint.x (CGRect.origin (constrainRect r bounds))
      =n= CGPoint.x (CGRect.origin bounds).
Proof.
  cbv zeta. split.
  - vm_compute. reflexivity.
  - intros H. vm_compute in H. discriminate.
Qed.

End ConstrainRectClaim.

(* ===================================================================== *)
(** * SpringAnimation *)
(* ===================================================================== *)

Section Driver.
Import motion.

Lemma driver_stop_not_subscribed (id : nat) (d : CALayerDriver.t) :
  id ∉ CALayerDriver.tickers d -> CALayerDriver.driver_stop id d = d.
Proof.
  intros H. unfold CALayerDriver.driver_stop.
  destruct (decide _); [contradiction | reflexivity].
Qed.

Lemma driver_stop_unsubscribes (id : nat) (d : CALayerDriver.t) :
  id ∉ CALayerDriver.tickers (CALayerDriver.driver_stop id d).
Proof.
  unfold CALayerDriver.driver_stop.
  destruct (decide (id ∈ _)) as [Hin|Hout]; [|exact Hout].
  cbv zeta. cbn [CALayerDriver.tickers].
  destruct (decide _); unfold CALayerDriver.stop;
    try destruct (negb _); cbn [CALayerDriver.tickers];
    rewrite elem_of_difference, elem_of_singleton; tauto.
Qed.

Lemma driver_stop_idempotent (id : nat) (d : CALayerDriver.t) :
  CALayerDriver.driver_stop id (CALayerDriver.driver_stop id d) =
    CALayerDriver.driver_stop id d.
Proof.
  apply driver_stop_not_subscribed, driver_stop_unsubscribes.
Qed.

Lemma driver_start_subscribes (id : nat) (d : CALayerDriver.t) :
  id ∈ CALayerDriver.tickers (CALayerDriver.driver_start id d).
Proof.
  unfold CALayerDriver.driver_start. cbv zeta.
  destruct (decide _); unfold CALayerDriver.start;
    cbn [CALayerDriver.displayLink CALayerDriver.tickers];
    try destruct (CALayerDriver.displayLink d);
    cbn [CALayerDriver.tickers]; set_solver.
Qed.

End Driver.

Section Spring.
Import motion.

(** [stop()] is idempotent, on the instance and on the engine. *)
Lemma stop_idempotent (s : SpringAnimation.t) (e : Engine.t) :
  SpringAnimation.stop (SpringAnimation.stop s e).1
                       (SpringAnimation.stop s e).2 =
    SpringAnimation.stop s e.
Proof.
  destruct s as [an tr oc va tv ve [id|] sc pa];
    spring_unfold; [|reflexivity].
  rewrite driver_stop_idempotent. reflexivity.
Qed.

Lemma stop_fields (s : SpringAnimation.t) (e : Engine.t) :
  let s' := (SpringAnimation.stop s e).1 in
  SpringAnimation.animating s' = false /\
  SpringAnimation.targetValue s' = None /\
  SpringAnimation._value s' = SpringAnimation._value s /\
  SpringAnimation._velocity s' = SpringAnimation._velocity s /\
  SpringAnimation.stopFunction s' = SpringAnimation.stopFunction s /\
  SpringAnimation.scale s' = SpringAnimation.scale s /\
  SpringAnimation.externallySetVelocityTracker s' =
    SpringAnimation.externallySetVelocityTracker s.
Proof.
  destruct s as [an tr oc va tv ve [id|] sc pa];
    spring_unfold; auto 10.
Qed.

Lemma stop_unsubscribes (s : SpringAnimation.t) (e : Engine.t) (id : nat) :
  SpringAnimation.stopFunction s = Some id ->
  id ∉ CALayerDriver.tickers (Engine.driver (SpringAnimation.stop s e).2).
Proof.
  intros H. destruct s as [an tr oc va tv ve sf sc pa].
  cbn in H. subst sf. spring_unfold.
  apply driver_stop_unsubscribes.
Qed.

(** What [start(targetValue, velocity)] leaves in the instance, and the
    playback it creates. *)
Lemma start_fields (now : Q) (target v : JS.number)
    (s : SpringAnimation.t) (e : Engine.t) :
  let s' := (SpringAnimation.start now target v s e).1 in
  let e' := (SpringAnimation.start now target v s e).2 in
  let id := length (Engine.playbacks e) in
  SpringAnimation.animating s' = true /\
  SpringAnimation.targetValue s' = Some target /\
  SpringAnimation._velocity s' = Some v /\
  SpringAnimation._value s' = SpringAnimation._value s /\
  SpringAnimation.stopFunction s' = Some id /\
  SpringAnimation.scale s' = SpringAnimation.scale s /\
  id ∈ CALayerDriver.tickers (Engine.driver e') /\
  exists o : popmotion.AnimateOptions,
    Engine.playbacks e' !! id = Some o /\
    popmotion.from o = (SpringAnimation._value s * SpringAnimation.scale s)%js /\
    popmotion.to o = (target * SpringAnimation.scale s)%js /\
    popmotion.velocity o = (v * SpringAnimation.scale s)%js /\
    popmotion.restDelta o = SpringParams.epsilon (SpringAnimation.params s).
Proof.
  destruct s as [an tr oc va tv ve [old|] sc pa];
    spring_unfold;
    (repeat split; try reflexivity;
     [ apply driver_start_subscribes
     | eexists; split;
       [ rewrite list_lookup_middle by reflexivity; reflexivity
       | repeat split ] ]).
Qed.

End Spring.

Section SpringTicks.
Import motion.

Lemma playback_update_velocity (id : nat) (f : popmotion.Frame)
    (s : SpringAnimation.t) (e : Engine.t) :
  SpringAnimation._velocity (SpringAnimation.playback_update id f s e).1 =
    SpringAnimation._velocity s.
Proof.
  unfold SpringAnimation.playback_update.
  destruct s as [an tr [cb|] va tv ve [sf|] sc pa];
    destruct (decide _); destruct (popmotion.done f);
    spring_unfold; reflexivity.
Qed.

Lemma playback_update_running (id : nat) (f : popmotion.Frame)
    (s : SpringAnimation.t) (e : Engine.t) :
  popmotion.done f = false ->
  SpringAnimation.animating (SpringAnimation.playback_update id f s e).1 =
    SpringAnimation.animating s /\
  SpringAnimation.scale (SpringAnimation.playback_update id f s e).1 =
    SpringAnimation.scale s /\
  Engine.driver (SpringAnimation.playback_update id f s e).2 =
    Engine.driver e /\
  (id ∈ CALayerDriver.tickers (Engine.driver e) ->
   SpringAnimation._value (SpringAnimation.playback_update id f s e).1 =
     (popmotion.latest f / SpringAnimation.scale s)%js).
Proof.
  intros Hd. unfold SpringAnimation.playback_update. rewrite Hd.
  destruct s as [an tr [cb|] va tv ve [sf|] sc pa];
    destruct (decide _); spring_unfold; repeat split; tauto.
Qed.

Lemma run_frames_velocity (id : nat) (frames : list popmotion.Frame)
    (s : SpringAnimation.t) (e : Engine.t) :
  SpringAnimation._velocity (run_frames id frames s e).1 =
    SpringAnimation._velocity s.
Proof.
  unfold run_frames. revert s e.
  induction frames as [|f frames IH]; intros s e; [reflexivity|].
  cbn [fold_left fst snd].
  destruct (SpringAnimation.playback_update id f s e) as [s' e'] eqn:E.
  rewrite IH. change s' with (s', e').1. rewrite <- E.
  apply playback_update_velocity.
Qed.

(** Frames of a solver that has not come to rest leave the spring animating
    and the playback subscribed. *)
Lemma run_frames_running (id : nat) (frames : list popmotion.Frame)
    (s : SpringAnimation.t) (e : Engine.t) :
  Forall (fun f => popmotion.done f = false) frames ->
  SpringAnimation.animating (run_frames id frames s e).1 =
    SpringAnimation.animating s /\
  SpringAnimation.scale (run_frames id frames s e).1 =
    SpringAnimation.scale s /\
  Engine.driver (run_frames id frames s e).2 = Engine.driver e.
Proof.
  unfold run_frames. intros Hall. revert s e.
  induction Hall as [|f frames Hf _ IH]; intros s e; [auto|].
  cbn [fold_left fst snd].
  destruct (playback_update_running id f s e Hf) as (Ha & Hs & Hd & _).
  destruct (SpringAnimation.playback_update id f s e) as [s' e'].
  cbn [fst snd] in *.
  destruct (IH s' e') as (Ha' & Hs' & Hd').
  rewrite Ha', Hs', Hd'. auto.
Qed.

(** After such frames the value of the spring is the solver's latest value,
    in the units of the spring. *)
Lemma run_frames_value (id : nat) (frames : list popmotion.Frame)
    (f : popmotion.Frame) (s : SpringAnimation.t) (e : Engine.t) :
  Forall (fun f => popmotion.done f = false) (frames ++ [f]) ->
  id ∈ CALayerDriver.tickers (Engine.driver e) ->
  SpringAnimation._value (run_frames id (frames ++ [f]) s e).1 =
    (popmotion.latest f / SpringAnimation.scale s)%js.
Proof.
  intros Hall Hid. apply Forall_app in Hall as [Hall Hf].
  apply Forall_inv in Hf.
  destruct (run_frames_running id frames s e Hall) as (_ & Hs & Hd).
  unfold run_frames in *. rewrite fold_left_app. cbn [fold_left].
  destruct (fold_left _ frames (s, e)) as [s' e']. cbn [fst snd] in *.
  destruct (playback_update_running id f s' e' Hf) as (_ & _ & _ & Hv).
  rewrite Hv by (rewrite Hd; exact Hid). rewrite Hs. reflexivity.
Qed.

(** While a spring is animating, its [velocity] is the number stored by
    [start]. *)
Lemma velocity_animating (now : Q) (s : SpringAnimation.t) (v : JS.number) :
  SpringAnimation.animating s = true ->
  SpringAnimation._velocity s = Some v ->
  (SpringAnimation.velocity now s).1 = v.
Proof.
  intros Ha Hv. unfold SpringAnimation.velocity. rewrite Ha, Hv. reflexivity.
Qed.

(** While a spring is idle, its [velocity] is read from the tracker of the
    values set from outside. *)
Lemma velocity_idle (now : Q) (s : SpringAnimation.t) :
  SpringAnimation.animating s = false ->
  (SpringAnimation.velocity now s).1 =
    (VelocityTracker.velocity now
       (SpringAnimation.externallySetVelocityTracker s)).1.
Proof.
  intros Ha. unfold SpringAnimation.velocity. rewrite Ha.
  destruct (VelocityTracker.velocity now _). reflexivity.
Qed.

End SpringTicks.

Section SpringClaims.
Import motion.

(** C4 (as amended).  Whenever [animating] is false, [velocity] is the
    velocity of the tracker of externally set values.  Whenever [animating]
    is true, [velocity] is the initial velocity passed to the most recent
    [start]: solver ticks update the value only, so after [start(target, v)]
    and any run of solver frames the stored velocity is still [v], whatever
    rate the solver has reached, while the value follows the solver. *)
Theorem C4_spring_velocity :
  (forall (now : Q) (s : SpringAnimation.t),
     SpringAnimation.animating s = false ->
     (SpringAnimation.velocity now s).1 =
       (VelocityTracker.velocity now
          (SpringAnimation.externallySetVelocityTracker s)).1)
  /\
  (forall (now now' : Q) (target v : JS.number) (s : SpringAnimation.t)
          (e : Engine.t) (frames : list popmotion.Frame),
     let started := SpringAnimation.start now target v s e in
     let id := length (Engine.playbacks e) in
     let s' := (run_frames id frames started.1 started.2).1 in
     SpringAnimation.stopFunction started.1 = Some id /\
     SpringAnimation._velocity s' = Some v /\
     (SpringAnimation.animating s' = true ->
      (SpringAnimation.velocity now' s').1 = v) /\
     (Forall (fun f => popmotion.done f = false) frames ->
      SpringAnimation.animating s' = true /\
      (SpringAnimation.velocity now' s').1 = v /\
      forall f, last frames = Some f ->
        SpringAnimation.value s' =
          (popmotion.latest f / SpringAnimation.scale s)%js)).
Proof.
  split; [exact velocity_idle|].
  intros now now' target v s e frames started id s'.
  destruct (start_fields now target v s e)
    as (Ha & _ & Hv & _ & Hsf & Hsc & Hid & _).
  fold started in Ha, Hv, Hsf, Hsc, Hid. fold id in Hsf, Hid.
  assert (Hv' : SpringAnimation._velocity s' = Some v).
  { unfold s'. rewrite run_frames_velocity. exact Hv. }
  split; [exact Hsf|]. split; [exact Hv'|]. split.
  - intros Ha'. apply velocity_animating; assumption.
  - intros Hall.
    assert (Ha' : SpringAnimation.animating s' = true).
    { unfold s'.
      destruct (run_frames_running id frames started.1 started.2 Hall)
        as (-> & _). exact Ha. }
    split; [exact Ha'|]. split; [apply velocity_animating; assumption|].
    intros f Hlast. apply last_Some in Hlast as [frames' ->].
    unfold s', SpringAnimation.value.
    rewrite run_frames_value by assumption. rewrite Hsc. reflexivity.
Qed.

Lemma C4_spring_velocity_witness :
  (SpringAnimation.velocity 1 (squish_spring 0)).1 =
    (VelocityTracker.velocity 1
       (SpringAnimation.externallySetVelocityTracker (squish_spring 0))).1
  /\
  (let started :=
     SpringAnimation.start 1 (8 # 10)%Q (-5)%Q (squish_spring 0)
       Engine.initial in
   let s' :=
     (run_frames 0 [popmotion.mkFrame 900%Q (-3000)%Q false]
        started.1 started.2).1 in
   SpringAnimation.animating s' = true /\
   (SpringAnimation.velocity 2 s').1 = JS.Finite (-5) /\
   SpringAnimation.value s' = (JS.Finite 900 / JS.Finite 1000)%js).
Proof.
  destruct C4_spring_velocity as [Hidle Hrun]. split.
  - apply Hidle. reflexivity.
  - destruct (Hrun 1%Q 2%Q (JS.Finite (8 # 10)) (JS.Finite (-5))
                (squish_spring 0) Engine.initial
                [popmotion.mkFrame 900%Q (-3000)%Q false])
      as (_ & _ & _ & Hall).
    destruct Hall as (Ha & Hv & Hval); [repeat constructor|].
    split; [exact Ha|]. split; [exact Hv|].
    apply (Hval (popmotion.mkFrame 900%Q (-3000)%Q false)). reflexivity.
Defined.

(** The claim as written fails: a squish spring started with velocity [-5]
    and ticked once by a solver whose current rate is [-3000] in solver
    units ([-3] in the units of the value) has taken the solver's value,
    [900 / 1000], and still reports [-5]. *)
Lemma C4_counterexample :
  let started :=
    SpringAnimation.start 1 (8 # 10)%Q (-5)%Q (squish_spring 0)
      Engine.initial in
  let frame := popmotion.mkFrame 900%Q (-3000)%Q false in
  let s' := (run_frames 0 [frame] started.1 started.2).1 in
  SpringAnimation.animating s' = true /\
  SpringAnimation.value s' =n= JS.Finite (9 # 10) /\
  (SpringAnimation.velocity 2 s').1 = JS.Finite (-5) /\
  ~ (SpringAnimation.velocity 2 s').1 =n= popmotion.rate frame /\
  ~ (SpringAnimation.velocity 2 s').1
      =n= (popmotion.rate frame / SpringAnimation.scale s')%js.
Proof.
  cbv zeta. split; [reflexivity|]. split; [vm_compute; reflexivity|].
  split; [reflexivity|].
  split; intros H; vm_compute in H; discriminate.
Qed.

(** C8.  [start(target, v)] followed at once by [stop()] leaves [value] as
    it was, [animating] false and [targetValue] cleared, and the playback
    [start] created is no longer subscribed to the driver; [stop()] is
    idempotent, on any instance. *)
Theorem C8_start_then_stop (now : Q) (target v : JS.number)
    (s : SpringAnimation.t) (e : Engine.t) :
  let started := SpringAnimation.start now target v s e in
  let stopped := SpringAnimation.stop started.1 started.2 in
  SpringAnimation.value stopped.1 = SpringAnimation.value s /\
  SpringAnimation.animating stopped.1 = false /\
  SpringAnimation.targetValue stopped.1 = None /\
  (length (Engine.playbacks e)
     ∉ CALayerDriver.tickers (Engine.driver stopped.2)) /\
  SpringAnimation.stop stopped.1 stopped.2 = stopped /\
  SpringAnimation.stop (SpringAnimation.stop s e).1
                       (SpringAnimation.stop s e).2 =
    SpringAnimation.stop s e.
Proof.
  intros started stopped.
  destruct (start_fields now target v s e) as (_ & _ & _ & Hval & Hsf & _).
  destruct (stop_fields started.1 started.2) as (Ha & Ht & Hv & _).
  fold stopped in Ha, Ht, Hv.
  repeat split.
  - unfold SpringAnimation.value. rewrite Hv. exact Hval.
  - exact Ha.
  - exact Ht.
  - apply stop_unsubscribes. exact Hsf.
  - unfold stopped. rewrite stop_idempotent. 
    destruct (SpringAnimation.stop started.1 started.2); reflexivity.
  - rewrite stop_idempotent.
    destruct (SpringAnimation.stop s e); reflexivity.
Qed.

Example start_then_stop_squish :
  let started :=
    SpringAnimation.start 1 (8 # 10)%Q (-5)%Q (squish_spring 0)
      Engine.initial in
  SpringAnimation.animating started.1 = true /\
  CALayerDriver.tickers (Engine.driver started.2) = {[ 0%nat ]} /\
  CALayerDriver.displayLink (Engine.driver started.2) = true /\
  (SpringAnimation.stop started.1 started.2).2 =
    Engine.mk CALayerDriver.instance (Engine.playbacks started.2) [].
Proof. vm_compute. repeat split. Qed.

End SpringClaims.

(* ===================================================================== *)
(** * Ball.didCollide *)
(* ===================================================================== *)

Section DidCollide.
Local Open Scope Q_scope.
Import motion.



Example squish_target_0 : remap 0 0 1 1 (8 # 10) true =n= JS.Finite 1.
Proof. vm_compute. reflexivity. Qed.

Example squish_target_1 : remap 1 0 1 1 (8 # 10) true =n= JS.Finite (8 # 10).
Proof. vm_compute. reflexivity. Qed.

Example squish_velocity_0 : remap 0 0 1 (-5) (-10) true =n= JS.Finite (-5).
Proof. vm_compute. reflexivity. Qed.

Example squish_velocity_1 : remap 1 0 1 (-5) (-10) true =n= JS.Finite (-10).
Proof. vm_compute. reflexivity. Qed.

End DidCollide.

Section DidCollideClaim.
Local Open Scope Q_scope.
Import motion.

Variable Math_atan2 : JS.number -> JS.number -> JS.number.


End DidCollideClaim.


(* ===================================================================== *)
(** * ViewController: the ball it holds *)
(* ===================================================================== *)

Section BallSetter.
Import view_controller.

(** [ball.destroy()] on an allocated object: the object loses its body and
    leaves the scene; nothing else changes. *)
Lemma destroy_spec (old : nat) (c : ViewController.t) (w : World.t) :
  (old < length (World.balls w))%nat ->
  let c' := (ViewController.destroy old c w).1 in
  let w' := (ViewController.destroy old c w).2 in
  ViewController.scene c' =
    filter (fun n => n ≠ old) (ViewController.scene c) /\
  ViewController._ball c' = ViewController._ball c /\
  ViewController.physicsQueue c' = ViewController.physicsQueue c /\
  ViewController.sounds c' = ViewController.sounds c /\
  ViewController.screen c' = ViewController.screen c /\
  length (World.balls w') = length (World.balls w) /\
  body_of old w' = None /\
  (forall r, r ≠ old -> World.balls w' !! r = World.balls w !! r) /\
  World.engine w' = World.engine w /\
  World.timers w' = World.timers w /\
  World.mainQueue w' = World.mainQueue w /\
  World.invoked w' = World.invoked w.
Proof.
  intros Hlt. unfold ViewController.destroy.
  destruct (lookup_lt_is_Some_2 _ _ Hlt) as [b Hb]. rewrite Hb.
  unfold Ball.destroy, body_of. vc_unfold.
  repeat split; try reflexivity.
  - apply length_insert.
  - rewrite list_lookup_insert_eq by exact Hlt. reflexivity.
  - intros r Hr. apply list_lookup_insert_ne. congruence.
Qed.

(** What an assignment to [ball] does, when the ball held so far and the
    one assigned are allocated objects. *)
Lemma set_ball_spec (value : option nat) (c : ViewController.t)
    (w : World.t) :
  (forall b, ViewController._ball c = Some b ->
             (b < length (World.balls w))%nat) ->
  let c' := (ViewController.set_ball value c w).1 in
  let w' := (ViewController.set_ball value c w).2 in
  ViewController._ball c' = value /\
  ViewController.scene c' =
    match ViewController._ball c with
    | Some old => filter (fun n => n ≠ old) (ViewController.scene c)
    | None => ViewController.scene c
    end ++ option_list value /\
  ViewController.physicsQueue c' = ViewController.physicsQueue c /\
  ViewController.sounds c' = ViewController.sounds c /\
  ViewController.screen c' = ViewController.screen c /\
  length (World.balls w') = length (World.balls w) /\
  (forall old, ViewController._ball c = Some old ->
     body_of old w' = None /\
     forall r, r ≠ old -> World.balls w' !! r = World.balls w !! r) /\
  (ViewController._ball c = None -> w' = w) /\
  World.engine w' = World.engine w /\
  World.timers w' = World.timers w /\
  World.mainQueue w' = World.mainQueue w /\
  World.invoked w' = World.invoked w.
Proof.
  intros Halloc. unfold ViewController.set_ball, ViewController.ball.
  destruct (ViewController._ball c) as [old|] eqn:Hold.
  - destruct (destroy_spec old c w (Halloc old eq_refl))
      as (D1 & D2 & D3 & D4 & D5 & D6 & D7 & D8 & D9 & D10 & D11 & D12).
    destruct (ViewController.destroy old c w) as [c1 w1].
    cbn [fst snd] in *.
    destruct value as [v|]; vc_unfold;
      repeat split; try assumption; try reflexivity; try discriminate;
      try (rewrite D1; cbn [option_list]; rewrite ?app_nil_r; reflexivity);
      match goal with
      | H : Some _ = Some _ |- _ => injection H as <-; assumption
      end.
  - destruct value as [v|]; vc_unfold;
      repeat split; try reflexivity; try discriminate;
      try (rewrite app_nil_r; reflexivity).
Qed.

Lemma consistent_set_ball (value : option nat) (cfg : Config) :
  consistent cfg ->
  (forall v, value = Some v -> (v < length (World.balls cfg.2))%nat) ->
  consistent (ViewController.set_ball value cfg.1 cfg.2) /\
  ViewController.scene (ViewController.set_ball value cfg.1 cfg.2).1 =
    option_list value.
Proof.
  destruct cfg as [c w]. intros [Halloc Hscene] Hval. cbn [fst snd] in *.
  destruct (set_ball_spec value c w Halloc)
    as (S1 & S2 & _ & _ & _ & S6 & _).
  assert (Hs : ViewController.scene (ViewController.set_ball value c w).1 =
               option_list value).
  { rewrite S2, Hscene.
    destruct (ViewController._ball c) as [old|]; cbn [option_list];
      [|reflexivity].
    change (option_list (Some old)) with [old].
    rewrite filter_cons_False by (intros H; apply H; reflexivity).
    reflexivity. }
  split; [|exact Hs].
  split.
  - intros b Hb. rewrite S1 in Hb. rewrite S6. apply Hval. exact Hb.
  - rewrite Hs, S1. reflexivity.
Qed.

End BallSetter.

Section Launch.
Import view_controller.

Lemma create_fields (now : Q) (radius : JS.number) (pos : CGPoint.t)
    (e : motion.Engine.t) :
  let b := (Ball.create now radius pos e).1 in
  Ball.radius b = radius /\
  Ball.position b = pos /\
  Ball.actions b = [] /\
  exists p : SKPhysicsBody.t,
    Ball.physicsBody b = Some p /\
    SKPhysicsBody.impulses p = [] /\
    SKPhysicsBody.isDynamic p = true.
Proof.
  unfold Ball.create, Ball.new_. cbv zeta.
  destruct (motion.SpringAnimation.new_ now _ _ _ e) as [d e1].
  destruct (motion.SpringAnimation.new_ now _ _ _ e1) as [s e2].
  cbn. repeat split. eexists. repeat split.
Qed.

(** What [launch(rect)] does on a controller with a screen. *)
Lemma launch_spec (now : Q) (rect frame : CGRect.t)
    (c : ViewController.t) (w : World.t) :
  ViewController.screen c = Some frame ->
  (forall b, ViewController._ball c = Some b ->
             (b < length (World.balls w))%nat) ->
  let ball := length (World.balls w) in
  let c' := (ViewController.launch now rect c w).1 in
  let w' := (ViewController.launch now rect c w).2 in
  ViewController._ball c' = Some ball /\
  ViewController.scene c' =
    match ViewController._ball c with
    | Some old => filter (fun n => n ≠ old) (ViewController.scene c)
    | None => ViewController.scene c
    end ++ [ball] /\
  ViewController.physicsQueue c' =
    ViewController.physicsQueue c
      ++ [ApplyImpulse ball (launch_impulse rect frame)] /\
  ViewController.sounds c' = ViewController.sounds c /\
  ViewController.screen c' = ViewController.screen c /\
  length (World.balls w') = S (length (World.balls w)) /\
  World.invoked w' = World.invoked w /\
  World.mainQueue w' = World.mainQueue w /\
  exists (b : Ball.t) (p : SKPhysicsBody.t),
    World.balls w' !! ball = Some b /\
    Ball.physicsBody b = Some p /\
    SKPhysicsBody.impulses p = [] /\
    Ball.radius b = RADIUS /\
    Ball.position b =
      CGPoint.mk (CGRectGetMidX rect) (CGRectGetMidY rect) /\
    Ball.nodeScale b =
      (CGSize.width (CGRect.size rect) / (RADIUS * 2%Q))%js /\
    Ball.actions b = [(scaleToDuration 1%Q (5 # 10)%Q, None)].
Proof.
  intros Hscreen Halloc ball c' w'.
  unfold c', w', ViewController.launch. rewrite Hscreen. clear c' w'.
  pose proof (create_fields now RADIUS
                (CGPoint.mk (CGRectGetMidX rect) (CGRectGetMidY rect))
                (World.engine w)) as Hcreate.
  destruct (Ball.create now RADIUS _ (World.engine w)) as [b e].
  cbn [fst] in Hcreate. cbv zeta in Hcreate.
  destruct Hcreate as (Hr & Hp & Hacts & p & Hbody & Himp & _).
  unfold World.alloc.
  set (w1 := World.set_balls (World.balls (World.set_engine e w) ++ [b])
               (World.set_engine e w)).
  assert (Hlen1 : length (World.balls w1) = S (length (World.balls w))).
  { unfold w1. vc_unfold. rewrite length_app. cbn. lia. }
  assert (Hb1 : World.balls w1 !! ball = Some b).
  { unfold w1, ball. vc_unfold. apply list_lookup_middle. reflexivity. }
  assert (Halloc1 : forall o, ViewController._ball c = Some o ->
                              (o < length (World.balls w1))%nat).
  { intros o Ho. rewrite Hlen1. specialize (Halloc o Ho). lia. }
  destruct (set_ball_spec (Some ball) c w1 Halloc1)
    as (S1 & S2 & S3 & S4 & S5 & S6 & S7 & S8 & _ & _ & S11 & S12).
  change (length (World.balls (World.set_engine e w))) with ball.
  destruct (ViewController.set_ball (Some ball) c w1) as [c2 w2].
  cbn [fst snd] in *.
  assert (Hb2 : World.balls w2 !! ball = Some b).
  { destruct (ViewController._ball c) as [old|] eqn:Hold.
    - destruct (S7 old eq_refl) as [_ Hother].
      rewrite Hother; [exact Hb1|].
      specialize (Halloc old eq_refl). unfold ball. lia.
    - rewrite (S8 eq_refl). exact Hb1. }
  assert (Hrad : ViewController.radius_of ball w2 = RADIUS).
  { unfold ViewController.radius_of. rewrite Hb2. exact Hr. }
  rewrite Hrad. vc_unfold.
  repeat split.
  - exact S1.
  - exact S2.
  - rewrite S3. f_equal. f_equal. f_equal.
    unfold launch_impulse. cbv zeta.
    repeat match goal with
           | |- context [if ?t then _ else _] => destruct t
           end; reflexivity.
  - exact S4.
  - rewrite S5. exact Hscreen.
  - rewrite !length_alter, S6. exact Hlen1.
  - exact S12.
  - exact S11.
  - exists (Ball.runAction (scaleToDuration 1%Q (5 # 10)%Q) None
              (Ball.setScale
                 (CGSize.width (CGRect.size rect) / (RADIUS * 2%Q))%js b)),
           p.
    rewrite !list_lookup_alter_eq, Hb2.
    destruct b; cbn in *. subst. repeat split. exact Himp.
Qed.

End Launch.

Section Consistency.
Import view_controller.

Lemma consistent_same (c c' : ViewController.t) (w w' : World.t) :
  ViewController._ball c' = ViewController._ball c ->
  ViewController.scene c' = ViewController.scene c ->
  (length (World.balls w) <= length (World.balls w'))%nat ->
  consistent (c, w) -> consistent (c', w').
Proof.
  intros Hb Hs Hl [Halloc Hscene]. cbn [fst snd] in *. split; cbn [fst snd].
  - intros b Hb'. rewrite Hb in Hb'. specialize (Halloc b Hb'). lia.
  - rewrite Hs, Hb. exact Hscene.
Qed.

Lemma run_callback_length (cb : PhysicsCallback) (w w' : World.t) :
  ViewController.run_callback cb w = Some w' ->
  length (World.balls w') = length (World.balls w).
Proof.
  destruct cb as [ball impulse]. unfold ViewController.run_callback.
  destruct (World.balls w !! ball) as [b|]; [|discriminate].
  cbn [mbind option_bind].
  destruct (Ball.physicsBody b) as [p|]; [|discriminate].
  cbn [mbind option_bind]. intros [= <-]. vc_unfold. apply length_alter.
Qed.

Lemma run_queue_length (queue : list PhysicsCallback) (w w' : World.t) :
  ViewController.run_queue queue w = ViewController.Returned w' \/
  ViewController.run_queue queue w = ViewController.Threw w' ->
  length (World.balls w') = length (World.balls w).
Proof.
  revert w. induction queue as [|cb queue IH]; intros w; cbn.
  - intros [[= <-]|[=]]. reflexivity.
  - destruct (ViewController.run_callback cb w) as [w1|] eqn:E.
    + intros H. rewrite (IH w1 H). eapply run_callback_length. exact E.
    + intros [[=]|[= <-]]. reflexivity.
Qed.

Lemma dock_spec (rect : CGRect.t) (onComplete : Callback)
    (c : ViewController.t) (w : World.t) :
  let c' := (ViewController.dock rect onComplete c w).1 in
  let w' := (ViewController.dock rect onComplete c w).2 in
  c' = c /\
  length (World.balls w') = length (World.balls w) /\
  (ViewController._ball c = None -> w' = World.invoke onComplete w).
Proof.
  unfold ViewController.dock, ViewController.ball.
  destruct (ViewController._ball c) as [ball|]; cbn [fst snd].
  - vc_unfold. rewrite !length_alter. repeat split. discriminate.
  - repeat split.
Qed.

(** Every step keeps the controller consistent with the store. *)
Lemma step_consistent (cfg cfg' : Config) :
  step cfg cfg' -> consistent cfg -> consistent cfg'.
Proof.
  intros Hstep Hc. destruct Hstep.
  - (* launch *)
    destruct (ViewController.screen c) as [frame|] eqn:Hscreen.
    + destruct Hc as [Halloc Hscene]. cbn [fst snd] in *.
      destruct (launch_spec now rect frame c w Hscreen Halloc)
        as (L1 & L2 & _ & _ & _ & L6 & _).
      destruct (ViewController.launch now rect c w) as [c' w'].
      cbn [fst snd] in *. split; cbn [fst snd].
      * intros b Hb. rewrite L1 in Hb. injection Hb as <-. lia.
      * rewrite L2, L1, Hscene.
        destruct (ViewController._ball c) as [old|]; [|reflexivity].
        change (option_list (Some old)) with [old].
        rewrite filter_cons_False by (intros H; apply H; reflexivity).
        reflexivity.
    + unfold ViewController.launch. rewrite Hscreen. exact Hc.
  - (* dock *)
    destruct (dock_spec rect onComplete c w) as (D1 & D2 & _).
    destruct (ViewController.dock rect onComplete c w) as [c' w'].
    cbn [fst snd] in *. subst c'.
    eapply consistent_same; [reflexivity | reflexivity | | exact Hc].
    cbn [snd]. lia.
  - (* an action completes *)
    destruct k as [onComplete]. unfold ViewController.run_completion.
    destruct (consistent_set_ball None (c, w) Hc) as [Hc' _];
      [discriminate|].
    cbn [fst snd] in Hc'.
    destruct (ViewController.set_ball None c w) as [c' w'].
    eapply consistent_same; [reflexivity | reflexivity | | exact Hc'].
    vc_unfold. lia.
  - (* the physics step returns *)
    unfold ViewController.didSimulatePhysicsForScene in H.
    injection H as <- Hq.
    eapply consistent_same; [reflexivity | reflexivity | | exact Hc].
    rewrite (run_queue_length (ViewController.physicsQueue c) w w');
      [cbn [snd]; lia | left; exact Hq].
  - (* the physics step throws *)
    unfold ViewController.didSimulatePhysicsForScene in H.
    injection H as <- Hq.
    eapply consistent_same; [reflexivity | reflexivity | | exact Hc].
    rewrite (run_queue_length (ViewController.physicsQueue c) w w');
      [cbn [snd]; lia | right; exact Hq].
  - (* contact *)
    eapply consistent_same; [reflexivity | reflexivity | | exact Hc].
    unfold ViewController.didBeginContact.
    destruct (_ <=? _)%js; vc_unfold; cbn [snd]; lia.
  - (* a block of the main queue *)
    eapply consistent_same; [ | | reflexivity | exact Hc];
      destruct o as [s]; unfold ViewController.run_operation;
      destruct (decide _); try reflexivity;
      destruct (_ !! _) as [[i p]|]; reflexivity.
  - (* assignment *)
    apply (consistent_set_ball value (c, w) Hc). exact H.
Qed.


End Consistency.

Section ControllerClaims.
Local Open Scope Q_scope.
Import view_controller.






Example launch_near_bottom :
  let c := ViewController.initial (Some (rect_of 0 0 1440 900)) in
  ViewController.physicsQueue
    (ViewController.launch 0 (rect_of 700 10 50 50) c World.initial).1 =
    [ApplyImpulse 0%nat (CGVector.mk 0 2000)].
Proof. reflexivity. Qed.

Example launch_bottom_left_corner :
  let c := ViewController.initial (Some (rect_of 0 0 1440 900)) in
  ViewController.physicsQueue
    (ViewController.launch 0 (rect_of 10 10 50 50) c World.initial).1 =
    [ApplyImpulse 0%nat (CGVector.mk 2000 2000)].
Proof. reflexivity. Qed.

Example launch_middle :
  let c := ViewController.initial (Some (rect_of 0 0 1440 900)) in
  ViewController.physicsQueue
    (ViewController.launch 0 (rect_of 700 400 50 50) c World.initial).1 =
    [ApplyImpulse 0%nat (CGVector.mk 0 0)].
Proof. reflexivity. Qed.

(** C7.  [dock(rect, cb)] on a controller that holds no ball calls [cb]
    once, at once, and changes nothing else: the controller is as it was, no
    object is created, and the store differs only by that one call. *)
Theorem C7_dock_without_ball (rect : CGRect.t) (cb : Callback)
    (c : ViewController.t) (w : World.t) :
  ViewController.ball c = None ->
  ViewController.dock rect cb c w = (c, World.invoke cb w) /\
  World.invoked (ViewController.dock rect cb c w).2 =
    World.invoked w ++ [cb] /\
  World.balls (ViewController.dock rect cb c w).2 = World.balls w /\
  World.engine (ViewController.dock rect cb c w).2 = World.engine w /\
  World.timers (ViewController.dock rect cb c w).2 = World.timers w /\
  World.mainQueue (ViewController.dock rect cb c w).2 = World.mainQueue w.
Proof.
  intros Hnone. unfold ViewController.dock. rewrite Hnone.
  repeat split.
Qed.

Lemma C7_dock_without_ball_witness :
  ViewController.dock (rect_of 700 10 50 50) 7%nat
    (ViewController.initial None) World.initial =
    (ViewController.initial None, World.invoke 7%nat World.initial).
Proof.
  apply (C7_dock_without_ball (rect_of 700 10 50 50) 7%nat
           (ViewController.initial None) World.initial).
  reflexivity.
Defined.



End ControllerClaims.

(* ===================================================================== *)
(** * Further properties of util.ts *)
(* ===================================================================== *)

#[local] Set Warnings "-clear-no-such-hyp".

Section RemapMore.
Local Open Scope Q_scope.

(** The unclamped result of [remap] on finite numbers, the domain not
    empty. *)
Lemma remap_linear (x ds de rs re : Q) :
  ~ ds == de ->
  remap x ds de rs re false =
    JS.Finite (rs + (x - ds) / (de - ds) * (re - rs)).
Proof.
  intros Hd. unfold remap. js_arith.
  rewrite div_finite by lra. reflexivity.
Qed.

Lemma remap_clamped_spec (x ds de rs re : Q) :
  ~ ds == de ->
  let linear := rs + (x - ds) / (de - ds) * (re - rs) in
  exists q : Q,
    remap x ds de rs re true = JS.Finite q /\
    (rs <= re -> rs <= q <= re) /\
    (re <= rs -> re <= q <= rs) /\
    (rs <= linear <= re \/ re <= linear <= rs -> q = linear) /\
    (rs <= re -> linear <= rs -> q == rs) /\
    (rs <= re -> re <= linear -> q == re) /\
    (re <= rs -> linear <= re -> q == re) /\
    (re <= rs -> rs <= linear -> q == rs) /\
    remap x ds de rs re false = JS.Finite linear.
Proof.
  intros Hd linear.
  pose proof (remap_linear x ds de rs re Hd) as Hlin. fold linear in Hlin.
  unfold remap in *. cbv zeta in *. rewrite Hlin. clear Hlin.
  generalize linear. clear linear. intros r. js_arith.
  destruct (JS.Qltb rs re) eqn:E0;
    [apply Qltb_true in E0 | apply Qltb_false in E0];
    js_arith;
    repeat (qcase; js_arith);
    eexists; (split; [reflexivity|]);
    repeat split; intros; try lra;
    try (exfalso; lra);
    try reflexivity.
Qed.

(** The linear result is [NaN] as soon as an end of the range is. *)
Lemma remap_range_numbers (x ds de rs re : JS.number) :
  JS.is_nan (remap x ds de rs re false) = false ->
  JS.is_nan rs = false /\ JS.is_nan re = false.
Proof.
  unfold remap. cbv zeta.
  generalize ((x - ds) / (de - ds))%js. intros v.
  destruct v, rs, re; cbn; try discriminate; auto.
Qed.

(** Clamping a number between two numbers. *)
Lemma clamp_between (r rs re : JS.number) :
  JS.is_nan r = false -> JS.is_nan rs = false -> JS.is_nan re = false ->
  let clamped :=
    if (rs <? re)%js then JS.min (JS.max r rs) re
    else JS.min (JS.max r re) rs in
  (JS.min rs re <=? clamped)%js = true /\
  (clamped <=? JS.max rs re)%js = true /\
  ((JS.min rs re <=? r)%js = true -> (r <=? JS.max rs re)%js = true ->
   clamped =n= r) /\
  ((r <? JS.min rs re)%js = true -> clamped =n= JS.min rs re) /\
  ((JS.max rs re <? r)%js = true -> clamped =n= JS.max rs re).
Proof.
  intros Hr Hs He.
  destruct r as [r| | |], rs as [rs| | |], re as [re| | |];
    try discriminate; cbv zeta; js_arith;
    repeat (qcase; js_arith);
    repeat split; intros; js_arith;
    try reflexivity; try discriminate; try lra;
    repeat (qcase; js_arith);
    try reflexivity; try discriminate; try lra; exfalso; lra.
Qed.

(** X1.  Clamped [remap] stays within the range on all numbers, the
    infinities included: whenever the linear result
    [rangeStart + (x - domainStart) / domain * range] is a number and not
    [NaN], the clamped answer lies between the smaller and the larger end of
    the range, whichever way round the range is given; it is the linear
    result itself when that lies between the ends, and otherwise the end
    the linear result lies beyond. *)
Theorem X1_remap_clamped (x ds de rs re : JS.number) :
  let linear := remap x ds de rs re false in
  let clamped := remap x ds de rs re true in
  JS.is_nan linear = false ->
  (JS.min rs re <=? clamped)%js = true /\
  (clamped <=? JS.max rs re)%js = true /\
  ((JS.min rs re <=? linear)%js = true ->
   (linear <=? JS.max rs re)%js = true -> clamped =n= linear) /\
  ((linear <? JS.min rs re)%js = true -> clamped =n= JS.min rs re) /\
  ((JS.max rs re <? linear)%js = true -> clamped =n= JS.max rs re).
Proof.
  intros linear clamped Hlin.
  destruct (remap_range_numbers x ds de rs re Hlin) as [Hs He].
  exact (clamp_between linear rs re Hlin Hs He).
Qed.

Lemma X1_remap_clamped_witness :
  (JS.Finite 0 <=? remap 300 0 200 1 0 true)%js = true /\
  (remap 300 0 200 1 0 true <=? JS.Finite 1)%js = true /\
  remap JS.PosInfinity 0 200 1 0 true =n= JS.Finite 0.
Proof.
  destruct (X1_remap_clamped 300%Q 0%Q 200%Q 1%Q 0%Q) as (H1 & H2 & _);
    [reflexivity|].
  destruct (X1_remap_clamped JS.PosInfinity 0%Q 200%Q 1%Q 0%Q)
    as (_ & _ & _ & H3 & _); [reflexivity|].
  split; [exact H1|]. split; [exact H2|].
  apply H3. reflexivity.
Defined.

(** X2.  With an empty domain ([domainStart = domainEnd]) the division is
    by zero and clamped [remap] degenerates: it answers [NaN] at the domain
    point itself, and also everywhere when the two ends of the range are
    equal; otherwise, for a domain point other than zero, so that the
    divisor [d - d] is the positive zero, it steps from [rangeStart] below
    the point to [rangeEnd] above it. *)
Theorem X2_remap_empty_domain (x d rs re : Q) :
  (x == d -> remap x d d rs re true = JS.NaN) /\
  (~ d == 0 -> ~ rs == re -> d < x ->
   remap x d d rs re true = JS.Finite re) /\
  (~ d == 0 -> ~ rs == re -> x < d ->
   remap x d d rs re true = JS.Finite rs) /\
  (rs == re -> remap x d d rs re true = JS.NaN).
Proof.
  assert (Hz : Qeq_bool (d - d) 0 = true) by (apply Qeq_bool_iff; lra).
  unfold remap. js_arith. unfold JS.div.
  fold (Qminus d d). rewrite Hz.
  repeat split.
  - intros Hx.
    assert (E : Qeq_bool (x - d) 0 = true) by (apply Qeq_bool_iff; lra).
    fold (Qminus x d). rewrite E. cbn. destruct (JS.Qltb rs re); reflexivity.
  - intros _ Hr Hx.
    assert (E : Qeq_bool (x - d) 0 = false) by (apply Qeq_bool_false; lra).
    assert (E' : JS.Qltb 0 (x - d) = true) by (apply Qltb_true; lra).
    fold (Qminus x d). rewrite E, E'. cbn [JS.signed_inf JS.mul].
    unfold JS.scale_inf. fold (Qminus re rs).
    assert (E2 : Qeq_bool (re - rs) 0 = false) by (apply Qeq_bool_false; lra).
    rewrite E2.
    destruct (JS.Qltb 0 (re - rs)) eqn:E3;
      [apply Qltb_true in E3 | apply Qltb_false in E3];
      cbn [JS.signed_inf negb JS.add];
      destruct (JS.Qltb rs re) eqn:E4;
      try (apply Qltb_true in E4); try (apply Qltb_false in E4);
      try (exfalso; lra);
      js_arith; repeat (qcase; js_arith); try reflexivity; exfalso; lra.
  - intros _ Hr Hx.
    assert (E : Qeq_bool (x - d) 0 = false) by (apply Qeq_bool_false; lra).
    assert (E' : JS.Qltb 0 (x - d) = false) by (apply Qltb_false; lra).
    fold (Qminus x d). rewrite E, E'. cbn [JS.signed_inf JS.mul].
    unfold JS.scale_inf. fold (Qminus re rs).
    assert (E2 : Qeq_bool (re - rs) 0 = false) by (apply Qeq_bool_false; lra).
    rewrite E2.
    destruct (JS.Qltb 0 (re - rs)) eqn:E3;
      [apply Qltb_true in E3 | apply Qltb_false in E3];
      cbn [JS.signed_inf negb JS.add];
      destruct (JS.Qltb rs re) eqn:E4;
      try (apply Qltb_true in E4); try (apply Qltb_false in E4);
      try (exfalso; lra);
      js_arith; repeat (qcase; js_arith); try reflexivity; exfalso; lra.
  - intros Hr.
    assert (E2 : Qeq_bool (re - rs) 0 = true) by (apply Qeq_bool_iff; lra).
    assert (E4 : JS.Qltb rs re = false) by (apply Qltb_false; lra).
    rewrite E4. fold (Qminus x d) (Qminus re rs).
    destruct (Qeq_bool (x - d) 0); [reflexivity|].
    destruct (JS.Qltb 0 (x - d)); cbn [JS.signed_inf JS.mul];
      unfold JS.scale_inf; rewrite E2; reflexivity.
Qed.

Lemma X2_remap_empty_domain_witness :
  remap 5 5 5 0 1 true = JS.NaN /\
  remap 7 5 5 0 1 true = JS.Finite 1 /\
  remap 3 5 5 0 1 true = JS.Finite 0.
Proof.
  split; [|split].
  - destruct (X2_remap_empty_domain 5 5 0 1) as (H & _). apply H.
    reflexivity.
  - destruct (X2_remap_empty_domain 7 5 0 1) as (_ & H & _).
    apply H; [discriminate | discriminate | reflexivity].
  - destruct (X2_remap_empty_domain 3 5 0 1) as (_ & _ & H & _).
    apply H; [discriminate | discriminate | reflexivity].
Defined.

End RemapMore.

Section ConstrainRectMore.
Local Open Scope Q_scope.

(** X3.  A rectangle that needs no move at its far edges is settled by one
    call.  On rectangles of finite coordinates and non-negative extent that
    fit the bounds and whose far edges do not stick out, [constrainRect]
    moves nothing but a near edge that sticks out, onto the near edge of
    the bounds, and a second call changes nothing; a rectangle already
    within the bounds is returned as it is. *)
Theorem X3_constrainRect_idempotent (x y w h bx by_ bw bh : Q) :
  0 <= w -> 0 <= h -> 0 <= bw -> 0 <= bh ->
  w <= bw -> h <= bh -> x + w <= bx + bw -> y + h <= by_ + bh ->
  let r := rect_of x y w h in
  let bounds := rect_of bx by_ bw bh in
  exists x' y' : Q,
    constrainRect r bounds = rect_of x' y' w h /\
    (x < bx -> x' = bx) /\ (bx <= x -> x' = x) /\
    (y < by_ -> y' = by_) /\ (by_ <= y -> y' = y) /\
    constrainRect (constrainRect r bounds) bounds = constrainRect r bounds /\
    (bx <= x -> by_ <= y -> constrainRect r bounds = r).
Proof.
  intros Hw Hh Hbw Hbh Hfw Hfh Hx Hy r bounds. unfold r, bounds.
  exists (constrain_axis x w bx bw), (constrain_axis y h by_ bh).
  split; [apply constrainRect_axes; assumption|].
  split; [intros H; apply constrain_axis_near; assumption|].
  split; [intros H; apply constrain_axis_inside; assumption|].
  split; [intros H; apply constrain_axis_near; assumption|].
  split; [intros H; apply constrain_axis_inside; assumption|].
  split.
  - destruct (constrain_axis_fits x w bx bw Hfw) as [X1 X2].
    destruct (constrain_axis_fits y h by_ bh Hfh) as [Y1 Y2].
    rewrite !constrainRect_axes by assumption.
    rewrite (constrain_axis_inside (constrain_axis x w bx bw) w bx bw X1 X2),
      (constrain_axis_inside (constrain_axis y h by_ bh) h by_ bh Y1 Y2).
    reflexivity.
  - intros H1 H2. rewrite constrainRect_axes by assumption.
    rewrite !constrain_axis_inside by assumption. reflexivity.
Qed.

Lemma X3_constrainRect_idempotent_witness :
  constrainRect (rect_of (-10) 50 20 20) (rect_of 0 0 100 100) =
    rect_of 0 50 20 20 /\
  constrainRect
    (constrainRect (rect_of (-10) 50 20 20) (rect_of 0 0 100 100))
    (rect_of 0 0 100 100) =
    constrainRect (rect_of (-10) 50 20 20) (rect_of 0 0 100 100).
Proof.
  destruct (X3_constrainRect_idempotent (-10) 50 20 20 0 0 100 100)
    as (x' & y' & Heq & Hx & _ & _ & Hy & Hidem & _);
    try discriminate.
  split; [|exact Hidem].
  rewrite Heq, (Hx eq_refl), Hy by discriminate. reflexivity.
Defined.

End ConstrainRectMore.

Section DockGeometry.
Local Open Scope Q_scope.

Lemma getDockPosition_range (screen : NSScreen.t) :
  (getDockPosition screen <= 2)%nat.
Proof.
  unfold getDockPosition.
  repeat match goal with
         | |- context [if ?c then _ else _] => destruct c
         end;
    unfold WBDockPosition.RIGHT, WBDockPosition.LEFT, WBDockPosition.BOTTOM;
    lia.
Qed.

(** X4.  [getInferredRectOfHoveredDockIcon] never reaches the throwing
    branch of [getDockSize]: it always returns a square.  On a screen with a
    bottom dock of finite height [d] (the visible frame starts at [y = d],
    not zero) the square has side [d * 64 / 79], is centred horizontally on
    the mouse, and starts [2.5 / 79 * d] above the bottom of the screen
    frame, so that for [d >= 0] it lies within the strip of height [d] above
    that bottom, wherever the mouse is vertically. *)
Theorem X4_dock_icon_rect :
  (forall (mouse : CGPoint.t) (screen : NSScreen.t),
     exists r : CGRect.t,
       getInferredRectOfHoveredDockIcon mouse screen = Some r /\
       CGSize.width (CGRect.size r) = CGSize.height (CGRect.size r))
  /\
  (forall mx my fx fy fw fh vx d vw vh : Q,
     0 <= fh -> ~ d == 0 ->
     exists x0 y0 t : Q,
       getInferredRectOfHoveredDockIcon (CGPoint.mk mx my)
         (NSScreen.mk (rect_of fx fy fw fh) (rect_of vx d vw vh)) =
         Some (rect_of x0 y0 t t) /\
       t == d * (64 / 79) /\
       x0 + t / 2 == mx /\
       y0 == fy + (25 # 790) * d /\
       (0 <= d -> fy <= y0 /\ y0 + t <= fy + d)).
Proof.
  split.
  - intros mouse screen. unfold getInferredRectOfHoveredDockIcon. cbv zeta.
    pose proof (getDockPosition_range screen) as Hr.
    destruct (getDockPosition screen) as [|[|[|n]]]; cbn; try lia;
      eexists; split; reflexivity.
  - intros mx my fx fy fw fh vx d vw vh Hfh Hd.
    unfold getInferredRectOfHoveredDockIcon, getDockPosition. cbv zeta.
    cbn [NSScreen.visibleFrame NSScreen.frame rect_of CGRect.origin
         CGPoint.x CGPoint.y js_eq].
    apply Qeq_bool_false in Hd. rewrite Hd.
    cbn [getDockSize WBDockPosition.BOTTOM mbind option_bind Nat.eqb
         NSScreen.visibleFrame rect_of CGRect.origin CGPoint.y CGPoint.x].
    fold (rect_of fx fy fw fh).
    assert (Hw0 : 0 <= 0) by lra.
    unfold CGRectGetMinY, rect_of.
    cbn [CGRect.origin CGRect.size CGPoint.y CGSize.height JS.lt].
    apply Qltb_false in Hfh. rewrite Hfh.
    rewrite !div_finite by discriminate. js_arith.
    rewrite !div_finite by discriminate. js_arith.
    eexists _, _, _. split; [reflexivity|].
    apply Qeq_bool_false in Hd.
    split; [reflexivity|]. split; [qlra|]. split; [qlra|].
    intros Hd0. split; qlra.
Qed.

Lemma X4_dock_icon_rect_witness :
  exists x0 y0 t : Q,
    getInferredRectOfHoveredDockIcon (CGPoint.mk 700 3)
      (NSScreen.mk (rect_of 0 0 1440 900) (rect_of 0 79 1440 821)) =
      Some (rect_of x0 y0 t t) /\
    t == 64 /\ x0 + t / 2 == 700 /\ 0 <= y0 /\ y0 + t <= 0 + 79.
Proof.
  destruct X4_dock_icon_rect as [_ H].
  destruct (H 700 3 0 0 1440 900 0 79 1440 821)
    as (x0 & y0 & t & Heq & Ht & Hx & _ & Hy); try discriminate.
  exists x0, y0, t. split; [exact Heq|]. split; [|split; [exact Hx|]].
  - rewrite Ht. reflexivity.
  - apply Hy. discriminate.
Defined.

End DockGeometry.

(* ===================================================================== *)
(** * Further properties of motion.ts *)
(* ===================================================================== *)

Section DriverBalance.
Import motion.

Lemma driver_start_balanced (id : nat) (d : CALayerDriver.t) :
  driver_balanced d ->
  driver_balanced (CALayerDriver.driver_start id d) /\
  CALayerDriver.displayLink (CALayerDriver.driver_start id d) = true /\
  CALayerDriver.tickers (CALayerDriver.driver_start id d) =
    {[ id ]} ∪ CALayerDriver.tickers d.
Proof.
  intros Hb. unfold driver_balanced in *.
  unfold CALayerDriver.driver_start. cbv zeta.
  cbn [CALayerDriver.tickers CALayerDriver.displayLink].
  assert (Hne : {[ id ]} ∪ CALayerDriver.tickers d ≠ (∅ : gset nat))
    by set_solver.
  destruct (decide _) as [H1|H1]; unfold CALayerDriver.start;
    cbn [CALayerDriver.tickers CALayerDriver.displayLink].
  - destruct (CALayerDriver.displayLink d) eqn:Hl;
      cbn [CALayerDriver.tickers CALayerDriver.displayLink];
      repeat split; auto.
  - assert (Hd : CALayerDriver.tickers d ≠ ∅).
    { intros He. rewrite He in H1. apply H1.
      rewrite union_empty_r_L. apply size_singleton. }
    apply Hb in Hd. rewrite Hd. repeat split; auto.
Qed.

Lemma driver_stop_balanced (id : nat) (d : CALayerDriver.t) :
  driver_balanced d ->
  driver_balanced (CALayerDriver.driver_stop id d) /\
  CALayerDriver.tickers (CALayerDriver.driver_stop id d) =
    CALayerDriver.tickers d ∖ {[ id ]}.
Proof.
  intros Hb. unfold driver_balanced in *.
  unfold CALayerDriver.driver_stop.
  destruct (decide (id ∈ _)) as [Hin|Hout].
  - cbv zeta. cbn [CALayerDriver.tickers CALayerDriver.displayLink].
    assert (Hl : CALayerDriver.displayLink d = true)
      by (apply Hb; set_solver).
    destruct (decide _) as [H0|H0]; unfold CALayerDriver.stop;
      cbn [CALayerDriver.tickers CALayerDriver.displayLink];
      rewrite ?Hl; cbn [negb CALayerDriver.tickers CALayerDriver.displayLink].
    + apply size_empty_iff in H0. apply leibniz_equiv in H0.
      split; [|reflexivity]. split; [discriminate | congruence].
    + split; [|reflexivity]. split; [|auto]. intros _ He. apply H0.
      rewrite He. apply size_empty.
  - split; [exact Hb|]. set_solver.
Qed.

(** X5.  The driver counts its subscribers: starting from the fresh
    instance, after any run of [start] and [stop] calls of driver controls
    the display link exists exactly while some update is subscribed.  A
    [start] always leaves the link running; a [stop] of an update that is
    not subscribed changes nothing. *)
Theorem X5_driver_balanced (calls : list DriverCall) :
  let d := driver_run calls motion.CALayerDriver.instance in
  driver_balanced d /\
  (forall id, CALayerDriver.displayLink
                (CALayerDriver.driver_start id d) = true /\
              id ∈ CALayerDriver.tickers (CALayerDriver.driver_start id d)) /\
  (forall id, id ∉ CALayerDriver.tickers d ->
              CALayerDriver.driver_stop id d = d) /\
  (forall id, CALayerDriver.tickers d = {[ id ]} ->
              CALayerDriver.driver_stop id d = CALayerDriver.instance).
Proof.
  assert (Hrun : forall d0, driver_balanced d0 ->
                            driver_balanced (driver_run calls d0)).
  { unfold driver_run. induction calls as [|k calls IH]; intros d0 H0;
      [exact H0|].
    cbn [fold_left]. apply IH. destruct k as [id|id]; cbn [driver_call].
    - apply driver_start_balanced. exact H0.
    - apply driver_stop_balanced. exact H0. }
  intros d.
  assert (Hd : driver_balanced d).
  { apply Hrun. unfold driver_balanced. cbn. split; [discriminate|].
    intros H. contradiction. }
  split; [exact Hd|]. split; [|split].
  - intros id. destruct (driver_start_balanced id d Hd) as (_ & Hl & Ht).
    split; [exact Hl|]. rewrite Ht. set_solver.
  - intros id. apply driver_stop_not_subscribed.
  - intros id Ht.
    assert (Hl : CALayerDriver.displayLink d = true).
    { apply Hd. rewrite Ht. intros He.
      assert (Hin : id ∈ ({[ id ]} : gset nat)) by set_solver.
      rewrite He in Hin. set_solver. }
    unfold CALayerDriver.driver_stop. rewrite Ht.
    destruct (decide _) as [_|Hn]; [|set_solver].
    cbv zeta. cbn [CALayerDriver.tickers].
    assert (He : ({[ id ]} ∖ {[ id ]} : gset nat) = ∅) by set_solver.
    rewrite He. destruct (decide _) as [_|Hn]; [|rewrite size_empty in Hn; lia].
    unfold CALayerDriver.stop. cbn [CALayerDriver.displayLink]. rewrite Hl.
    reflexivity.
Qed.

Lemma X5_driver_balanced_witness :
  CALayerDriver.driver_stop 3
    (driver_run [DriverStart 3; DriverStart 4; DriverStop 3]
       CALayerDriver.instance) =
    driver_run [DriverStart 3; DriverStart 4; DriverStop 3]
      CALayerDriver.instance /\
  CALayerDriver.driver_stop 4
    (driver_run [DriverStart 3; DriverStart 4; DriverStop 3]
       CALayerDriver.instance) = CALayerDriver.instance.
Proof.
  destruct (X5_driver_balanced [DriverStart 3; DriverStart 4; DriverStop 3])
    as (_ & _ & Hno & Hlast).
  split.
  - apply Hno. vm_compute. intros H. discriminate H.
  - apply Hlast. vm_compute. reflexivity.
Defined.

End DriverBalance.

Section ScalarWindow.
Local Open Scope Q_scope.
Import motion.

Lemma scalar_samples_app (l1 l2 : list (Q * Q)) :
  scalar_samples (l1 ++ l2) = scalar_samples l1 ++ scalar_samples l2.
Proof. unfold scalar_samples. apply map_app. Qed.

(** [trim()] at the time of the newest sample, on samples in order of
    time: a suffix stays, which ends with the newest sample and holds
    nothing older than [lookBack]. *)
Lemma trim_loop_newest (L t v : Q) (l0 : list (Q * Q)) :
  0 <= L ->
  by_time (l0 ++ [(t, v)]) ->
  exists l' : list (Q * Q),
    VelocityTracker.trim_loop t L (scalar_samples (l0 ++ [(t, v)])) =
      scalar_samples (l' ++ [(t, v)]) /\
    l' `suffix_of` l0 /\
    Forall (fun tv : Q * Q => t - tv.1 <= L) l'.
Proof.
  intros HL. unfold by_time.
  induction l0 as [|a r IH]; intros Hs.
  - exists []. cbn. unfold JS.gt. js_arith.
    assert (E : JS.Qltb L (t + - t) = false) by (apply Qltb_false; lra).
    rewrite E. split; [reflexivity|]. split; [exists []; reflexivity|].
    constructor.
  - cbn [app] in Hs. apply StronglySorted_cons in Hs as [Ha Hr].
    cbn [app scalar_samples map VelocityTracker.trim_loop].
    cbn [scalar_sample Sample.time]. unfold JS.gt. js_arith.
    destruct (JS.Qltb L (t + - a.1)) eqn:E;
      [apply Qltb_true in E | apply Qltb_false in E].
    + destruct (IH Hr) as (l' & Heq & Hsuf & Hall).
      exists l'. split; [exact Heq|]. split; [|exact Hall].
      apply suffix_cons_r. exact Hsuf.
    + exists (a :: r). split; [reflexivity|].
      split; [exists []; reflexivity|].
      constructor; [lra|].
      apply Forall_app in Ha as [Ha _].
      eapply Forall_impl; [exact Ha|]. cbn. intros b Hb. lra.
Qed.

Lemma feed_snoc (l : list (Q * Q)) (t v : Q) (k : VelocityTracker.t) :
  feed (l ++ [(t, v)]) k = VelocityTracker.addSample t v (feed l k).
Proof. unfold feed. rewrite fold_left_app. reflexivity. Qed.

Lemma feed_suffix (l : list (Q * Q)) :
  by_time l ->
  VelocityTracker.lookBack (feed l VelocityTracker.new_) =
    JS.Finite (1 / 15) /\
  exists l' : list (Q * Q),
    VelocityTracker.samples (feed l VelocityTracker.new_) =
      scalar_samples l' /\
    l' `suffix_of` l /\
    (forall t v, last l = Some (t, v) ->
       last l' = Some (t, v) /\
       Forall (fun tv : Q * Q => t - tv.1 <= 1 # 15) l').
Proof.
  induction l as [|[t v] l IH] using rev_ind; intros Hs.
  - split; [reflexivity|]. exists []. split; [reflexivity|].
    split; [exists []; reflexivity|]. discriminate.
  - assert (Hs0 : by_time l)
      by (eapply StronglySorted_app_1_l; exact Hs).
    destruct (IH Hs0) as (HL & l0 & Heq & Hsuf & _).
    rewrite feed_snoc.
    unfold VelocityTracker.addSample, VelocityTracker.trim.
    cbn [VelocityTracker.samples VelocityTracker.lookBack].
    rewrite HL. split; [reflexivity|].
    rewrite Heq.
    change [Sample.mk (JS.Finite t) (JS.Finite v)]
      with (scalar_samples [(t, v)]).
    rewrite <- scalar_samples_app.
    assert (Hs1 : by_time (l0 ++ [(t, v)])).
    { destruct Hsuf as [pre ->]. rewrite <- app_assoc in Hs.
      eapply StronglySorted_app_1_r. exact Hs. }
    destruct (trim_loop_newest (1 / 15) t v l0) as (l' & Ht & Hsuf' & Hall);
      [discriminate | exact Hs1 |].
    exists (l' ++ [(t, v)]). split; [exact Ht|]. split.
    + apply suffix_app. etransitivity; eassumption.
    + intros t' v' Hlast. rewrite last_snoc in Hlast.
      injection Hlast as <- <-. rewrite last_snoc. split; [reflexivity|].
      apply Forall_app. split.
      * eapply Forall_impl; [exact Hall|]. cbn. intros b Hb. 
        assert (H15 : 1 / 15 == 1 # 15) by reflexivity. lra.
      * constructor; [cbn; lra | constructor].
Qed.

(** X6.  After any run of [addSample] calls made at non-decreasing times on
    a fresh tracker, the tracker holds a suffix of the samples it was given,
    in order; the suffix ends with the newest sample, and no sample in it is
    more than [lookBack = 1/15] older than the newest. *)
Theorem X6_scalar_window (l : list (Q * Q)) (t v : Q) :
  by_time (l ++ [(t, v)]) ->
  exists l' : list (Q * Q),
    VelocityTracker.samples (feed (l ++ [(t, v)]) VelocityTracker.new_) =
      scalar_samples (l' ++ [(t, v)]) /\
    l' `suffix_of` l /\
    Forall (fun tv : Q * Q => t - tv.1 <= 1 # 15) l'.
Proof.
  intros Hs. destruct (feed_suffix _ Hs) as (_ & l1 & Heq & Hsuf & Hlast).
  destruct (Hlast t v (last_snoc _ _)) as [Hl Hall].
  apply last_Some in Hl as [l' ->].
  exists l'. split; [exact Heq|]. split.
  - apply suffix_snoc_inv_2 in Hsuf. exact Hsuf.
  - apply Forall_app in Hall as [Hall _]. exact Hall.
Qed.

Lemma X6_scalar_window_witness :
  exists l' : list (Q * Q),
    VelocityTracker.samples
      (feed ([(0, 1); (1 # 100, 2)] ++ [(1 # 10, 3)]) VelocityTracker.new_) =
      scalar_samples (l' ++ [(1 # 10, 3)]) /\
    l' `suffix_of` [(0, 1); (1 # 100, 2)] /\
    Forall (fun tv : Q * Q => (1 # 10) - tv.1 <= 1 # 15) l'.
Proof.
  apply (X6_scalar_window [(0, 1); (1 # 100, 2)] (1 # 10) 3).
  unfold by_time. repeat constructor; discriminate.
Defined.

End ScalarWindow.

Section SpringsInStep.
Import motion.

Lemma insert_lookup_inv {A : Type} (l : list A) (i j : nat) (x y z : A) :
  l !! i = Some x ->
  <[i := y]> l !! j = Some z ->
  (j = i /\ z = y) \/ (j <> i /\ l !! j = Some z).
Proof.
  intros Hi Hj. destruct (decide (j = i)) as [->|Hne].
  - left. split; [reflexivity|].
    rewrite list_lookup_insert_eq in Hj by (eapply lookup_lt_Some; exact Hi).
    congruence.
  - right. split; [exact Hne|].
    rewrite list_lookup_insert_ne in Hj by congruence. exact Hj.
Qed.

Lemma idled_stop (s : SpringAnimation.t) (e : Engine.t) :
  idled s (SpringAnimation.stop s e).1 e (SpringAnimation.stop s e).2.
Proof.
  destruct s as [an tr oc va tv ve [id|] sc pa]; destruct e as [d pb nt];
    unfold idled; spring_unfold; repeat split; auto.
Qed.

Lemma idled_set_value (now : Q) (v : JS.number) (s : SpringAnimation.t)
    (e : Engine.t) :
  idled s (SpringAnimation.set_value now v s e).1 e
    (SpringAnimation.set_value now v s e).2.
Proof.
  unfold SpringAnimation.set_value.
  destruct s as [an tr oc va tv ve [id|] sc pa]; destruct e as [d pb nt];
    unfold idled; spring_unfold; repeat split; auto.
Qed.

Lemma new_idle (now : Q) (initialValue scale : JS.number)
    (params : SpringParams.t) (e : Engine.t) :
  let se := SpringAnimation.new_ now initialValue scale params e in
  se.2 = e /\
  SpringAnimation.animating se.1 = false /\
  SpringAnimation.targetValue se.1 = None /\
  SpringAnimation.stopFunction se.1 = None.
Proof.
  unfold SpringAnimation.new_, SpringAnimation.set_value. spring_unfold.
  repeat split.
Qed.

(** A tick of a playback that is not subscribed, or of a solver still
    moving, leaves spring and engine in step as they are; the last tick of a
    solver stops the spring. *)
Lemma tick_effect (id : nat) (f : popmotion.Frame) (s : SpringAnimation.t)
    (e : Engine.t) :
  let se := SpringAnimation.playback_update id f s e in
  (id ∈ CALayerDriver.tickers (Engine.driver e) ->
   popmotion.done f = true ->
   SpringAnimation.stopFunction s = Some id ->
   idled s se.1 e se.2) /\
  (id ∉ CALayerDriver.tickers (Engine.driver e) \/
   popmotion.done f = false ->
   unmoved s se.1 e se.2).
Proof.
  unfold SpringAnimation.playback_update.
  destruct (decide (id ∈ _)) as [Hin|Hout].
  - split.
    + intros _ Hd Hsf. rewrite Hd.
      destruct s as [an tr [cb|] va tv ve sf sc pa]; destruct e as [d pb nt];
        cbn in Hsf; subst sf; unfold idled; spring_unfold;
        repeat split; auto.
    + intros [Hc|Hd]; [contradiction|]. rewrite Hd.
      destruct s as [an tr [cb|] va tv ve sf sc pa]; destruct e as [d pb nt];
        unfold unmoved; spring_unfold; repeat split.
  - split; [contradiction|]. intros _. unfold unmoved. cbn [fst snd].
    repeat split.
Qed.

(** [start] stops the spring, then subscribes a new playback. *)
Lemma start_effect (now : Q) (target v : JS.number) (s : SpringAnimation.t)
    (e : Engine.t) :
  let se := SpringAnimation.start now target v s e in
  let e1 := (SpringAnimation.stop s e).2 in
  let id := length (Engine.playbacks e) in
  SpringAnimation.animating se.1 = true /\
  is_Some (SpringAnimation.targetValue se.1) /\
  SpringAnimation.stopFunction se.1 = Some id /\
  (exists o, Engine.playbacks se.2 = Engine.playbacks e ++ [o]) /\
  Engine.driver se.2 = CALayerDriver.driver_start id (Engine.driver e1).
Proof.
  destruct s as [an tr oc va tv ve [old|] sc pa]; destruct e as [d pb nt];
    spring_unfold; repeat split; eauto.
Qed.

Section Step.

Variables (sp : list SpringAnimation.t) (ow : list nat) (e : Engine.t).
Variables (i : nat) (s : SpringAnimation.t).
Hypothesis Hin : springs_in_step (Springs.mk sp ow e).
Hypothesis Hi : sp !! i = Some s.

Lemma in_step_unmoved (s' : SpringAnimation.t) (e' : Engine.t) :
  unmoved s s' e e' ->
  springs_in_step (Springs.mk (<[i := s']> sp) ow e').
Proof.
  intros (Ha & Ht & Hsf & Hpb & Hd).
  destruct Hin as (I1 & I2 & I3 & I4 & I5 & I6).
  cbn [Springs.springs Springs.owners Springs.engine] in *.
  unfold springs_in_step.
  cbn [Springs.springs Springs.owners Springs.engine].
  rewrite Hpb, Hd. split; [exact I1|]. split; [exact I2|].
  split; [|split; [|split]].
  - intros j x id Hj Hx.
    destruct (insert_lookup_inv sp i j s s' x Hi Hj) as [[-> ->]|[Hne Hj']].
    + apply (I3 i s id Hi). congruence.
    + apply (I3 j x id Hj' Hx).
  - intros j x Hj Hx.
    destruct (insert_lookup_inv sp i j s s' x Hi Hj) as [[-> ->]|[Hne Hj']].
    + rewrite Hsf, Ht. apply (I4 i s Hi). congruence.
    + apply (I4 j x Hj' Hx).
  - intros j x Hj Hx.
    destruct (insert_lookup_inv sp i j s s' x Hi Hj) as [[-> ->]|[Hne Hj']].
    + rewrite Ht. apply (I5 i s Hi). congruence.
    + apply (I5 j x Hj' Hx).
  - intros id. rewrite I6. split.
    + intros (j & x & Hj & Hx & Hid).
      destruct (decide (j = i)) as [->|Hne].
      * exists i, s'. rewrite list_lookup_insert_eq
          by (eapply lookup_lt_Some; exact Hi).
        rewrite Hi in Hj. injection Hj as <-.
        split; [reflexivity|]. split; congruence.
      * exists j, x. rewrite list_lookup_insert_ne by congruence. auto.
    + intros (j & x & Hj & Hx & Hid).
      destruct (insert_lookup_inv sp i j s s' x Hi Hj) as [[-> ->]|[Hne Hj']].
      * exists i, s. split; [exact Hi|]. split; congruence.
      * exists j, x. auto.
Qed.

Lemma in_step_idled (s' : SpringAnimation.t) (e' : Engine.t) :
  idled s s' e e' ->
  springs_in_step (Springs.mk (<[i := s']> sp) ow e').
Proof.
  intros (Ha & Ht & Hsf & Hpb & Hd).
  destruct Hin as (I1 & I2 & I3 & I4 & I5 & I6).
  cbn [Springs.springs Springs.owners Springs.engine] in *.
  assert (Hdrv :
    driver_balanced (Engine.driver e') /\
    forall id, id ∈ CALayerDriver.tickers (Engine.driver e') <->
               id ∈ CALayerDriver.tickers (Engine.driver e) /\
               SpringAnimation.stopFunction s <> Some id).
  { rewrite Hd. destruct (SpringAnimation.stopFunction s) as [old|].
    - destruct (driver_stop_balanced old (Engine.driver e) I2) as [Hb Hset].
      split; [exact Hb|]. intros id. rewrite Hset.
      rewrite elem_of_difference, elem_of_singleton.
      split; intros [H1 H2]; (split; [exact H1|]); congruence.
    - split; [exact I2|]. intros id. split; [intros H; split; [exact H|]|tauto].
      discriminate. }
  destruct Hdrv as [Hb Htick].
  unfold springs_in_step.
  cbn [Springs.springs Springs.owners Springs.engine].
  rewrite Hpb. split; [exact I1|]. split; [exact Hb|].
  split; [|split; [|split]].
  - intros j x id Hj Hx.
    destruct (insert_lookup_inv sp i j s s' x Hi Hj) as [[-> ->]|[Hne Hj']].
    + destruct Hsf as [Hsf|Hsf]; [|congruence].
      apply (I3 i s id Hi). congruence.
    + apply (I3 j x id Hj' Hx).
  - intros j x Hj Hx.
    destruct (insert_lookup_inv sp i j s s' x Hi Hj) as [[-> ->]|[Hne Hj']].
    + congruence.
    + apply (I4 j x Hj' Hx).
  - intros j x Hj Hx.
    destruct (insert_lookup_inv sp i j s s' x Hi Hj) as [[-> ->]|[Hne Hj']].
    + exact Ht.
    + apply (I5 j x Hj' Hx).
  - intros id. rewrite Htick, I6. split.
    + intros [(j & x & Hj & Hx & Hid) Hne].
      destruct (decide (j = i)) as [->|Hji].
      * rewrite Hi in Hj. injection Hj as <-. contradiction.
      * exists j, x. rewrite list_lookup_insert_ne by congruence. auto.
    + intros (j & x & Hj & Hx & Hid).
      destruct (insert_lookup_inv sp i j s s' x Hi Hj) as [[-> ->]|[Hne Hj']].
      * congruence.
      * split; [exists j, x; auto|].
        intros Hs. pose proof (I3 i s id Hi Hs) as H1.
        pose proof (I3 j x id Hj' Hid) as H2. congruence.
Qed.

End Step.

(** A new playback of an idle spring. *)
Lemma in_step_animate (sp : list SpringAnimation.t) (ow : list nat)
    (e e' : Engine.t) (i : nat) (s s' : SpringAnimation.t)
    (o : popmotion.AnimateOptions) :
  springs_in_step (Springs.mk sp ow e) ->
  sp !! i = Some s ->
  SpringAnimation.animating s = false ->
  SpringAnimation.animating s' = true ->
  is_Some (SpringAnimation.targetValue s') ->
  SpringAnimation.stopFunction s' = Some (length (Engine.playbacks e)) ->
  Engine.playbacks e' = Engine.playbacks e ++ [o] ->
  Engine.driver e' =
    CALayerDriver.driver_start (length (Engine.playbacks e))
      (Engine.driver e) ->
  springs_in_step (Springs.mk (<[i := s']> sp) (ow ++ [i]) e').
Proof.
  intros (I1 & I2 & I3 & I4 & I5 & I6) Hi Hidle Ha Ht Hsf Hpb Hd.
  cbn [Springs.springs Springs.owners Springs.engine] in *.
  destruct (driver_start_balanced (length (Engine.playbacks e))
              (Engine.driver e) I2) as (Hb & _ & Hset).
  unfold springs_in_step.
  cbn [Springs.springs Springs.owners Springs.engine].
  rewrite Hpb, Hd, !length_app. cbn [length].
  split; [lia|]. split; [exact Hb|]. split; [|split; [|split]].
  - intros j x id Hj Hx.
    destruct (insert_lookup_inv sp i j s s' x Hi Hj) as [[-> ->]|[Hne Hj']].
    + rewrite Hsf in Hx. injection Hx as <-. rewrite <- I1.
      apply list_lookup_middle. reflexivity.
    + apply lookup_app_l_Some. apply (I3 j x id Hj' Hx).
  - intros j x Hj Hx.
    destruct (insert_lookup_inv sp i j s s' x Hi Hj) as [[-> ->]|[Hne Hj']].
    + rewrite Hsf. split; [eexists; reflexivity | exact Ht].
    + apply (I4 j x Hj' Hx).
  - intros j x Hj Hx.
    destruct (insert_lookup_inv sp i j s s' x Hi Hj) as [[-> ->]|[Hne Hj']].
    + congruence.
    + apply (I5 j x Hj' Hx).
  - intros id. rewrite Hset, elem_of_union, elem_of_singleton, I6. split.
    + intros [->|(j & x & Hj & Hx & Hid)].
      * exists i, s'. rewrite list_lookup_insert_eq
          by (eapply lookup_lt_Some; exact Hi). auto.
      * destruct (decide (j = i)) as [->|Hji].
        -- rewrite Hi in Hj. injection Hj as <-. congruence.
        -- exists j, x. rewrite list_lookup_insert_ne by congruence. auto.
    + intros (j & x & Hj & Hx & Hid).
      destruct (insert_lookup_inv sp i j s s' x Hi Hj) as [[-> ->]|[Hne Hj']].
      * left. congruence.
      * right. exists j, x. auto.
Qed.

Lemma in_step_new (st : Springs.t) (s' : SpringAnimation.t) :
  springs_in_step st ->
  SpringAnimation.animating s' = false ->
  SpringAnimation.targetValue s' = None ->
  SpringAnimation.stopFunction s' = None ->
  springs_in_step
    (Springs.mk (Springs.springs st ++ [s']) (Springs.owners st)
       (Springs.engine st)).
Proof.
  intros (I1 & I2 & I3 & I4 & I5 & I6) Ha Ht Hsf.
  assert (Hcases : forall j x,
            (Springs.springs st ++ [s']) !! j = Some x ->
            Springs.springs st !! j = Some x \/ x = s').
  { intros j x Hj. apply lookup_app_Some in Hj as [Hj|[_ Hj]];
      [left; exact Hj|].
    right. apply list_lookup_singleton_Some in Hj as [_ ->]. reflexivity. }
  unfold springs_in_step.
  cbn [Springs.springs Springs.owners Springs.engine].
  split; [exact I1|]. split; [exact I2|]. split; [|split; [|split]].
  - intros j x id Hj Hx. destruct (Hcases j x Hj) as [Hj'| ->];
      [apply (I3 j x id Hj' Hx) | congruence].
  - intros j x Hj Hx. destruct (Hcases j x Hj) as [Hj'| ->];
      [apply (I4 j x Hj' Hx) | congruence].
  - intros j x Hj Hx. destruct (Hcases j x Hj) as [Hj'| ->];
      [apply (I5 j x Hj' Hx) | exact Ht].
  - intros id. rewrite I6. split.
    + intros (j & x & Hj & Hx & Hid). exists j, x.
      split; [apply lookup_app_l_Some; exact Hj | auto].
    + intros (j & x & Hj & Hx & Hid).
      destruct (Hcases j x Hj) as [Hj'| ->]; [|congruence].
      exists j, x. auto.
Qed.

Lemma in_step_event (ev : SpringEvent) (st : Springs.t) :
  springs_in_step st -> springs_in_step (spring_event ev st).
Proof.
  intros Hin. destruct st as [sp ow e].
  assert (Hcall_idled : forall i f,
            (forall s, idled s (f s e).1 e (f s e).2) ->
            springs_in_step (Springs.call i f (Springs.mk sp ow e))).
  { intros i f Hf. unfold Springs.call.
    cbn [Springs.springs Springs.owners Springs.engine].
    destruct (sp !! i) as [s|] eqn:Hi; [|exact Hin]. cbv zeta.
    pose proof (Hf s) as Hid. pose proof Hid as (_ & _ & _ & Hpb & _).
    rewrite Hpb, Nat.sub_diag. cbn [replicate]. rewrite app_nil_r.
    apply (in_step_idled sp ow e i s Hin Hi). exact Hid. }
  destruct ev as [now iv sc pa | i now v | i now tv v | i | id f];
    cbn [spring_event].
  - destruct (new_idle now iv sc pa e) as (He & Ha & Ht & Hsf).
    cbn [Springs.engine Springs.springs Springs.owners].
    rewrite He.
    apply (in_step_new (Springs.mk sp ow e)); assumption.
  - apply Hcall_idled. intros s. apply idled_set_value.
  - unfold Springs.call.
    cbn [Springs.springs Springs.owners Springs.engine].
    destruct (sp !! i) as [s|] eqn:Hi; [|exact Hin]. cbv zeta.
    destruct (start_effect now tv v s e) as (Ha & Ht & Hsf & [o Hpb] & Hd).
    pose proof (idled_stop s e) as Hid.
    pose proof (in_step_idled sp ow e i s Hin Hi _ _ Hid) as Hin1.
    pose proof Hid as (Ha1 & _ & _ & Hpb1 & _).
    rewrite Hpb, length_app. cbn [length].
    replace (length (Engine.playbacks e) + 1 - length (Engine.playbacks e))%nat
      with 1%nat by lia.
    cbn [replicate].
    rewrite <- (list_insert_insert_eq sp i
                  (SpringAnimation.start now tv v s e).1
                  (SpringAnimation.stop s e).1).
    eapply (in_step_animate _ ow (SpringAnimation.stop s e).2 _ i
              (SpringAnimation.stop s e).1 _ o Hin1).
    + apply list_lookup_insert_eq. eapply lookup_lt_Some. exact Hi.
    + exact Ha1.
    + exact Ha.
    + exact Ht.
    + rewrite Hpb1. exact Hsf.
    + rewrite Hpb1. exact Hpb.
    + rewrite Hpb1. exact Hd.
  - apply Hcall_idled. intros s. apply idled_stop.
  - cbn [Springs.owners].
    destruct (ow !! id) as [i|] eqn:Hown; [|exact Hin].
    unfold Springs.call.
    cbn [Springs.springs Springs.owners Springs.engine].
    destruct (sp !! i) as [s|] eqn:Hi; [|exact Hin]. cbv zeta.
    destruct (tick_effect id f s e) as [Hdone Hsame].
    destruct (decide (id ∈ CALayerDriver.tickers (Engine.driver e)))
      as [Hsub|Hno].
    + assert (Hsf : SpringAnimation.stopFunction s = Some id).
      { pose proof Hin as (_ & _ & I3 & _ & _ & I6).
        cbn [Springs.springs Springs.owners Springs.engine] in I3, I6.
        apply I6 in Hsub as (j & x & Hj & _ & Hx).
        pose proof (I3 j x id Hj Hx) as Hj'. rewrite Hown in Hj'.
        injection Hj' as ->. congruence. }
      destruct (popmotion.done f) eqn:Hd.
      * pose proof (Hdone Hsub eq_refl Hsf) as Hid.
        pose proof Hid as (_ & _ & _ & Hpb & _).
        rewrite Hpb, Nat.sub_diag. cbn [replicate]. rewrite app_nil_r.
        apply (in_step_idled sp ow e i s Hin Hi). exact Hid.
      * pose proof (Hsame (or_intror eq_refl)) as Hid.
        pose proof Hid as (_ & _ & _ & Hpb & _).
        rewrite Hpb, Nat.sub_diag. cbn [replicate]. rewrite app_nil_r.
        apply (in_step_unmoved sp ow e i s Hin Hi). exact Hid.
    + pose proof (Hsame (or_introl Hno)) as Hid.
      pose proof Hid as (_ & _ & _ & Hpb & _).
      rewrite Hpb, Nat.sub_diag. cbn [replicate]. rewrite app_nil_r.
      apply (in_step_unmoved sp ow e i s Hin Hi). exact Hid.
Qed.

Lemma in_step_run (evs : list SpringEvent) (st : Springs.t) :
  springs_in_step st -> springs_in_step (spring_run evs st).
Proof.
  unfold spring_run. revert st.
  induction evs as [|ev evs IH]; intros st Hin; [exact Hin|].
  cbn [fold_left]. apply IH. apply in_step_event. exact Hin.
Qed.

Lemma in_step_initial : springs_in_step Springs.initial.
Proof.
  unfold springs_in_step, Springs.initial, Engine.initial.
  cbn [Springs.springs Springs.owners Springs.engine Engine.driver
       Engine.playbacks].
  split; [reflexivity|]. split.
  { unfold driver_balanced. cbn. split; [discriminate|].
    intros H. contradiction. }
  split; [intros i s id H; rewrite lookup_nil in H; discriminate|].
  split; [intros i s H; rewrite lookup_nil in H; discriminate|].
  split; [intros i s H; rewrite lookup_nil in H; discriminate|].
  intros id. split.
  - intros H. cbn in H. set_solver.
  - intros (i & s & H & _). rewrite lookup_nil in H. discriminate.
Qed.

(** X7.  Each spring drives at most one solve on the driver all springs
    share.  After any run of constructions of springs, value assignments,
    [start] and [stop] calls on any of them and ticks of any playback: the
    updates subscribed to the driver are exactly the playbacks the
    animating springs hold in [stopFunction], each created by the spring
    that holds it, so no two subscribed updates belong to one spring; an
    animating spring has a target, an idle one has none and none of its
    playbacks is subscribed; and the display link exists exactly while some
    spring animates.  In particular a [start] while a solve of the same
    spring is running unsubscribes that solve, and leaves those of other
    springs alone. *)
Theorem X7_spring_single_solve (evs : list SpringEvent) :
  let st := spring_run evs Springs.initial in
  let d := Engine.driver (Springs.engine st) in
  (forall id,
     id ∈ CALayerDriver.tickers d <->
     exists i s,
       Springs.springs st !! i = Some s /\
       SpringAnimation.animating s = true /\
       SpringAnimation.stopFunction s = Some id /\
       Springs.owners st !! id = Some i) /\
  (forall id id' i,
     id ∈ CALayerDriver.tickers d -> id' ∈ CALayerDriver.tickers d ->
     Springs.owners st !! id = Some i -> Springs.owners st !! id' = Some i ->
     id = id') /\
  (CALayerDriver.displayLink d = true <->
   exists i s,
     Springs.springs st !! i = Some s /\
     SpringAnimation.animating s = true) /\
  (forall i s,
     Springs.springs st !! i = Some s ->
     (SpringAnimation.animating s = true ->
      is_Some (SpringAnimation.targetValue s)) /\
     (SpringAnimation.animating s = false ->
      SpringAnimation.targetValue s = None /\
      forall id, id ∈ CALayerDriver.tickers d ->
                 Springs.owners st !! id <> Some i)).
Proof.
  intros st d.
  pose proof (in_step_run evs Springs.initial in_step_initial)
    as (I1 & I2 & I3 & I4 & I5 & I6).
  fold st in I1, I2, I3, I4, I5, I6. fold d in I2, I6.
  assert (Hown : forall id,
            id ∈ CALayerDriver.tickers d ->
            exists i s,
              Springs.springs st !! i = Some s /\
              SpringAnimation.animating s = true /\
              SpringAnimation.stopFunction s = Some id /\
              Springs.owners st !! id = Some i).
  { intros id Hid. apply I6 in Hid as (i & s & Hi & Ha & Hsf).
    exists i, s. repeat split; try assumption. apply (I3 i s id Hi Hsf). }
  split; [|split; [|split]].
  - intros id. split; [apply Hown|].
    intros (i & s & Hi & Ha & Hsf & _). apply I6. exists i, s. auto.
  - intros id id' i Hid Hid' Ho Ho'.
    destruct (Hown id Hid) as (j & s & Hj & _ & Hsf & Hoj).
    destruct (Hown id' Hid') as (j' & s' & Hj' & _ & Hsf' & Hoj').
    assert (j = i) by congruence. assert (j' = i) by congruence.
    subst j j'. congruence.
  - unfold driver_balanced in I2. rewrite I2. split.
    + intros Hne.
      destruct (set_choose_L (CALayerDriver.tickers d) Hne) as [id Hid].
      destruct (Hown id Hid) as (i & s & Hi & Ha & _). exists i, s. auto.
    + intros (i & s & Hi & Ha) He.
      destruct (I4 i s Hi Ha) as [[id Hsf] _].
      assert (Hid : id ∈ CALayerDriver.tickers d)
        by (apply I6; exists i, s; auto).
      rewrite He in Hid. set_solver.
  - intros i s Hi. split.
    + intros Ha. apply (I4 i s Hi Ha).
    + intros Ha. split; [apply (I5 i s Hi Ha)|].
      intros id Hid Ho.
      destruct (Hown id Hid) as (j & x & Hj & Hx & _ & Hoj).
      assert (j = i) by congruence. subst j. congruence.
Qed.

(** The two springs of a ball, both started: two updates are subscribed;
    when the solve of the second is done, the display link stays on for
    the first. *)
Example two_springs_share_the_driver :
  let st :=
    spring_run
      [EvNew 0 1%Q 1000%Q (SpringParams.new_ (2 # 10)%Q (8 # 10)%Q);
       EvNew 0 1%Q 1000%Q (SpringParams.new_ (3 # 10)%Q (5 # 10)%Q);
       EvStart 0 1 (105 # 100)%Q 0%Q;
       EvStart 1 1 (8 # 10)%Q (-5)%Q;
       EvTick 1 (popmotion.mkFrame 800%Q 0%Q true)]
      Springs.initial in
  CALayerDriver.tickers (Engine.driver (Springs.engine st)) = {[ 0%nat ]} /\
  CALayerDriver.displayLink (Engine.driver (Springs.engine st)) = true /\
  (SpringAnimation.animating <$> Springs.springs st) = [true; false].
Proof. vm_compute. repeat split. Qed.

Example restart_cancels_prior :
  let st :=
    spring_run
      [EvNew 0 1%Q 1000%Q SpringParams.passiveEase;
       EvStart 0 1 (8 # 10)%Q (-5)%Q; EvStart 0 2 1%Q (-5)%Q]
      Springs.initial in
  CALayerDriver.tickers (Engine.driver (Springs.engine st)) = {[ 1%nat ]} /\
  (SpringAnimation.stopFunction <$> Springs.springs st) = [Some 1%nat] /\
  Springs.owners st = [0%nat; 0%nat].
Proof. vm_compute. repeat split. Qed.

End SpringsInStep.

Section SpringMore.
Local Open Scope Q_scope.
Import motion.

Lemma new_tracker :
  VelocityTracker.new_ = VelocityTracker.mk [] (JS.Finite (1 / 15)).
Proof. reflexivity. Qed.

Lemma fresh_spring_tracker (t0 : Q) (v0 scale : JS.number)
    (params : SpringParams.t) (e : Engine.t) :
  let s := (SpringAnimation.new_ t0 v0 scale params e).1 in
  SpringAnimation.animating s = false /\
  SpringAnimation.externallySetVelocityTracker s =
    VelocityTracker.mk [Sample.mk t0 v0] (JS.Finite (1 / 15)).
Proof.
  unfold SpringAnimation.new_, SpringAnimation.set_value. spring_unfold.
  split; [reflexivity|]. rewrite new_tracker.
  unfold VelocityTracker.addSample, VelocityTracker.trim.
  cbn [VelocityTracker.samples VelocityTracker.lookBack app
       VelocityTracker.trim_loop Sample.time].
  unfold JS.gt. js_arith.
  assert (E : JS.Qltb (1 / 15) (t0 + - t0) = false)
    by (apply Qltb_false; assert (0 <= 1 / 15) by discriminate; lra).
  rewrite E. reflexivity.
Qed.

(** X8.  An idle spring infers its velocity from the values set on it.  A
    spring constructed at [t0] with value [v0] and snapped to [v1] at [t1]
    reports, when read at [now] with both samples still within the
    look-back of 1/15, the velocity [(v1 - v0) / (now - t0)]; once the
    first sample is older than the look-back, it reports zero, whether the
    second sample is still retained or not. *)
Theorem X8_snap_velocity (t0 t1 now v0 v1 : Q) (scale : JS.number)
    (params : SpringParams.t) :
  t0 <= t1 -> t1 <= now -> t0 < now ->
  let constructed :=
    SpringAnimation.new_ t0 v0 scale params Engine.initial in
  let snapped :=
    SpringAnimation.set_value t1 v1 constructed.1 constructed.2 in
  SpringAnimation.value snapped.1 = JS.Finite v1 /\
  SpringAnimation.animating snapped.1 = false /\
  (now - t0 <= 1 # 15 ->
   (SpringAnimation.velocity now snapped.1).1 =
     JS.Finite ((v1 - v0) / (now - t0))) /\
  (1 # 15 < now - t0 ->
   (SpringAnimation.velocity now snapped.1).1 =n= JS.Finite 0).
Proof.
  intros H01 H1n H0n constructed snapped.
  destruct (fresh_spring_tracker t0 v0 scale params Engine.initial)
    as [Ha Htr].
  fold constructed in Ha, Htr.
  assert (H15 : 1 / 15 == 1 # 15) by reflexivity.
  assert (Hsn : SpringAnimation.animating snapped.1 = false /\
                SpringAnimation.value snapped.1 = JS.Finite v1 /\
                SpringAnimation.externallySetVelocityTracker snapped.1 =
                  VelocityTracker.addSample t1 v1
                    (VelocityTracker.mk [Sample.mk t0 v0]
                       (JS.Finite (1 / 15)))).
  { unfold snapped, SpringAnimation.set_value. rewrite <- Htr.
    destruct constructed.1 as [an tr oc va tv ve [sf|] sc pa];
      spring_unfold; repeat split. }
  destruct Hsn as (Ha' & Hv' & Htr').
  split; [exact Hv'|]. split; [exact Ha'|].
  rewrite velocity_idle by exact Ha'. rewrite Htr'.
  unfold VelocityTracker.addSample, VelocityTracker.trim.
  cbn [VelocityTracker.samples VelocityTracker.lookBack app
       VelocityTracker.trim_loop Sample.time].
  unfold JS.gt. js_arith.
  assert (E11 : JS.Qltb (1 / 15) (t1 + - t1) = false)
    by (apply Qltb_false; lra).
  assert (Hone : retained now
            (VelocityTracker.mk [Sample.mk t1 v1] (JS.Finite (1 / 15))) =
          [scalar_sample t1 v1] /\ now - t1 <= 1 # 15 \/
          ~ now - t1 <= 1 # 15).
  { destruct (Qlt_le_dec (1 # 15) (now - t1)) as [Hl|Hl]; [right; lra|].
    left. split; [|exact Hl]. unfold retained, VelocityTracker.trim.
    cbn [VelocityTracker.samples VelocityTracker.lookBack
         VelocityTracker.trim_loop Sample.time].
    unfold JS.gt. js_arith.
    replace (JS.Qltb (1 / 15) (now + - t1)) with false
      by (symmetry; apply Qltb_false; lra).
    reflexivity. }
  split.
  - intros Hw.
    assert (E01 : JS.Qltb (1 / 15) (t1 + - t0) = false)
      by (apply Qltb_false; lra).
    rewrite E01.
    assert (Hret : retained now
              (VelocityTracker.mk [Sample.mk t0 v0; Sample.mk t1 v1]
                 (JS.Finite (1 / 15))) =
            [scalar_sample t0 v0; scalar_sample t1 v1]).
    { unfold retained, VelocityTracker.trim.
      cbn [VelocityTracker.samples VelocityTracker.lookBack
           VelocityTracker.trim_loop Sample.time].
      unfold JS.gt. js_arith.
      replace (JS.Qltb (1 / 15) (now + - t0)) with false
        by (symmetry; apply Qltb_false; lra).
      reflexivity. }
    rewrite (scalar_velocity_cons now t0 v0 _ _ Hret t1 v1 eq_refl).
    replace (JS.Qltb 0 (now - t0)) with true
      by (symmetry; apply Qltb_true; lra).
    reflexivity.
  - intros Hold.
    assert (Hfin : forall k,
              retained now k = [scalar_sample t1 v1] ->
              (VelocityTracker.velocity now k).1 =n= JS.Finite 0).
    { intros k Hk.
      rewrite (scalar_velocity_cons now t1 v1 _ k Hk t1 v1 eq_refl).
      destruct (JS.Qltb 0 (now - t1)) eqn:E; [|reflexivity].
      apply Qltb_true in E. cbn [JS.eqv]. field. lra. }
    assert (Hnil : forall k,
              retained now k = [] ->
              (VelocityTracker.velocity now k).1 =n= JS.Finite 0).
    { intros k Hk. rewrite (scalar_velocity_nil now k Hk). reflexivity. }
    destruct Hone as [[Hone Hnew]|Hexp].
    + destruct (JS.Qltb (1 / 15) (t1 + - t0)).
      * rewrite E11. apply Hfin. exact Hone.
      * apply Hfin. unfold retained, VelocityTracker.trim.
        cbn [VelocityTracker.samples VelocityTracker.lookBack
             VelocityTracker.trim_loop Sample.time].
        unfold JS.gt. js_arith.
        replace (JS.Qltb (1 / 15) (now + - t0)) with true
          by (symmetry; apply Qltb_true; lra).
        replace (JS.Qltb (1 / 15) (now + - t1)) with false
          by (symmetry; apply Qltb_false; lra).
        reflexivity.
    + assert (Hexp' : 1 # 15 < now - t1) by lra.
      destruct (JS.Qltb (1 / 15) (t1 + - t0)).
      * rewrite E11. apply Hnil. unfold retained, VelocityTracker.trim.
        cbn [VelocityTracker.samples VelocityTracker.lookBack
             VelocityTracker.trim_loop Sample.time].
        unfold JS.gt. js_arith.
        replace (JS.Qltb (1 / 15) (now + - t1)) with true
          by (symmetry; apply Qltb_true; lra).
        reflexivity.
      * apply Hnil. unfold retained, VelocityTracker.trim.
        cbn [VelocityTracker.samples VelocityTracker.lookBack
             VelocityTracker.trim_loop Sample.time].
        unfold JS.gt. js_arith.
        replace (JS.Qltb (1 / 15) (now + - t0)) with true
          by (symmetry; apply Qltb_true; lra).
        replace (JS.Qltb (1 / 15) (now + - t1)) with true
          by (symmetry; apply Qltb_true; lra).
        reflexivity.
Qed.

Lemma X8_snap_velocity_witness :
  let constructed :=
    SpringAnimation.new_ 0 1%Q 1000%Q SpringParams.passiveEase
      Engine.initial in
  let snapped :=
    SpringAnimation.set_value (1 # 100) (2%Q) constructed.1 constructed.2 in
  (SpringAnimation.velocity (2 # 100) snapped.1).1 =
    JS.Finite ((2 - 1) / ((2 # 100) - 0)).
Proof.
  cbv zeta.
  apply (X8_snap_velocity 0 (1 # 100) (2 # 100) 1 2 (JS.Finite 1000)
           SpringParams.passiveEase); try discriminate. reflexivity.
Defined.

End SpringMore.

Section SpringCompletion.
Import motion.

Lemma playback_update_done (id : nat) (f : popmotion.Frame)
    (s : SpringAnimation.t) (e : Engine.t) :
  popmotion.done f = true ->
  id ∈ CALayerDriver.tickers (Engine.driver e) ->
  let s' := (SpringAnimation.playback_update id f s e).1 in
  let e' := (SpringAnimation.playback_update id f s e).2 in
  SpringAnimation.animating s' = false /\
  SpringAnimation.targetValue s' = None /\
  SpringAnimation.stopFunction s' = None /\
  SpringAnimation._value s' =
    (popmotion.latest f / SpringAnimation.scale s)%js /\
  Engine.driver e' = CALayerDriver.driver_stop id (Engine.driver e) /\
  Engine.playbacks e' = Engine.playbacks e.
Proof.
  intros Hd Hid. unfold SpringAnimation.playback_update. rewrite Hd.
  destruct (decide _) as [_|Hn]; [|contradiction].
  destruct s as [an tr [cb|] va tv ve sf sc pa]; destruct e as [d pb nt];
    spring_unfold; repeat split.
Qed.

(** X9.  When the solver reports that it has come to rest, the spring
    returns to idle: after [start] and any frames of a solver still moving,
    a final frame marked done leaves the value at the solver's last output
    (in the units of the spring), [animating] false, the target and the stop
    function cleared and the playback unsubscribed; a later tick of that
    playback changes nothing. *)
Theorem X9_spring_completion (now : Q) (target v : JS.number)
    (s : SpringAnimation.t) (e : Engine.t)
    (frames : list popmotion.Frame) (f f' : popmotion.Frame) :
  Forall (fun f => popmotion.done f = false) frames ->
  popmotion.done f = true ->
  let started := SpringAnimation.start now target v s e in
  let id := length (Engine.playbacks e) in
  let running := run_frames id frames started.1 started.2 in
  let completed := SpringAnimation.playback_update id f running.1 running.2 in
  SpringAnimation.animating completed.1 = false /\
  SpringAnimation.targetValue completed.1 = None /\
  SpringAnimation.stopFunction completed.1 = None /\
  SpringAnimation.value completed.1 =
    (popmotion.latest f / SpringAnimation.scale s)%js /\
  (id ∉ CALayerDriver.tickers (Engine.driver completed.2)) /\
  SpringAnimation.playback_update id f' completed.1 completed.2 = completed.
Proof.
  intros Hall Hdone started id running completed.
  destruct (start_fields now target v s e)
    as (_ & _ & _ & _ & _ & Hsc & Hid & _).
  fold started in Hsc, Hid. fold id in Hid.
  destruct (run_frames_running id frames started.1 started.2 Hall)
    as (_ & Hsc' & Hd').
  fold running in Hsc', Hd'.
  assert (Hid' : id ∈ CALayerDriver.tickers (Engine.driver running.2))
    by (rewrite Hd'; exact Hid).
  destruct (playback_update_done id f running.1 running.2 Hdone Hid')
    as (C1 & C2 & C3 & C4 & C5 & _).
  fold completed in C1, C2, C3, C4, C5.
  assert (Hout : id ∉ CALayerDriver.tickers (Engine.driver completed.2)).
  { rewrite C5. apply driver_stop_unsubscribes. }
  repeat split; try assumption.
  - unfold SpringAnimation.value. rewrite C4, Hsc', Hsc. reflexivity.
  - unfold SpringAnimation.playback_update.
    destruct (decide _) as [Hin|_]; [contradiction|].
    destruct completed; reflexivity.
Qed.

Lemma X9_spring_completion_witness :
  let started :=
    SpringAnimation.start 1 (8 # 10)%Q (-5)%Q (squish_spring 0)
      Engine.initial in
  let running :=
    run_frames 0 [popmotion.mkFrame 900%Q (-3000)%Q false]
      started.1 started.2 in
  let completed :=
    SpringAnimation.playback_update 0
      (popmotion.mkFrame 800%Q 0%Q true) running.1 running.2 in
  SpringAnimation.animating completed.1 = false /\
  SpringAnimation.targetValue completed.1 = None /\
  SpringAnimation.value completed.1 = (JS.Finite 800 / JS.Finite 1000)%js.
Proof.
  cbv zeta.
  destruct (X9_spring_completion 1 (JS.Finite (8 # 10)) (JS.Finite (-5))
              (squish_spring 0) Engine.initial
              [popmotion.mkFrame 900%Q (-3000)%Q false]
              (popmotion.mkFrame 800%Q 0%Q true)
              (popmotion.mkFrame 800%Q 0%Q true))
    as (H1 & H2 & _ & H4 & _).
  - repeat constructor.
  - reflexivity.
  - split; [exact H1|]. split; [exact H2 | exact H4].
Defined.

End SpringCompletion.

(* ===================================================================== *)
(** * Further properties of ball.ts *)
(* ===================================================================== *)

Section AnimateDrag.
Local Open Scope Q_scope.
Import motion.

(** An idle spring whose tracker holds at most its constructor's sample
    reads a velocity of zero. *)
Lemma constant_tracker_velocity (now : Q) (l : list Sample.t) :
  l = [] \/ (exists t : Q, l = [scalar_sample t 1]) ->
  let r := VelocityTracker.velocity now
             (VelocityTracker.mk l (JS.Finite (1 / 15))) in
  (exists q : Q, r.1 = JS.Finite q /\ q == 0) /\
  exists l', r.2 = VelocityTracker.mk l' (JS.Finite (1 / 15)) /\
             (l' = [] \/ exists t : Q, l' = [scalar_sample t 1]).
Proof.
  intros Hl. cbv zeta.
  set (k := VelocityTracker.mk l (JS.Finite (1 / 15))).
  assert (H2 : (VelocityTracker.velocity now k).2 =
               VelocityTracker.trim now k).
  { unfold VelocityTracker.velocity.
    destruct (_ !! _); [destruct (_ !! _); [destruct (_ >? _)%js|]|];
      reflexivity. }
  assert (Hret : retained now k = [] \/
                 exists t : Q, retained now k = [scalar_sample t 1]).
  { unfold retained, VelocityTracker.trim, k.
    cbn [VelocityTracker.samples VelocityTracker.lookBack].
    destruct Hl as [-> | [t ->]]; [left; reflexivity|].
    cbn [VelocityTracker.trim_loop]. destruct (_ >? _)%js; eauto. }
  split.
  - destruct Hret as [Hr | [t Hr]].
    + exists 0. split; [apply scalar_velocity_nil; exact Hr | reflexivity].
    + rewrite (scalar_velocity_cons now t 1 [] k Hr t 1 eq_refl).
      destruct (JS.Qltb 0 (now - t)) eqn:E.
      * apply Qltb_true in E. eexists. split; [reflexivity | field; lra].
      * exists 0. split; reflexivity.
  - rewrite H2. exists (retained now k). split; [reflexivity | exact Hret].
Qed.

Lemma at_rest_animateDrag (now : Q) (flag : bool)
    (be : Ball.t * Engine.t) :
  dragScale_at_rest be ->
  dragScale_at_rest (BallMethods.animateDrag now flag be.1 be.2).
Proof.
  destruct be as [b e]. cbn [fst snd].
  intros ((l & Htr & Hl) & Hv & Hsc & Hpb). cbn [fst snd] in *.
  unfold BallMethods.animateDrag. cbv zeta.
  destruct (Bool.eqb _ flag).
  { unfold dragScale_at_rest. cbn [fst snd].
    destruct b; cbn in *. eauto 10. }
  change (Ball.dragScale (BallMethods.set__beingDragged flag b))
    with (Ball.dragScale b).
  assert (Hread :
    exists (q : Q) (s' : SpringAnimation.t) l',
      SpringAnimation.velocity now (Ball.dragScale b) = (JS.Finite q, s') /\
      q == 0 /\
      SpringAnimation.externallySetVelocityTracker s' =
        VelocityTracker.mk l' (JS.Finite (1 / 15)) /\
      (l' = [] \/ exists t : Q, l' = [scalar_sample t 1]) /\
      SpringAnimation.scale s' = JS.Finite 1000 /\
      SpringAnimation._value s' = SpringAnimation._value (Ball.dragScale b) /\
      SpringAnimation.params s' = SpringAnimation.params (Ball.dragScale b)).
  { unfold SpringAnimation.velocity.
    destruct (SpringAnimation.animating (Ball.dragScale b)).
    - destruct (SpringAnimation._velocity (Ball.dragScale b)) as [v|] eqn:Ev.
      + specialize (Hv v eq_refl). destruct v as [q| | |]; try contradiction.
        exists q, (Ball.dragScale b), l. cbn [JS.nullish JS.eqv] in *.
        repeat split; auto.
      + exists 0, (Ball.dragScale b), l. cbn [JS.nullish].
        repeat split; auto.
    - rewrite Htr.
      destruct (constant_tracker_velocity now l Hl)
        as ((q & Hq & Hq0) & l' & Hl' & Hl'').
      destruct (VelocityTracker.velocity now _) as [v k].
      cbn [fst snd] in *. subst v k.
      exists q, (SpringAnimation.set_tracker
                   (VelocityTracker.mk l' (JS.Finite (1 / 15)))
                   (Ball.dragScale b)), l'.
      destruct (Ball.dragScale b); cbn in *. repeat split; auto. }
  destruct Hread as (q & s' & l' & -> & Hq & Htr' & Hl' & Hsc' & _).
  set (target := if flag then JS.Finite (105 # 100) else JS.Finite 1).
  pose proof (start_fields now target (JS.Finite q) s' e) as Hst.
  cbv zeta in Hst.
  destruct Hst as (_ & _ & Hvel & _ & _ & Hscale & _ & o & Ho & _ & _ & Hov & _).
  assert (Htrk : SpringAnimation.externallySetVelocityTracker
                   (SpringAnimation.start now target (JS.Finite q) s' e).1 =
                 SpringAnimation.externallySetVelocityTracker s').
  { destruct s' as [an tr oc va tv ve [sf|] sc pa]; spring_unfold;
      reflexivity. }
  assert (Hpb' : Engine.playbacks
                   (SpringAnimation.start now target (JS.Finite q) s' e).2 =
                 Engine.playbacks e ++ [o]).
  { revert Ho.
    destruct s' as [an tr oc va tv ve [sf|] sc pa]; spring_unfold;
      rewrite list_lookup_middle by reflexivity; intros [= <-];
      reflexivity. }
  destruct (SpringAnimation.start now target (JS.Finite q) s' e) as [s2 e2].
  cbn [fst snd] in *.
  unfold dragScale_at_rest. cbn [fst snd].
  change (Ball.dragScale (BallMethods.set_dragScale s2 _)) with s2.
  split; [exists l'; rewrite Htrk; auto|].
  split; [intros v; rewrite Hvel; intros [= <-]; exact Hq|].
  split; [rewrite Hscale; exact Hsc'|].
  rewrite Hpb'. apply Forall_app. split; [exact Hpb|].
  constructor; [|constructor]. rewrite Hov, Hsc'. cbn [JS.mul JS.eqv].
  rewrite Hq. ring.
Qed.

Lemma at_rest_tick (id : nat) (f : popmotion.Frame)
    (be : Ball.t * Engine.t) :
  dragScale_at_rest be ->
  dragScale_at_rest (dragScale_event (EvDragScaleTick id f) be).
Proof.
  destruct be as [b e]. intros ((l & Htr & Hl) & Hv & Hsc & Hpb).
  cbn [fst snd dragScale_event] in *.
  assert (H : let r := SpringAnimation.playback_update id f
                         (Ball.dragScale b) e in
              SpringAnimation.externallySetVelocityTracker r.1 =
                SpringAnimation.externallySetVelocityTracker
                  (Ball.dragScale b) /\
              SpringAnimation._velocity r.1 =
                SpringAnimation._velocity (Ball.dragScale b) /\
              SpringAnimation.scale r.1 =
                SpringAnimation.scale (Ball.dragScale b) /\
              Engine.playbacks r.2 = Engine.playbacks e).
  { unfold SpringAnimation.playback_update.
    destruct (Ball.dragScale b) as [an tr [cb|] va tv ve [sf|] sc pa];
      destruct e as [d pb nt];
      destruct (decide _); destruct (popmotion.done f);
      spring_unfold; repeat split. }
  cbv zeta in H. destruct H as (H1 & H2 & H3 & H4).
  destruct (SpringAnimation.playback_update id f (Ball.dragScale b) e)
    as [s' e'].
  cbn [fst snd] in *. unfold dragScale_at_rest. cbn [fst snd].
  change (Ball.dragScale (BallMethods.set_dragScale s' b)) with s'.
  rewrite H1, H2, H3, H4. eauto 10.
Qed.

(** X10.  [animateDrag] never hands the drag-scale spring a residual
    velocity.  On a ball as [Ball.create] makes it, after any run of
    [animateDrag] calls and ticks of the drag-scale playbacks, every
    playback created was started with velocity zero: while the spring
    animates, [velocity] is the number its previous [start] was given, and
    while it is idle, the tracker holds nothing but the constructor's
    sample. *)
Theorem X10_animateDrag_from_rest (now : Q) (radius : JS.number)
    (pos : CGPoint.t) (evs : list DragScaleEvent) :
  let be :=
    dragScale_run evs (Ball.create now radius pos Engine.initial) in
  Forall (fun o => popmotion.velocity o =n= JS.Finite 0)
    (Engine.playbacks be.2) /\
  forall v, SpringAnimation._velocity (Ball.dragScale be.1) = Some v ->
            v =n= JS.Finite 0.
Proof.
  intros be.
  assert (H : dragScale_at_rest be).
  { unfold be, dragScale_run.
    assert (H0 : dragScale_at_rest
                   (Ball.create now radius pos Engine.initial)).
    { destruct (fresh_spring_tracker now (JS.Finite 1) (JS.Finite 1000)
                  (SpringParams.new_ (2 # 10)%Q (8 # 10)%Q) Engine.initial)
        as [_ Htr].
      assert (Hnew : forall v sc pa e,
                (SpringAnimation.new_ now v sc pa e).2 = e /\
                SpringAnimation._velocity
                  (SpringAnimation.new_ now v sc pa e).1 = None /\
                SpringAnimation.scale
                  (SpringAnimation.new_ now v sc pa e).1 = sc).
      { intros v sc pa e. unfold SpringAnimation.new_,
          SpringAnimation.set_value. spring_unfold. repeat split. }
      unfold dragScale_at_rest, Ball.create, Ball.new_.
      destruct (Hnew (JS.Finite 1) (JS.Finite 1000)
                  (SpringParams.new_ (2 # 10)%Q (8 # 10)%Q) Engine.initial)
        as (He & Hv & Hsc).
      destruct (SpringAnimation.new_ now 1%Q 1000%Q
                  (SpringParams.new_ (2 # 10)%Q (8 # 10)%Q) Engine.initial)
        as [d e1].
      cbn [fst snd] in *. subst e1.
      destruct (Hnew (JS.Finite 1) (JS.Finite 1000)
                  (SpringParams.new_ (3 # 10)%Q (5 # 10)%Q) Engine.initial)
        as (He & _).
      destruct (SpringAnimation.new_ now 1%Q 1000%Q
                  (SpringParams.new_ (3 # 10)%Q (5 # 10)%Q) Engine.initial)
        as [sq e2].
      cbn [fst snd] in *. subst e2.
      cbn [Ball.dragScale Engine.playbacks Engine.initial].
      split; [|split; [|split]].
      - eexists. split; [exact Htr|]. right. exists now. reflexivity.
      - intros v H. rewrite Hv in H. discriminate.
      - exact Hsc.
      - constructor. }
    revert H0. generalize (Ball.create now radius pos Engine.initial).
    induction evs as [|ev evs IH]; intros be0 H0; [exact H0|].
    cbn [fold_left]. apply IH. destruct ev.
    - apply at_rest_animateDrag. exact H0.
    - apply at_rest_tick. exact H0. }
  destruct H as (_ & Hv & _ & Hpb). split; assumption.
Qed.

Example animateDrag_twice :
  let be := Ball.create 0 RADIUS CGPointZero Engine.initial in
  let once := BallMethods.animateDrag 1 true be.1 be.2 in
  BallMethods.animateDrag 2 true once.1 once.2 = once /\
  SpringAnimation.targetValue (Ball.dragScale once.1) =
    Some (JS.Finite (105 # 100)).
Proof. vm_compute. split; reflexivity. Qed.

End AnimateDrag.

Section BallUpdate.
Local Open Scope Q_scope.

(** X11.  [update()] on a ball of finite position and radius.  The shadow's
    opacity is a number between 0 and 1: it is 1 while the bottom of the
    ball is at or below height zero, 0 from height 200 on, and falls
    linearly in between.  The image container takes the squish value as its
    scale, but its offset is computed from the scale it had before the
    call, so the offset follows the squish value one call late; a third
    call with the springs unchanged changes nothing. *)
Theorem X11_ball_update (px py r xs : Q) (b : Ball.t) (v : BallView.t) :
  Ball.position b = CGPoint.mk px py ->
  Ball.radius b = JS.Finite r ->
  BallView.imgContainer_xScale v = JS.Finite xs ->
  let once := BallMethods.update b v in
  let twice := BallMethods.update once.1 once.2 in
  (exists a : Q,
     Ball.shadowSprite_alpha once.1 = JS.Finite a /\
     0 <= a <= 1 /\
     (py - r <= 0 -> a == 1) /\
     (200 <= py - r -> a == 0) /\
     (0 <= py - r <= 200 -> a == 1 - (py - r) / 200)) /\
  BallView.imgContainer_xScale once.2 =
    motion.SpringAnimation.value (Ball.squish b) /\
  BallView.imgNode_scale once.2 =
    motion.SpringAnimation.value (Ball.dragScale b) /\
  BallView.imgContainer_position once.2 =
    CGPoint.mk 0 (JS.Finite (- (1 - xs) * r / 2)) /\
  (forall sq : Q,
     motion.SpringAnimation.value (Ball.squish b) = JS.Finite sq ->
     BallView.imgContainer_position twice.2 =
       CGPoint.mk 0 (JS.Finite (- (1 - sq) * r / 2))) /\
  BallMethods.update twice.1 twice.2 = twice.
Proof.
  intros Hp Hr Hx once twice.
  destruct (remap_clamped_spec (py - r) 0 200 1 0)
    as (a & Ha & _ & Hrange & Hlin & _ & _ & Hlo & Hhi & _);
    [discriminate|].
  assert (Hy : forall (b0 : Ball.t) (v0 : BallView.t) (s : Q),
            Ball.radius b0 = JS.Finite r ->
            BallView.imgContainer_xScale v0 = JS.Finite s ->
            BallView.imgContainer_position (BallMethods.update b0 v0).2 =
              CGPoint.mk 0 (JS.Finite (- (1 - s) * r / 2))).
  { intros b0 v0 s Hr0 Hs0. unfold BallMethods.update. cbv zeta.
    cbn [snd BallView.imgContainer_position].
    change (Ball.radius (BallMethods.set_shadowSprite_alpha _ b0))
      with (Ball.radius b0).
    rewrite Hr0, Hs0. js_arith. rewrite div_finite by discriminate.
    reflexivity. }
  split; [|split; [|split; [|split; [|split]]]].
  - exists a. split.
    + unfold once, BallMethods.update. cbv zeta.
      cbn [fst BallMethods.set_shadowSprite_alpha Ball.shadowSprite_alpha].
      rewrite Hp, Hr. cbn [CGPoint.y]. js_arith. exact Ha.
    + split; [apply Hrange; discriminate|].
      split; [|split].
      * intros H. apply Hhi; [discriminate | qlra].
      * intros H. apply Hlo; [discriminate | qlra].
      * intros H. rewrite Hlin by (right; qlra). qlra.
  - reflexivity.
  - reflexivity.
  - apply Hy; assumption.
  - intros sq Hsq. unfold twice. apply Hy.
    + unfold once, BallMethods.update. cbv zeta. cbn [fst]. exact Hr.
    + unfold once, BallMethods.update. cbv zeta.
      cbn [snd BallView.imgContainer_xScale]. exact Hsq.
  - unfold twice, once, BallMethods.update. cbv zeta.
    destruct b; reflexivity.
Qed.

Lemma X11_ball_update_witness :
  let b := (Ball.create 0 RADIUS (CGPoint.mk 50 150) motion.Engine.initial).1 in
  let once := BallMethods.update b BallView.initial in
  exists a : Q,
    Ball.shadowSprite_alpha once.1 = JS.Finite a /\ a == 3 # 4.
Proof.
  cbv zeta.
  destruct (X11_ball_update 50 150 100 1
              (Ball.create 0 RADIUS (CGPoint.mk 50 150)
                 motion.Engine.initial).1
              BallView.initial)
    as ((a & Ha & _ & _ & _ & Hlin) & _); try reflexivity.
  exists a. split; [exact Ha|]. rewrite Hlin; [reflexivity|].
  split; discriminate.
Defined.

End BallUpdate.

(* ===================================================================== *)
(** * Further properties of view_controller.ts *)
(* ===================================================================== *)

Section PointWindow.
Local Open Scope Q_scope.
Import view_controller.

Lemma filter_all {A : Type} (f : A -> bool) (l : list A) :
  Forall (fun a => f a = true) l -> List.filter f l = l.
Proof.
  induction 1 as [|a l Ha _ IH]; [reflexivity|].
  cbn [List.filter]. rewrite Ha, IH. reflexivity.
Qed.

Lemma point_window_spec (now : Q) (pos : CGPoint.t)
    (k : VelocityTracker.t) :
  let k' := VelocityTracker.add now pos k in
  let young (s : Sample.t) :=
    (JS.Finite now - Sample.time s <? JS.Finite (1 # 10))%js in
  VelocityTracker.samples k' =
    List.filter young (VelocityTracker.samples k) ++ [Sample.mk now pos] /\
  Forall (fun s => young s = true) (VelocityTracker.samples k').
Proof.
  intros k' young.
  assert (Hnew : young (Sample.mk now pos) = true).
  { unfold young. cbn [Sample.time]. js_arith. apply Qltb_true.
    assert (0 < 1 # 10) by reflexivity. lra. }
  assert (Heq : VelocityTracker.samples k' =
                List.filter young (VelocityTracker.samples k)
                  ++ [Sample.mk now pos]).
  { unfold k', VelocityTracker.add, VelocityTracker.filteredSamples.
    cbn [VelocityTracker.samples]. fold young.
    rewrite List.filter_app. cbn [List.filter]. rewrite Hnew. reflexivity. }
  split; [exact Heq|].
  rewrite Heq. apply Forall_app. split.
  - apply Forall_forall. intros s Hs. apply list_elem_of_In in Hs.
    apply List.filter_In in Hs. tauto.
  - constructor; [exact Hnew | constructor].
Qed.

(** X12.  After [add(pos)] the point tracker holds exactly the samples it
    held before that are younger than 0.1 at the time of the call, in
    order, followed by the new sample; so every sample it holds is younger
    than 0.1, the new sample is the last, and filtering again at the same
    time changes nothing. *)
Theorem X12_point_window (now : Q) (pos : CGPoint.t)
    (k : VelocityTracker.t) :
  let k' := VelocityTracker.add now pos k in
  let young (s : Sample.t) :=
    (JS.Finite now - Sample.time s <? JS.Finite (1 # 10))%js in
  VelocityTracker.samples k' =
    List.filter young (VelocityTracker.samples k) ++ [Sample.mk now pos] /\
  Forall (fun s => young s = true) (VelocityTracker.samples k') /\
  last (VelocityTracker.samples k') = Some (Sample.mk now pos) /\
  VelocityTracker.filteredSamples now k' = VelocityTracker.samples k'.
Proof.
  intros k' young.
  destruct (point_window_spec now pos k) as [Heq Hall].
  fold k' in Heq, Hall. fold young in Heq, Hall.
  split; [exact Heq|]. split; [exact Hall|]. split.
  - rewrite Heq. apply last_snoc.
  - unfold VelocityTracker.filteredSamples. apply filter_all. exact Hall.
Qed.

End PointWindow.

Section DragSetter.
Local Open Scope Q_scope.
Import view_controller.

Lemma set_dragState_holds (value : option DragState.t) (ball : nat)
    (imps : list CGVector.t) (b : Ball.t) (p : SKPhysicsBody.t)
    (c : Dragging.t) (w : World.t) :
  ViewController.ball (Dragging.controller c) = Some ball ->
  World.balls w !! ball = Some b ->
  Ball.physicsBody b = Some p ->
  exists (w' : World.t) (b' : Ball.t),
    Dragging.set_dragState value c w =
      Some (Dragging.mk (Dragging.controller c) value (Dragging.bounds c),
            w') /\
    World.balls w' !! ball = Some b' /\
    Ball.physicsBody b' =
      Some (Dragging.set_isDynamic (negb (bool_decide (is_Some value))) p) /\
    Ball.radius b' = Ball.radius b /\
    Ball.position b' =
      match value with
      | Some d =>
          Dragging.constrained_position d (Ball.radius b) (Dragging.bounds c)
      | None => Ball.position b
      end /\
    length (World.balls w') = length (World.balls w).
Proof.
  intros Hball Hb Hp. unfold Dragging.set_dragState. cbv zeta.
  cbn [Dragging.controller Dragging.bounds]. rewrite Hball.
  assert (Hlt : (ball < length (World.balls w))%nat)
    by (eapply lookup_lt_Some; exact Hb).
  destruct value as [d|]; rewrite Hb; cbn [mbind option_bind]; rewrite Hp;
    cbn [mbind option_bind]; eexists _, _;
    (split; [reflexivity|]); vc_unfold;
    rewrite list_lookup_insert_eq by exact Hlt;
    (split; [reflexivity|]);
    rewrite length_insert; destruct b; cbn in *; repeat split.
Qed.

(** The clamped centre on one axis: the centre of the constrained
    square. *)
Lemma constrained_axis_centre (p r bp be : Q) :
  0 <= r -> 2 * r <= be ->
  let x := constrain_axis (p - r) (r * 2) bp be + r * 2 / 2 in
  (p - r < bp -> x == bp + r) /\
  (bp <= p - r -> bp + be < p + r -> x == bp + be - r) /\
  (bp + r <= p <= bp + be - r -> x == p).
Proof.
  intros Hr Hfit x. unfold x. split; [|split].
  - intros Hn.
    destruct (constrain_axis_near (p - r) (r * 2) bp be) as [-> _];
      [lra | lra |]. field.
  - intros Hn Hf.
    rewrite (constrain_axis_far (p - r) (r * 2) bp be) by lra. field.
  - intros Hin. rewrite constrain_axis_inside by lra. field.
Qed.

(** X13.  Assigning a drag state to a controller that holds a ball with a
    body makes the body non-dynamic and moves the ball, axis by axis: to
    the drag state's ball position
    [ballStart + (currentMousePos - mouseStart)] where the ball lies within
    the view's bounds there, so that the ball follows the pointer; to
    [bounds.min + radius] where it would stick out over the near edge; and
    to [bounds.max - radius] where it would stick out over the far edge.
    Assigning undefined makes the body dynamic again and leaves the
    position.  Neither touches the impulses the body has received. *)
Theorem X13_set_dragState (ball : nat) (b : Ball.t) (p : SKPhysicsBody.t)
    (c : Dragging.t) (w : World.t) (d : DragState.t)
    (r sx sy mx my cx cy bx by_ bw bh : Q) :
  ViewController.ball (Dragging.controller c) = Some ball ->
  World.balls w !! ball = Some b ->
  Ball.physicsBody b = Some p ->
  Ball.radius b = JS.Finite r ->
  DragState.ballStart d = CGPoint.mk sx sy ->
  DragState.mouseStart d = CGPoint.mk mx my ->
  DragState.currentMousePos d = CGPoint.mk cx cy ->
  Dragging.bounds c = rect_of bx by_ bw bh ->
  0 <= r -> 2 * r <= bw -> 2 * r <= bh ->
  (exists (c' : Dragging.t) (w' : World.t) (b' : Ball.t) (x y : Q),
     Dragging.set_dragState (Some d) c w = Some (c', w') /\
     Dragging._dragState c' = Some d /\
     World.balls w' !! ball = Some b' /\
     Ball.physicsBody b' = Some (Dragging.set_isDynamic false p) /\
     Ball.position b' = CGPoint.mk x y /\
     (bx + r <= sx + (cx - mx) <= bx + bw - r -> x == sx + (cx - mx)) /\
     (by_ + r <= sy + (cy - my) <= by_ + bh - r -> y == sy + (cy - my)) /\
     (sx + (cx - mx) - r < bx -> x == bx + r) /\
     (sy + (cy - my) - r < by_ -> y == by_ + r) /\
     (bx <= sx + (cx - mx) - r -> bx + bw < sx + (cx - mx) + r ->
      x == bx + bw - r) /\
     (by_ <= sy + (cy - my) - r -> by_ + bh < sy + (cy - my) + r ->
      y == by_ + bh - r))
  /\
  (exists (c' : Dragging.t) (w' : World.t) (b' : Ball.t),
     Dragging.set_dragState None c w = Some (c', w') /\
     Dragging._dragState c' = None /\
     World.balls w' !! ball = Some b' /\
     Ball.physicsBody b' = Some (Dragging.set_isDynamic true p) /\
     Ball.position b' = Ball.position b).
Proof.
  intros Hball Hb Hp Hr Hs Hm Hc Hbd Hr0 Hfw Hfh. split.
  - destruct (set_dragState_holds (Some d) ball (SKPhysicsBody.impulses p)
                b p c w Hball Hb Hp)
      as (w' & b' & Heq & Hb' & Hp' & _ & Hpos & _).
    assert (Hcp : Dragging.constrained_position d (Ball.radius b)
                    (Dragging.bounds c) =
                  CGPoint.mk
                    (JS.Finite (constrain_axis (sx + (cx - mx) - r) (r * 2)
                                  bx bw + r * 2 / 2))
                    (JS.Finite (constrain_axis (sy + (cy - my) - r) (r * 2)
                                  by_ bh + r * 2 / 2))).
    { unfold Dragging.constrained_position, DragState.currentBallPos.
      cbv zeta. rewrite Hr, Hs, Hm, Hc, Hbd. cbn [CGPoint.x CGPoint.y].
      js_arith.
      change (CGRect.mk (CGPoint.mk (JS.Finite ?a) (JS.Finite ?b))
                (CGSize.mk (JS.Finite ?c) (JS.Finite ?d)))
        with (rect_of a b c d).
      rewrite constrainRect_axes by lra.
      unfold CGRectGetMidX, CGRectGetMidY, rect_of.
      cbn [CGRect.origin CGRect.size CGPoint.x CGPoint.y CGSize.width
           CGSize.height].
      rewrite !div_finite by discriminate. reflexivity. }
    rewrite Hcp in Hpos.
    destruct (constrained_axis_centre (sx + (cx - mx)) r bx bw Hr0 Hfw)
      as (X1 & X2 & X3).
    destruct (constrained_axis_centre (sy + (cy - my)) r by_ bh Hr0 Hfh)
      as (Y1 & Y2 & Y3).
    eexists _, w', b', _, _. split; [exact Heq|].
    split; [reflexivity|]. split; [exact Hb'|]. split; [exact Hp'|].
    split; [exact Hpos|]. repeat split; assumption.
  - destruct (set_dragState_holds None ball (SKPhysicsBody.impulses p)
                b p c w Hball Hb Hp)
      as (w' & b' & Heq & Hb' & Hp' & _ & Hpos & _).
    eexists _, w', b'. split; [exact Heq|]. split; [reflexivity|]. auto.
Qed.

Lemma X13_set_dragState_witness :
  let d :=
    DragState.new_ (CGPoint.mk 725%Q 35%Q) (CGPoint.mk 0%Q 0%Q)
      (CGPoint.mk 10%Q 500%Q) in
  exists (c' : Dragging.t) (w' : World.t) (b' : Ball.t) (x y : Q),
    Dragging.set_dragState (Some d) example_controller example_world =
      Some (c', w') /\
    World.balls w' !! 0%nat = Some b' /\
    Ball.position b' = CGPoint.mk x y /\
    x == 735 /\ y == 535.
Proof.
  cbv zeta.
  destruct (X13_set_dragState 0 example_ball example_body
              example_controller example_world
              (DragState.new_ (CGPoint.mk 725%Q 35%Q) (CGPoint.mk 0%Q 0%Q)
                 (CGPoint.mk 10%Q 500%Q))
              100 725 35 0 0 10 500 0 0 1440 900)
    as [(c' & w' & b' & x & y & Heq & _ & Hb & _ & Hpos & Hx & Hy & _) _];
    try reflexivity; try discriminate.
  exists c', w', b', x, y. split; [exact Heq|]. split; [exact Hb|].
  split; [exact Hpos|]. split.
  - rewrite Hx; [reflexivity | split; discriminate].
  - rewrite Hy; [reflexivity | split; discriminate].
Defined.

End DragSetter.

Section Release.
Local Open Scope Q_scope.
Import view_controller.

Variable Math_sqrt : JS.number -> JS.number.
Hypothesis Math_sqrt_signs : sqrt_signs Math_sqrt.

Lemma holds_set_dragState (value : option DragState.t) (ball : nat)
    (imps : list CGVector.t) (c : Dragging.t) (w : World.t) :
  holds_ball ball imps c w ->
  exists w' : World.t,
    Dragging.set_dragState value c w =
      Some (Dragging.mk (Dragging.controller c) value (Dragging.bounds c),
            w') /\
    holds_ball ball imps
      (Dragging.mk (Dragging.controller c) value (Dragging.bounds c)) w' /\
    (SKPhysicsBody.isDynamic <$> body_of ball w') =
      Some (negb (bool_decide (is_Some value))).
Proof.
  intros (Hball & b & p & Hb & Hp & Hi).
  destruct (set_dragState_holds value ball imps b p c w Hball Hb Hp)
    as (w' & b' & Heq & Hb' & Hp' & _).
  exists w'. split; [exact Heq|]. split.
  - split; [exact Hball|]. eexists b', _. split; [exact Hb'|].
    split; [exact Hp'|]. subst imps. destruct p; reflexivity.
  - unfold body_of. rewrite Hb'. cbn [mbind option_bind]. rewrite Hp'.
    reflexivity.
Qed.

Lemma Qeq_bool_cases (a b : Q) :
  (a == b /\ Qeq_bool a b = true) \/ (~ a == b /\ Qeq_bool a b = false).
Proof.
  destruct (Qeq_dec a b) as [H | H].
  - left. split; [exact H | apply Qeq_bool_iff; exact H].
  - right. split; [exact H|].
    destruct (Qeq_bool a b) eqn:E; [|reflexivity].
    apply Qeq_bool_iff in E. contradiction.
Qed.

(** The length test of [onMouseUp] on a finite velocity. *)
Lemma length_positive (vx vy : Q) :
  (Dragging.CGPointGetLength Math_sqrt (CGPoint.mk vx vy) >? 0%Q)%js =
    negb (Qeq_bool vx 0 && Qeq_bool vy 0).
Proof.
  unfold Dragging.CGPointGetLength. cbn [CGPoint.x CGPoint.y]. js_arith.
  destruct (Math_sqrt_signs (vx * vx + vy * vy)) as (r & -> & Hr & Hz);
    [nra|].
  unfold JS.gt. cbn [JS.lt].
  destruct (Qeq_bool_cases vx 0) as [[Ex ->] | [Ex ->]];
    destruct (Qeq_bool_cases vy 0) as [[Ey ->] | [Ey ->]];
    cbn [andb negb].
  - apply Qltb_false. assert (r == 0) by (apply Hz; nra). lra.
  - apply Qltb_true. assert (~ r == 0) by (rewrite Hz; nra). lra.
  - apply Qltb_true. assert (~ r == 0) by (rewrite Hz; nra). lra.
  - apply Qltb_true. assert (~ r == 0) by (rewrite Hz; nra). lra.
Qed.

(** [onMouseUp] on a controller that holds a ball with a body and whose
    drag state has tracked the finite velocity [(vx, vy)]. *)
Lemma onMouseUp_holds (now vx vy : Q) (d : DragState.t) (ball : nat)
    (imps : list CGVector.t) (c : Dragging.t) (w : World.t) :
  holds_ball ball imps c w ->
  Dragging._dragState c = Some d ->
  VelocityTracker.velocity now (DragState.velocityTracker d) =
    CGPoint.mk vx vy ->
  exists (c' : Dragging.t) (w' : World.t),
    Dragging.onMouseUp Math_sqrt now c w = Some (c', w') /\
    Dragging._dragState c' = None /\
    holds_ball ball
      (if Qeq_bool vx 0 && Qeq_bool vy 0 then imps
       else imps ++ [CGVector.mk vx vy]) c' w' /\
    (SKPhysicsBody.isDynamic <$> body_of ball w') = Some true.
Proof.
  intros Hh Hd Hv. unfold Dragging.onMouseUp. rewrite Hd, Hv.
  destruct (holds_set_dragState None ball imps c w Hh)
    as (w1 & -> & Hh1 & Hdyn).
  cbn [mbind option_bind]. rewrite length_positive.
  cbn [Dragging.controller CGPoint.x CGPoint.y].
  destruct (Qeq_bool vx 0 && Qeq_bool vy 0); cbn [negb].
  - eexists _, _. split; [reflexivity|]. split; [reflexivity|]. auto.
  - destruct Hh1 as (Hball & b & p & Hb & Hp & Hi).
    cbn [Dragging.controller] in Hball. rewrite Hball.
    eexists _, _. split; [reflexivity|]. split; [reflexivity|].
    assert (Hb' : World.balls
                    (World.update ball
                       (fun b0 =>
                          Ball.set_physicsBody
                            (SKPhysicsBody.applyImpulse
                               (CGVector.mk vx vy) <$> Ball.physicsBody b0)
                            b0) w1) !! ball =
                  Some (Ball.set_physicsBody
                          (Some (SKPhysicsBody.applyImpulse
                                   (CGVector.mk vx vy) p)) b)).
    { vc_unfold. rewrite list_lookup_alter_eq, Hb. cbn. rewrite Hp.
      reflexivity. }
    split.
    + split; [exact Hball|]. eexists _, _. split; [exact Hb'|].
      split; [reflexivity|]. cbn. rewrite Hi. reflexivity.
    + unfold body_of in *. rewrite Hb'. rewrite Hb in Hdyn.
      cbn in *. rewrite Hp in Hdyn. cbn in Hdyn. exact Hdyn.
Qed.

Lemma onMouseDrag_holds (now : Q) (pos : CGPoint.t) (d : DragState.t)
    (ball : nat) (imps : list CGVector.t) (c : Dragging.t) (w : World.t) :
  holds_ball ball imps c w ->
  Dragging._dragState c = Some d ->
  exists (c' : Dragging.t) (w' : World.t) (d' : DragState.t),
    Dragging.onMouseDrag now pos c w = Some (c', w') /\
    Dragging._dragState c' = Some d' /\
    DragState.velocityTracker d' =
      VelocityTracker.add now pos (DragState.velocityTracker d) /\
    holds_ball ball imps c' w'.
Proof.
  intros Hh Hd. unfold Dragging.onMouseDrag. rewrite Hd. cbv zeta.
  cbn [DragState.velocityTracker DragState.currentMousePos
       DragState.ballStart DragState.mouseStart].
  destruct (holds_set_dragState
              (Some (DragState.mk
                       (VelocityTracker.add now pos
                          (DragState.velocityTracker d))
                       (DragState.ballStart d) (DragState.mouseStart d) pos))
              ball imps c w Hh) as (w1 & -> & Hh1 & _).
  eexists _, _, _. split; [reflexivity|]. split; [reflexivity|].
  split; [reflexivity | exact Hh1].
Qed.

Lemma onMouseDown_holds (pos : CGPoint.t) (ball : nat)
    (imps : list CGVector.t) (c : Dragging.t) (w : World.t) :
  holds_ball ball imps c w ->
  exists (c' : Dragging.t) (w' : World.t) (d' : DragState.t),
    Dragging.onMouseDown pos true c w = Some (c', w') /\
    Dragging._dragState c' = Some d' /\
    DragState.velocityTracker d' = VelocityTracker.new_ /\
    holds_ball ball imps c' w'.
Proof.
  intros Hh. pose proof Hh as (Hball & b & p & Hb & _).
  unfold Dragging.onMouseDown. rewrite Hball, Hb. cbn [mbind option_bind].
  destruct (holds_set_dragState
              (Some (DragState.new_ (Ball.position b) pos pos))
              ball imps c w Hh) as (w1 & -> & Hh1 & _).
  eexists _, _, _. split; [reflexivity|]. split; [reflexivity|].
  split; [reflexivity | exact Hh1].
Qed.

(** X14.  Drag, then release.  On a controller that holds a ball with a
    body: a press on the ball, two drag events at [t1 < t2] to the points
    [p1] and [p2], and a release at [t3], all within 0.1 of [t1], end with
    no drag state, the body dynamic again, and one more impulse on the body,
    [(p2 - p1) / (t2 - t1)] on each axis, unless the two points are equal,
    in which case no impulse is applied.  A press, a single drag event and a
    release apply no impulse either: one sample gives no velocity. *)
Theorem X14_drag_release (ball : nat) (imps : list CGVector.t)
    (c : Dragging.t) (w : World.t) (p0 : CGPoint.t)
    (t1 t2 t3 x1 y1 x2 y2 : Q) :
  holds_ball ball imps c w ->
  t1 < t2 -> t2 <= t3 -> t3 - t1 < 1 # 10 ->
  (exists (c' : Dragging.t) (w' : World.t),
     mouse_run Math_sqrt
       [MouseDown p0 true; MouseDrag t1 (CGPoint.mk x1 y1);
        MouseDrag t2 (CGPoint.mk x2 y2); MouseUp t3] (c, w) =
       Some (c', w') /\
     Dragging._dragState c' = None /\
     (SKPhysicsBody.isDynamic <$> body_of ball w') = Some true /\
     holds_ball ball
       (if Qeq_bool x1 x2 && Qeq_bool y1 y2 then imps
        else imps ++ [CGVector.mk (JS.Finite ((x2 - x1) / (t2 - t1)))
                                  (JS.Finite ((y2 - y1) / (t2 - t1)))])
       c' w')
  /\
  (exists (c' : Dragging.t) (w' : World.t),
     mouse_run Math_sqrt
       [MouseDown p0 true; MouseDrag t1 (CGPoint.mk x1 y1); MouseUp t3]
       (c, w) = Some (c', w') /\
     Dragging._dragState c' = None /\
     holds_ball ball imps c' w').
Proof.
  intros Hh H12 H23 H31.
  destruct (onMouseDown_holds p0 ball imps c w Hh)
    as (c1 & w1 & d1 & E1 & Hd1 & Ht1 & Hh1).
  destruct (onMouseDrag_holds t1 (CGPoint.mk x1 y1) d1 ball imps c1 w1
              Hh1 Hd1) as (c2 & w2 & d2 & E2 & Hd2 & Ht2 & Hh2).
  assert (Hs2 : VelocityTracker.samples (DragState.velocityTracker d2) =
                [point_sample t1 x1 y1]).
  { rewrite Ht2, Ht1.
    destruct (point_window_spec t1 (CGPoint.mk x1 y1)
                VelocityTracker.new_) as [-> _]. reflexivity. }
  split.
  - destruct (onMouseDrag_holds t2 (CGPoint.mk x2 y2) d2 ball imps c2 w2
                Hh2 Hd2) as (c3 & w3 & d3 & E3 & Hd3 & Ht3 & Hh3).
    assert (Hs3 : VelocityTracker.samples (DragState.velocityTracker d3) =
                  [point_sample t1 x1 y1; point_sample t2 x2 y2]).
    { rewrite Ht3.
      destruct (point_window_spec t2 (CGPoint.mk x2 y2)
                  (DragState.velocityTracker d2)) as [-> _].
      rewrite Hs2. cbn [List.filter point_sample Sample.time]. js_arith.
      replace (JS.Qltb (t2 + - t1) (1 # 10)) with true
        by (symmetry; apply Qltb_true; lra).
      reflexivity. }
    assert (Hf3 : VelocityTracker.filteredSamples t3
                    (DragState.velocityTracker d3) =
                  [point_sample t1 x1 y1; point_sample t2 x2 y2]).
    { unfold VelocityTracker.filteredSamples. rewrite Hs3.
      cbn [List.filter point_sample Sample.time]. js_arith.
      replace (JS.Qltb (t3 + - t1) (1 # 10)) with true
        by (symmetry; apply Qltb_true; lra).
      replace (JS.Qltb (t3 + - t2) (1 # 10)) with true
        by (symmetry; apply Qltb_true; lra).
      reflexivity. }
    pose proof (point_velocity_distinct t3 t1 x1 y1 t2 x2 y2 _ []
                  (DragState.velocityTracker d3) Hf3 eq_refl
                  ltac:(lra)) as Hv.
    destruct (onMouseUp_holds t3 _ _ d3 ball imps c3 w3 Hh3 Hd3 Hv)
      as (c4 & w4 & E4 & Hd4 & Hh4 & Hdyn).
    exists c4, w4. split.
    { cbn [mouse_run mouse_event fst snd]. rewrite E1.
      cbn [mouse_run mouse_event fst snd]. rewrite E2.
      cbn [mouse_run mouse_event fst snd]. rewrite E3.
      cbn [mouse_run mouse_event fst snd]. rewrite E4. reflexivity. }
    split; [exact Hd4|]. split; [exact Hdyn|].
    assert (Hq : forall a b : Q,
               Qeq_bool ((b - a) / (t2 - t1)) 0 = Qeq_bool a b).
    { intros a b.
      assert (Hm : (b - a) / (t2 - t1) * (t2 - t1) == b - a)
        by (field; lra).
      destruct (Qeq_bool_cases a b) as [[E ->] | [E ->]].
      - apply Qeq_bool_iff. rewrite E. field. lra.
      - destruct (Qeq_bool_cases ((b - a) / (t2 - t1)) 0)
          as [[E' _] | [_ ->]]; [|reflexivity].
        exfalso. apply E. rewrite E' in Hm. lra. }
    pose proof (Hq x1 x2) as Hx. pose proof (Hq y1 y2) as Hy.
    rewrite Hx, Hy in Hh4. exact Hh4.
  - assert (Hv : VelocityTracker.velocity t3 (DragState.velocityTracker d2) =
                 CGPoint.mk 0 0).
    { apply point_velocity_short. unfold VelocityTracker.filteredSamples.
      rewrite Hs2. cbn [List.filter]. destruct (_ <? _)%js; cbn; lia. }
    destruct (onMouseUp_holds t3 0 0 d2 ball imps c2 w2 Hh2 Hd2 Hv)
      as (c4 & w4 & E4 & Hd4 & Hh4 & _).
    exists c4, w4. split.
    { cbn [mouse_run mouse_event fst snd]. rewrite E1.
      cbn [mouse_run mouse_event fst snd]. rewrite E2.
      cbn [mouse_run mouse_event fst snd]. rewrite E4. reflexivity. }
    split; [exact Hd4 | exact Hh4].
Qed.

End Release.

Lemma sqrt_stand_in_signs : sqrt_signs sqrt_stand_in.
Proof.
  intros q Hq. unfold sqrt_stand_in.
  destruct (JS.Qltb 0 q) eqn:E.
  - apply Qltb_true in E. exists q. split; [reflexivity|].
    split; [exact Hq | tauto].
  - apply Qltb_false in E. exists 0%Q. split; [reflexivity|].
    split; [apply Qle_refl|]. split; intros _; [lra | reflexivity].
Qed.

Lemma example_holds_ball :
  holds_ball 0 [] example_controller example_world.
Proof.
  split; [reflexivity|].
  exists example_ball, example_body. repeat split; reflexivity.
Qed.

Lemma X14_drag_release_witness :
  exists (c' : Dragging.t) (w' : view_controller.World.t),
    mouse_run sqrt_stand_in
      [MouseDown (CGPoint.mk 725%Q 35%Q) true;
       MouseDrag 1%Q (CGPoint.mk 730%Q 40%Q);
       MouseDrag (21 # 20)%Q (CGPoint.mk 740%Q 60%Q);
       MouseUp (107 # 100)%Q] (example_controller, example_world) =
      Some (c', w') /\
    Dragging._dragState c' = None /\
    holds_ball 0
      [CGVector.mk (JS.Finite ((740 - 730) / ((21 # 20) - 1))%Q)
                   (JS.Finite ((60 - 40) / ((21 # 20) - 1))%Q)] c' w'.
Proof.
  destruct (X14_drag_release sqrt_stand_in sqrt_stand_in_signs 0 []
              example_controller example_world (CGPoint.mk 725%Q 35%Q)
              1%Q (21 # 20)%Q (107 # 100)%Q 730%Q 40%Q 740%Q 60%Q
              example_holds_ball eq_refl ltac:(discriminate) eq_refl)
    as [(c' & w' & Hrun & Hd & _ & Hh) _].
  exists c', w'. split; [exact Hrun|]. split; [exact Hd | exact Hh].
Defined.

Section PhysicsStep.
Import view_controller.

Lemma apply_all_impulses (l : list CGVector.t) (p : SKPhysicsBody.t) :
  SKPhysicsBody.impulses (apply_all l p) = SKPhysicsBody.impulses p ++ l.
Proof.
  revert p. induction l as [|i l IH]; intros p; cbn [apply_all foldl].
  - rewrite app_nil_r. reflexivity.
  - fold (apply_all l (SKPhysicsBody.applyImpulse i p)). rewrite IH.
    cbn [SKPhysicsBody.applyImpulse SKPhysicsBody.impulses].
    rewrite <- app_assoc. reflexivity.
Qed.

(** One closure of the queue, called on a store where its ball has a
    body. *)
Lemma run_callback_body (ball : nat) (impulse : CGVector.t)
    (p : SKPhysicsBody.t) (w : World.t) :
  body_of ball w = Some p ->
  exists w' : World.t,
    ViewController.run_callback (ApplyImpulse ball impulse) w = Some w' /\
    body_of ball w' = Some (SKPhysicsBody.applyImpulse impulse p) /\
    (forall r, r <> ball -> body_of r w' = body_of r w) /\
    World.engine w' = World.engine w /\
    World.timers w' = World.timers w /\
    World.mainQueue w' = World.mainQueue w /\
    World.invoked w' = World.invoked w.
Proof.
  unfold body_of, ViewController.run_callback. intros Hp.
  destruct (World.balls w !! ball) as [b|] eqn:Hb; [|discriminate].
  cbn [mbind option_bind] in *. rewrite Hp. cbn [mbind option_bind].
  eexists. split; [reflexivity|]. vc_unfold. split.
  - rewrite list_lookup_alter_eq, Hb. reflexivity.
  - split; [|repeat split].
    intros r Hr. rewrite list_lookup_alter_ne by congruence. reflexivity.
Qed.

Lemma run_callback_none (ball : nat) (impulse : CGVector.t) (w : World.t) :
  body_of ball w = None ->
  ViewController.run_callback (ApplyImpulse ball impulse) w = None.
Proof.
  unfold body_of, ViewController.run_callback. intros H.
  destruct (World.balls w !! ball) as [b|]; [|reflexivity].
  cbn [mbind option_bind] in *. rewrite H. reflexivity.
Qed.

(** The loop over a queue all of whose closures find a body. *)
Lemma run_queue_returned (queue : list PhysicsCallback) (w : World.t) :
  (forall ball impulse,
     ApplyImpulse ball impulse ∈ queue -> is_Some (body_of ball w)) ->
  exists w' : World.t,
    ViewController.run_queue queue w = ViewController.Returned w' /\
    (forall ball,
       body_of ball w' =
         apply_all (impulses_for ball queue) <$> body_of ball w) /\
    World.engine w' = World.engine w /\
    World.timers w' = World.timers w /\
    World.mainQueue w' = World.mainQueue w /\
    World.invoked w' = World.invoked w.
Proof.
  revert w. induction queue as [|[ball impulse] queue IH]; intros w Hall.
  - exists w. split; [reflexivity|]. split; [|repeat split].
    intros ball. cbn. destruct (body_of ball w); reflexivity.
  - destruct (Hall ball impulse) as [p Hp]; [left|].
    destruct (run_callback_body ball impulse p w Hp)
      as (w1 & Hrun & Hb1 & Hother & He & Ht & Hm & Hi).
    destruct (IH w1) as (w' & Hq & Hbodies & He' & Ht' & Hm' & Hi').
    { intros r i Hin. destruct (decide (r = ball)) as [->|Hne].
      - rewrite Hb1. eexists. reflexivity.
      - rewrite (Hother r Hne). apply (Hall r i). right. exact Hin. }
    exists w'. split.
    { cbn [ViewController.run_queue]. rewrite Hrun. exact Hq. }
    split; [|repeat split; congruence].
    intros r. rewrite Hbodies. unfold impulses_for.
    cbn [omap list_omap]. fold (impulses_for r queue).
    destruct (decide (ball = r)) as [->|Hne].
    + rewrite Hb1, Hp. reflexivity.
    + rewrite (Hother r) by congruence. reflexivity.
Qed.

(** The loop over a queue one of whose closures finds no body. *)
Lemma run_queue_threw (pre post : list PhysicsCallback) (ball : nat)
    (impulse : CGVector.t) (w : World.t) :
  (forall b i, ApplyImpulse b i ∈ pre -> is_Some (body_of b w)) ->
  body_of ball w = None ->
  exists w' : World.t,
    ViewController.run_queue (pre ++ ApplyImpulse ball impulse :: post) w =
      ViewController.Threw w' /\
    ViewController.run_queue pre w = ViewController.Returned w'.
Proof.
  intros Hall Hnone.
  destruct (run_queue_returned pre w Hall) as (w' & Hq & Hbodies & _).
  exists w'. split; [|exact Hq].
  assert (Hnone' : body_of ball w' = None)
    by (rewrite Hbodies, Hnone; reflexivity).
  clear Hall Hbodies Hnone. revert w Hq.
  induction pre as [|cb pre IH]; intros w Hq;
    cbn [ViewController.run_queue app] in *.
  - injection Hq as ->. rewrite run_callback_none by exact Hnone'.
    reflexivity.
  - destruct (ViewController.run_callback cb w) as [w1|]; [|discriminate].
    apply IH. exact Hq.
Qed.

(** X15.  [didSimulatePhysicsForScene] on a queue every closure of which
    finds a physics body on its ball returns with the queue empty, and has
    called [applyImpulse] on the body of each ball with exactly the impulses
    queued for that ball, in the order they were queued: the body's impulses
    are those it had followed by the queued ones.  Balls without a body stay
    without one, and the engine, the timers, the main queue and the calls
    made of outside callbacks are as before. *)
Theorem X15_physics_step (c : ViewController.t) (w : World.t) :
  (forall ball impulse,
     ApplyImpulse ball impulse ∈ ViewController.physicsQueue c ->
     is_Some (body_of ball w)) ->
  exists w' : World.t,
    ViewController.didSimulatePhysicsForScene c w =
      (ViewController.set_physicsQueue [] c, ViewController.Returned w') /\
    (forall ball,
       body_of ball w' =
         apply_all (impulses_for ball (ViewController.physicsQueue c))
           <$> body_of ball w) /\
    (forall ball p,
       body_of ball w = Some p ->
       (SKPhysicsBody.impulses <$> body_of ball w') =
         Some (SKPhysicsBody.impulses p
                 ++ impulses_for ball (ViewController.physicsQueue c))) /\
    (forall ball, body_of ball w = None -> body_of ball w' = None) /\
    length (World.balls w') = length (World.balls w) /\
    World.engine w' = World.engine w /\
    World.timers w' = World.timers w /\
    World.mainQueue w' = World.mainQueue w /\
    World.invoked w' = World.invoked w.
Proof.
  intros Hall.
  destruct (run_queue_returned (ViewController.physicsQueue c) w Hall)
    as (w' & Hq & Hbodies & He & Ht & Hm & Hi).
  exists w'. unfold ViewController.didSimulatePhysicsForScene. cbv zeta.
  rewrite Hq. split; [reflexivity|]. split; [exact Hbodies|].
  split; [|split; [|split; [|repeat split; assumption]]].
  - intros ball p Hp. rewrite Hbodies, Hp. cbn.
    rewrite apply_all_impulses. reflexivity.
  - intros ball Hn. rewrite Hbodies, Hn. reflexivity.
  - apply (run_queue_length (ViewController.physicsQueue c)). left.
    exact Hq.
Qed.

Lemma X15_physics_step_witness :
  let c :=
    ViewController.set_physicsQueue
      [ApplyImpulse 0%nat (CGVector.mk 0%Q 2000%Q);
       ApplyImpulse 0%nat (CGVector.mk 2000%Q 0%Q)]
      (Dragging.controller example_controller) in
  exists w' : World.t,
    ViewController.didSimulatePhysicsForScene c example_world =
      (ViewController.set_physicsQueue [] c, ViewController.Returned w') /\
    (SKPhysicsBody.impulses <$> body_of 0 w') =
      Some [CGVector.mk 0%Q 2000%Q; CGVector.mk 2000%Q 0%Q].
Proof.
  intros c.
  destruct (X15_physics_step c example_world) as (w' & Hrun & _ & Hi & _).
  - intros ball impulse Hin. exists example_body.
    apply list_elem_of_In in Hin.
    destruct Hin as [[= <- _] | [[= <- _] | []]]; reflexivity.
  - exists w'. split; [exact Hrun|].
    exact (Hi 0%nat example_body eq_refl).
Defined.

(** [launch] destroys the ball the controller held. *)
Lemma launch_destroys (now : Q) (rect frame : CGRect.t) (old : nat)
    (c : ViewController.t) (w : World.t) :
  ViewController.screen c = Some frame ->
  ViewController._ball c = Some old ->
  (old < length (World.balls w))%nat ->
  body_of old (ViewController.launch now rect c w).2 = None.
Proof.
  intros Hscreen Hold Hlt. unfold ViewController.launch. rewrite Hscreen.
  destruct (Ball.create now RADIUS _ (World.engine w)) as [b e].
  unfold World.alloc.
  set (ball := length (World.balls (World.set_engine e w))).
  set (w1 := World.set_balls (World.balls (World.set_engine e w) ++ [b])
               (World.set_engine e w)).
  assert (Hball : ball = length (World.balls w)) by reflexivity.
  assert (Halloc1 : forall o, ViewController._ball c = Some o ->
                              (o < length (World.balls w1))%nat).
  { intros o Ho. unfold w1. vc_unfold. rewrite length_app. cbn.
    rewrite Hold in Ho. injection Ho as <-. lia. }
  destruct (set_ball_spec (Some ball) c w1 Halloc1)
    as (_ & _ & _ & _ & _ & _ & S7 & _).
  destruct (ViewController.set_ball (Some ball) c w1) as [c2 w2].
  cbn [fst snd] in *. destruct (S7 old Hold) as [Hnone _].
  unfold body_of in *. vc_unfold.
  rewrite !list_lookup_alter_ne by lia. exact Hnone.
Qed.

(** X16.  A closure [launch] queued goes stale when the ball is replaced
    before the next physics step.  After [launch], an assignment to [ball]
    of any value (as the completion of [dock] does with undefined) or a
    second [launch] destroys the launched ball, and the next
    [didSimulatePhysicsForScene] throws on its closure: it applies nothing,
    leaves the queue empty, and a ball launched second has received no
    impulse and has none queued any more. *)
Theorem X16_stale_launch (now now' : Q) (rect rect' frame : CGRect.t)
    (value : option nat) (c : ViewController.t) (w : World.t) :
  ViewController.screen c = Some frame ->
  ViewController.physicsQueue c = [] ->
  (forall b, ViewController._ball c = Some b ->
             (b < length (World.balls w))%nat) ->
  let ball := length (World.balls w) in
  let launched := ViewController.launch now rect c w in
  let assigned := ViewController.set_ball value launched.1 launched.2 in
  let relaunched := ViewController.launch now' rect' launched.1 launched.2 in
  ViewController.didSimulatePhysicsForScene assigned.1 assigned.2 =
    (ViewController.set_physicsQueue [] assigned.1,
     ViewController.Threw assigned.2) /\
  ViewController.didSimulatePhysicsForScene relaunched.1 relaunched.2 =
    (ViewController.set_physicsQueue [] relaunched.1,
     ViewController.Threw relaunched.2) /\
  ViewController.ball relaunched.1 = Some (S ball) /\
  (SKPhysicsBody.impulses <$> body_of (S ball) relaunched.2) = Some [].
Proof.
  intros Hscreen Hq Halloc ball launched assigned relaunched.
  destruct (launch_spec now rect frame c w Hscreen Halloc)
    as (L1 & _ & L3 & _ & L5 & L6 & _).
  fold launched in L1, L3, L5, L6. fold ball in L1, L3.
  rewrite Hq in L3. cbn [app] in L3. rewrite Hscreen in L5.
  assert (Halloc1 : forall b, ViewController._ball launched.1 = Some b ->
                              (b < length (World.balls launched.2))%nat).
  { intros b Hb. rewrite L1 in Hb. injection Hb as <-. rewrite L6.
    unfold ball. lia. }
  split; [|split].
  - destruct (set_ball_spec value launched.1 launched.2 Halloc1)
      as (_ & _ & S3 & _ & _ & _ & S7 & _).
    fold assigned in S3, S7. destruct (S7 ball L1) as [Hnone _].
    unfold ViewController.didSimulatePhysicsForScene. cbv zeta.
    rewrite S3, L3.
    destruct (run_queue_threw [] [] ball (launch_impulse rect frame)
                assigned.2) as (w' & Hrun & Hpre).
    { intros b i Hin. apply elem_of_nil in Hin. contradiction. }
    { exact Hnone. }
    cbn in Hpre. injection Hpre as <-. cbn [app] in Hrun. rewrite Hrun.
    reflexivity.
  - destruct (launch_spec now' rect' frame launched.1 launched.2 L5 Halloc1)
      as (_ & _ & R3 & _).
    fold relaunched in R3. rewrite L3 in R3.
    pose proof (launch_destroys now' rect' frame ball launched.1 launched.2
                  L5 L1 ltac:(rewrite L6; unfold ball; lia)) as Hnone.
    fold relaunched in Hnone.
    unfold ViewController.didSimulatePhysicsForScene. cbv zeta.
    rewrite R3.
    destruct (run_queue_threw [] [ApplyImpulse
                                    (length (World.balls launched.2))
                                    (launch_impulse rect' frame)]
                ball (launch_impulse rect frame) relaunched.2)
      as (w' & Hrun & Hpre).
    { intros b i Hin. apply elem_of_nil in Hin. contradiction. }
    { exact Hnone. }
    cbn in Hpre. injection Hpre as <-. cbn [app] in *. rewrite Hrun.
    reflexivity.
  - destruct (launch_spec now' rect' frame launched.1 launched.2 L5 Halloc1)
      as (R1 & _ & _ & _ & _ & _ & _ & _ & b & p & Rb & Rp & Ri & _).
    fold relaunched in R1, Rb. rewrite L6 in R1, Rb. fold ball in R1, Rb.
    split; [exact R1|].
    unfold body_of. rewrite Rb. cbn. rewrite Rp. cbn. rewrite Ri.
    reflexivity.
Qed.

Lemma X16_stale_launch_witness :
  let c := ViewController.initial (Some (rect_of 0 0 1440 900)) in
  let launched :=
    ViewController.launch 0%Q (rect_of 700 10 50 50) c World.initial in
  let relaunched :=
    ViewController.launch 1%Q (rect_of 100 10 50 50) launched.1 launched.2 in
  ViewController.didSimulatePhysicsForScene relaunched.1 relaunched.2 =
    (ViewController.set_physicsQueue [] relaunched.1,
     ViewController.Threw relaunched.2) /\
  (SKPhysicsBody.impulses <$> body_of 1 relaunched.2) = Some [].
Proof.
  intros c launched relaunched.
  destruct (X16_stale_launch 0%Q 1%Q (rect_of 700 10 50 50)
              (rect_of 100 10 50 50) (rect_of 0 0 1440 900) None c
              World.initial eq_refl eq_refl)
    as (_ & Hthrew & _ & Hnone).
  - intros b Hb. discriminate Hb.
  - split; [exact Hthrew | exact Hnone].
Defined.

End PhysicsStep.

Section DockLifecycle.
Import view_controller.

(** [dock] on a controller that holds an allocated ball. *)
Lemma dock_holding (rect : CGRect.t) (onComplete : Callback) (ball : nat)
    (b : Ball.t) (c : ViewController.t) (w : World.t) :
  ViewController._ball c = Some ball ->
  World.balls w !! ball = Some b ->
  (ViewController.dock rect onComplete c w).1 = c /\
  World.invoked (ViewController.dock rect onComplete c w).2 =
    World.invoked w /\
  exists b' : Ball.t,
    World.balls (ViewController.dock rect onComplete c w).2 !! ball =
      Some b' /\
    Ball.physicsBody b' = ViewController.freeze <$> Ball.physicsBody b /\
    Ball.position b' = Ball.position b /\
    Ball.actions b' =
      Ball.actions b
        ++ [(scaleToDuration
               (CGSize.width (CGRect.size rect) / (Ball.radius b * 2%Q))%js
               (25 # 100)%Q, None);
            (moveToDuration
               (CGPoint.mk (CGRectGetMidX rect) (CGRectGetMidY rect))
               (25 # 100)%Q, Some (DockCompletion onComplete))].
Proof.
  intros Hball Hb. unfold ViewController.dock, ViewController.ball.
  rewrite Hball. cbn [fst snd]. split; [reflexivity|].
  split; [reflexivity|].
  unfold ViewController.radius_of. vc_unfold.
  rewrite !list_lookup_alter_eq, Hb. cbn [fmap option_fmap option_map
                                      from_option].
  eexists. split; [reflexivity|].
  cbn [Ball.physicsBody Ball.position Ball.actions Ball.runAction
       Ball.set_physicsBody Ball.radius].
  rewrite <- app_assoc. repeat split.
Qed.

(** X17.  Docking a held ball.  [dock(rect, cb)] on a controller that holds
    a ball does not call [cb]: it freezes the ball's body (not dynamic, no
    gravity, velocity zero), leaves the ball where it is, and hands the node
    two actions of 0.25, a scale to [rect.size.width / (2 * radius)] and a
    move to the centre of [rect], the second with a completion.  When that
    completion runs, the controller holds no ball, the scene is empty, the
    docked ball has no body, and [cb] has been called exactly once; a [dock]
    after that calls its callback at once. *)
Theorem X17_dock_lifecycle (rect rect' : CGRect.t) (cb cb' : Callback)
    (ball : nat) (b : Ball.t) (p : SKPhysicsBody.t)
    (c : ViewController.t) (w : World.t) :
  consistent (c, w) ->
  ViewController.ball c = Some ball ->
  World.balls w !! ball = Some b ->
  Ball.physicsBody b = Some p ->
  let docked := ViewController.dock rect cb c w in
  let completed :=
    ViewController.run_completion (DockCompletion cb) docked.1 docked.2 in
  (docked.1 = c /\
   World.invoked docked.2 = World.invoked w /\
   exists b' : Ball.t,
     World.balls docked.2 !! ball = Some b' /\
     Ball.physicsBody b' =
       Some (SKPhysicsBody.mk false false (SKPhysicsBody.restitution p)
               (SKPhysicsBody.allowsRotation p)
               (SKPhysicsBody.usesPreciseCollisionDetection p)
               (SKPhysicsBody.contactTestBitMask p)
               (CGVector.mk 0%Q 0%Q) (SKPhysicsBody.impulses p)) /\
     Ball.position b' = Ball.position b /\
     Ball.actions b' =
       Ball.actions b
         ++ [(scaleToDuration
                (CGSize.width (CGRect.size rect) / (Ball.radius b * 2%Q))%js
                (25 # 100)%Q, None);
             (moveToDuration
                (CGPoint.mk (CGRectGetMidX rect) (CGRectGetMidY rect))
                (25 # 100)%Q, Some (DockCompletion cb))] /\
     step docked completed)
  /\
  (ViewController.ball completed.1 = None /\
   ViewController.scene completed.1 = [] /\
   body_of ball completed.2 = None /\
   World.invoked completed.2 = World.invoked w ++ [cb] /\
   ViewController.dock rect' cb' completed.1 completed.2 =
     (completed.1, World.invoke cb' completed.2)).
Proof.
  intros Hcons Hball Hb Hp docked completed.
  destruct (dock_holding rect cb ball b c w Hball Hb)
    as (D1 & D2 & b' & Db & Dp & Dpos & Dact).
  fold docked in D1, D2, Db.
  assert (Hpair : docked = (docked.1, docked.2))
    by apply surjective_pairing.
  assert (Hstep : step docked completed).
  { unfold completed. rewrite Hpair at 1.
    eapply (step_completion ball b'); [exact Db|].
    rewrite Dact. apply elem_of_app. right. right. left. }
  split.
  { split; [exact D1|]. split; [exact D2|]. exists b'.
    split; [exact Db|]. split; [rewrite Dp, Hp; reflexivity|].
    split; [exact Dpos|]. split; [exact Dact | exact Hstep]. }
  assert (Hcd : consistent docked).
  { destruct (dock_spec rect cb c w) as (_ & Hl & _).
    fold docked in Hl. destruct Hcons as [Ha Hs]. cbn [fst snd] in Ha, Hs.
    split; rewrite D1.
    - intros o Ho. rewrite Hl. apply Ha. exact Ho.
    - exact Hs. }
  pose proof (step_consistent docked completed Hstep Hcd) as [_ Hscene].
  destruct Hcd as [Halloc _].
  destruct (set_ball_spec None docked.1 docked.2 Halloc)
    as (S1 & _ & _ & _ & _ & _ & S7 & _ & _ & _ & _ & S12).
  assert (Hc1 : completed.1 =
                (ViewController.set_ball None docked.1 docked.2).1).
  { unfold completed, ViewController.run_completion.
    destruct (ViewController.set_ball None docked.1 docked.2);
      reflexivity. }
  assert (Hbodies : World.balls completed.2 =
                    World.balls
                      (ViewController.set_ball None docked.1 docked.2).2).
  { unfold completed, ViewController.run_completion.
    destruct (ViewController.set_ball None docked.1 docked.2);
      reflexivity. }
  assert (Hinv : World.invoked completed.2 =
                 World.invoked
                   (ViewController.set_ball None docked.1 docked.2).2
                   ++ [cb]).
  { unfold completed, ViewController.run_completion.
    destruct (ViewController.set_ball None docked.1 docked.2);
      reflexivity. }
  assert (Hnone : ViewController.ball completed.1 = None)
    by (rewrite Hc1; exact S1).
  split; [exact Hnone|]. split; [|split; [|split]].
  - rewrite Hscene. unfold ViewController.ball in Hnone. rewrite Hnone.
    reflexivity.
  - unfold body_of. rewrite Hbodies. apply (S7 ball).
    rewrite D1. exact Hball.
  - rewrite Hinv, S12, D2. reflexivity.
  - unfold ViewController.dock. rewrite Hnone. reflexivity.
Qed.

Lemma X17_dock_lifecycle_witness :
  let c := Dragging.controller example_controller in
  let docked :=
    ViewController.dock (rect_of 700 10 50 50) 7%nat c example_world in
  let completed :=
    ViewController.run_completion (DockCompletion 7%nat)
      docked.1 docked.2 in
  World.invoked docked.2 = [] /\
  ViewController.ball completed.1 = None /\
  ViewController.scene completed.1 = [] /\
  body_of 0 completed.2 = None /\
  World.invoked completed.2 = [7%nat].
Proof.
  intros c docked completed.
  destruct (X17_dock_lifecycle (rect_of 700 10 50 50)
              (rect_of 700 10 50 50) 7%nat 8%nat 0%nat example_ball
              example_body c example_world)
    as [(_ & Hinv & _) (Hnone & Hscene & Hbody & Hinv' & _)].
  - split; cbn [fst snd].
    + intros b Hb. injection Hb as <-. cbn. lia.
    + reflexivity.
  - reflexivity.
  - reflexivity.
  - reflexivity.
  - split; [exact Hinv|]. split; [exact Hnone|]. split; [exact Hscene|].
    split; [exact Hbody | exact Hinv'].
Defined.

End DockLifecycle.

Section Application.
Import view_controller.

Lemma dock_icon_rect_returns (mouse : CGPoint.t) (screen : NSScreen.t) :
  is_Some (getInferredRectOfHoveredDockIcon mouse screen).
Proof.
  unfold getInferredRectOfHoveredDockIcon. cbv zeta.
  pose proof (getDockPosition_range screen) as Hr.
  destruct (getDockPosition screen) as [|[|[|n]]]; cbn; try lia;
    eexists; reflexivity.
Qed.

Lemma set_ballVisible_value (value : bool) (a : AppDelegate.t) :
  AppDelegate.ballVisible (AppDelegate.set_ballVisible value a) = value.
Proof.
  unfold AppDelegate.set_ballVisible.
  destruct (Bool.eqb value (AppDelegate.ballVisible a)) eqn:E.
  - apply Bool.eqb_prop in E. symmetry. exact E.
  - reflexivity.
Qed.

Lemma set_ballVisible_shown (value : bool) (a : AppDelegate.t) :
  visible_shown a -> visible_shown (AppDelegate.set_ballVisible value a).
Proof.
  unfold AppDelegate.set_ballVisible. intros Ha.
  destruct (Bool.eqb value (AppDelegate.ballVisible a)); [exact Ha|].
  intros Hv. cbn in Hv. subst value. repeat split.
Qed.

Lemma deliver_shown (calls : list Callback) (a : AppDelegate.t) :
  visible_shown a -> visible_shown (AppDelegate.deliver calls a).
Proof.
  revert a. induction calls as [|cb calls IH]; intros a Ha; [exact Ha|].
  apply IH. apply set_ballVisible_shown. exact Ha.
Qed.

Lemma deliver_hidden (calls : list Callback) (a : AppDelegate.t) :
  AppDelegate.ballVisible a = false ->
  AppDelegate.ballVisible (AppDelegate.deliver calls a) = false.
Proof.
  revert a. induction calls as [|cb calls IH]; intros a Ha; [exact Ha|].
  apply IH. apply set_ballVisible_value.
Qed.

Lemma deliver_called (cb : Callback) (calls : list Callback)
    (a : AppDelegate.t) :
  AppDelegate.ballVisible (AppDelegate.deliver (cb :: calls) a) = false.
Proof.
  change (AppDelegate.deliver (cb :: calls) a)
    with (AppDelegate.deliver calls (AppDelegate.set_ballVisible false a)).
  apply deliver_hidden. apply set_ballVisible_value.
Qed.

Lemma calls_between_none (w w' : World.t) :
  World.invoked w' = World.invoked w ->
  AppDelegate.calls_between w w' = [].
Proof.
  unfold AppDelegate.calls_between. intros ->. apply drop_all.
Qed.

Lemma calls_between_one (cb : Callback) (w w' : World.t) :
  World.invoked w' = World.invoked w ++ [cb] ->
  AppDelegate.calls_between w w' = [cb].
Proof.
  unfold AppDelegate.calls_between. intros ->. apply drop_app_length.
Qed.

(** The completion of [dock] calls the closure once. *)
Lemma run_completion_spec (cb : Callback) (c : ViewController.t)
    (w : World.t) :
  (forall b, ViewController._ball c = Some b ->
             (b < length (World.balls w))%nat) ->
  let completed := ViewController.run_completion (DockCompletion cb) c w in
  ViewController._ball completed.1 = None /\
  World.invoked completed.2 = World.invoked w ++ [cb] /\
  (forall old, ViewController._ball c = Some old ->
               body_of old completed.2 = None).
Proof.
  intros Halloc.
  destruct (set_ball_spec None c w Halloc)
    as (S1 & _ & _ & _ & _ & _ & S7 & _ & _ & _ & _ & S12).
  unfold ViewController.run_completion.
  destruct (ViewController.set_ball None c w) as [c' w'].
  cbn [fst snd] in *. split; [exact S1|]. split.
  - unfold World.invoke. cbn [World.invoked]. rewrite S12. reflexivity.
  - intros old Hold. destruct (S7 old Hold) as [Hn _]. exact Hn.
Qed.

(** A click on the dock icon, on a screen. *)
Lemma reopen_spec (now : Q) (mouse : CGPoint.t) (screen : NSScreen.t)
    (s : AppDelegate.App) :
  exists r : CGRect.t,
    getInferredRectOfHoveredDockIcon mouse screen = Some r /\
    AppDelegate.applicationShouldHandleReopenHasVisibleWindows
      now mouse (Some screen) s =
      Some
        (if AppDelegate.ballVisible (AppDelegate.delegate s) then
           let docked :=
             ViewController.dock (constrainRect r (NSScreen.frame screen))
               AppDelegate.hide (AppDelegate.controller s)
               (AppDelegate.world s) in
           AppDelegate.mkApp
             (AppDelegate.deliver
                (AppDelegate.calls_between (AppDelegate.world s) docked.2)
                (AppDelegate.delegate s))
             docked.1 docked.2
         else
           let launched :=
             ViewController.launch now
               (constrainRect r (NSScreen.frame screen))
               (AppDelegate.controller s) (AppDelegate.world s) in
           AppDelegate.mkApp
             (AppDelegate.set_ballVisible true (AppDelegate.delegate s))
             launched.1 launched.2).
Proof.
  destruct (dock_icon_rect_returns mouse screen) as [r Hr].
  exists r. split; [exact Hr|].
  unfold AppDelegate.applicationShouldHandleReopenHasVisibleWindows.
  rewrite Hr. cbn [mbind option_bind].
  destruct (AppDelegate.ballVisible (AppDelegate.delegate s)); reflexivity.
Qed.

(** Every step of the application is a step of its controller, or leaves
    the controller and the store as they are. *)
Lemma app_step_controller (s s' : AppDelegate.App) :
  app_step s s' ->
  (AppDelegate.controller s', AppDelegate.world s') =
    (AppDelegate.controller s, AppDelegate.world s) \/
  step (AppDelegate.controller s, AppDelegate.world s)
       (AppDelegate.controller s', AppDelegate.world s').
Proof.
  intros Hstep. destruct Hstep as [now mouse [screen|] s s' H | ball b a k s
                                   Hb Hk | s | ci s | random o s Ho].
  - destruct (reopen_spec now mouse screen s) as (r & _ & Heq).
    rewrite Heq in H. injection H as <-. right.
    destruct (AppDelegate.ballVisible (AppDelegate.delegate s));
      cbv zeta; cbn [AppDelegate.controller AppDelegate.world];
      rewrite <- surjective_pairing.
    + apply step_dock.
    + apply step_launch.
  - cbn in H. injection H as <-. left. reflexivity.
  - right. unfold AppDelegate.run_completion. cbv zeta.
    cbn [AppDelegate.controller AppDelegate.world].
    rewrite <- surjective_pairing.
    eapply step_completion; eassumption.
  - right. cbn [AppDelegate.controller AppDelegate.world].
    destruct (ViewController.didSimulatePhysicsForScene
                (AppDelegate.controller s) (AppDelegate.world s))
      as [c' [w'|w']] eqn:E; cbn [fst snd AppDelegate.outcome_world].
    + apply step_physics_returned. exact E.
    + apply step_physics_threw. exact E.
  - right. apply step_contact.
  - right. cbn [AppDelegate.controller AppDelegate.world].
    apply step_operation. exact Ho.
Qed.

Lemma app_step_invariant (s s' : AppDelegate.App) :
  app_step s s' -> app_invariant s -> app_invariant s'.
Proof.
  intros Hstep (Hvis & Hshown & Hcons).
  assert (Hcons' : consistent (AppDelegate.controller s',
                               AppDelegate.world s')).
  { destruct (app_step_controller s s' Hstep) as [-> | Hs];
      [exact Hcons|].
    eapply step_consistent; eassumption. }
  split; [|split; [|exact Hcons']].
  - destruct Hstep as [now mouse [screen|] s s' H | ball b a k s
                       Hb Hk | s | ci s | random o s Ho].
    + destruct (reopen_spec now mouse screen s) as (r & _ & Heq).
      rewrite Heq in H. injection H as <-.
      destruct (AppDelegate.ballVisible (AppDelegate.delegate s)) eqn:Ev;
        cbv zeta; cbn [AppDelegate.controller AppDelegate.delegate].
      * destruct (dock_spec (constrainRect r (NSScreen.frame screen))
                    AppDelegate.hide (AppDelegate.controller s)
                    (AppDelegate.world s)) as (D1 & _ & _).
        rewrite D1. intros [ball Hball].
        destruct Hcons as [Halloc _]. cbn [fst snd] in Halloc.
        destruct (lookup_lt_is_Some_2 _ _ (Halloc ball Hball)) as [b Hb].
        destruct (dock_holding (constrainRect r (NSScreen.frame screen))
                    AppDelegate.hide ball b (AppDelegate.controller s)
                    (AppDelegate.world s) Hball Hb) as (_ & D2 & _).
        rewrite (calls_between_none _ _ D2). exact Ev.
      * intros _. apply set_ballVisible_value.
    + cbn in H. injection H as <-. exact Hvis.
    + destruct k as [cb]. destruct Hcons as [Halloc _].
      cbn [fst snd] in Halloc.
      destruct (run_completion_spec cb (AppDelegate.controller s)
                  (AppDelegate.world s) Halloc) as (Hnone & _).
      unfold AppDelegate.run_completion. cbv zeta.
      cbn [AppDelegate.controller AppDelegate.delegate].
      unfold ViewController.ball. rewrite Hnone.
      intros [x Hx]. discriminate Hx.
    + exact Hvis.
    + exact Hvis.
    + cbn [AppDelegate.controller AppDelegate.delegate].
      intros Hsome. apply Hvis.
      destruct o as [strength]. unfold ViewController.run_operation in Hsome.
      destruct (decide _); [exact Hsome|].
      destruct (_ !! _) as [[i p]|]; exact Hsome.
  - destruct Hstep as [now mouse [screen|] s s' H | ball b a k s
                       Hb Hk | s | ci s | random o s Ho];
      try exact Hshown.
    + destruct (reopen_spec now mouse screen s) as (r & _ & Heq).
      rewrite Heq in H. injection H as <-.
      destruct (AppDelegate.ballVisible (AppDelegate.delegate s));
        cbv zeta; cbn [AppDelegate.delegate].
      * apply deliver_shown. exact Hshown.
      * apply set_ballVisible_shown. exact Hshown.
    + cbn in H. injection H as <-. exact Hshown.
    + unfold AppDelegate.run_completion. cbv zeta.
      cbn [AppDelegate.delegate]. apply deliver_shown. exact Hshown.
Qed.

Lemma app_reachable_invariant (a0 : AppDelegate.t)
    (screen : option CGRect.t) (s : AppDelegate.App) :
  AppDelegate.fresh a0 -> app_reachable a0 screen s -> app_invariant s.
Proof.
  intros Hfresh Hreach. induction Hreach as [|s s' _ IH Hstep].
  - split; [|split].
    + intros [x Hx]. discriminate Hx.
    + intros Hv. unfold AppDelegate.fresh, AppDelegate.ballVisible in *.
      cbn in Hv. congruence.
    + split; [discriminate | reflexivity].
  - eapply app_step_invariant; eassumption.
Qed.

(** X18.  In every state the application reaches from a fresh delegate by
    clicks on its dock icon, completions of actions, physics steps,
    contacts and sound blocks: a ball held by the controller means the
    delegate says the ball is visible, and that in turn means the ball
    window and the click window are shown, the scene is not paused and the
    dock tile shows the put-back image.  The controller holds at most the
    one ball that is in the scene. *)
Theorem X18_app_invariant (a0 : AppDelegate.t) (screen : option CGRect.t)
    (s : AppDelegate.App) :
  AppDelegate.fresh a0 ->
  app_reachable a0 screen s ->
  (is_Some (ViewController.ball (AppDelegate.controller s)) ->
   AppDelegate.ballVisible (AppDelegate.delegate s) = true) /\
  (AppDelegate.ballVisible (AppDelegate.delegate s) = true ->
   AppDelegate.ballWindow_isVisible (AppDelegate.delegate s) = true /\
   AppDelegate.sceneView_isPaused (AppDelegate.delegate s) = false /\
   AppDelegate.dockTile_putBack (AppDelegate.delegate s) = true /\
   AppDelegate.clickWindow_isVisible (AppDelegate.delegate s) = true) /\
  ViewController.scene (AppDelegate.controller s) =
    option_list (ViewController.ball (AppDelegate.controller s)).
Proof.
  intros Hfresh Hreach.
  destruct (app_reachable_invariant a0 screen s Hfresh Hreach)
    as (Hvis & Hshown & _ & Hscene).
  split; [exact Hvis|]. split; [exact Hshown | exact Hscene].
Qed.

Lemma X18_app_invariant_witness :
  let a0 := AppDelegate.mk false false true false false in
  let screen := NSScreen.mk (rect_of 0 0 1440 900) (rect_of 0 79 1440 821) in
  exists s : AppDelegate.App,
    AppDelegate.applicationShouldHandleReopenHasVisibleWindows
      0%Q (CGPoint.mk 700%Q 5%Q) (Some screen)
      (AppDelegate.initial a0 (Some (rect_of 0 0 1440 900))) = Some s /\
    AppDelegate.ballWindow_isVisible (AppDelegate.delegate s) = true /\
    AppDelegate.sceneView_isPaused (AppDelegate.delegate s) = false.
Proof.
  intros a0 screen.
  destruct (reopen_spec 0%Q (CGPoint.mk 700%Q 5%Q) screen
              (AppDelegate.initial a0 (Some (rect_of 0 0 1440 900))))
    as (r & _ & Heq).
  eexists. split; [exact Heq|].
  destruct (X18_app_invariant a0 (Some (rect_of 0 0 1440 900)) _ eq_refl
              (app_reachable_step a0 _ _ _
                 (app_reachable_initial a0 (Some (rect_of 0 0 1440 900)))
                 (app_reopen _ _ _ _ _ Heq)))
    as (_ & Hshown & _).
  destruct (Hshown eq_refl) as (H1 & H2 & _).
  split; [exact H1 | exact H2].
Defined.

(** X19.  A click on the dock icon with the mouse on a screen never throws
    and toggles the ball.  With the ball hidden, the controller holds no
    ball and the click calls [launch] on the icon's rectangle constrained
    to the screen and shows the ball: a new ball is held when the
    controller's window is on a screen, none otherwise.  With the ball
    visible and held, the click calls [dock] and changes neither the
    delegate nor the controller; the ball stays visible until the
    completion of the move runs, which hides it, empties the scene and
    leaves the docked ball without a body.  With the ball visible and none
    held, the click hides it at once. *)
Theorem X19_dock_icon_click (a0 : AppDelegate.t) (screen : option CGRect.t)
    (s : AppDelegate.App) (now : Q) (mouse : CGPoint.t)
    (currentScreen : NSScreen.t) :
  AppDelegate.fresh a0 ->
  app_reachable a0 screen s ->
  exists (r : CGRect.t) (s' : AppDelegate.App),
    getInferredRectOfHoveredDockIcon mouse currentScreen = Some r /\
    AppDelegate.applicationShouldHandleReopenHasVisibleWindows
      now mouse (Some currentScreen) s = Some s' /\
    (AppDelegate.ballVisible (AppDelegate.delegate s) = false ->
     ViewController.ball (AppDelegate.controller s) = None /\
     AppDelegate.ballVisible (AppDelegate.delegate s') = true /\
     (AppDelegate.controller s', AppDelegate.world s') =
       ViewController.launch now
         (constrainRect r (NSScreen.frame currentScreen))
         (AppDelegate.controller s) (AppDelegate.world s) /\
     (is_Some (ViewController.screen (AppDelegate.controller s)) ->
      ViewController.ball (AppDelegate.controller s') =
        Some (length (World.balls (AppDelegate.world s)))) /\
     (ViewController.screen (AppDelegate.controller s) = None ->
      ViewController.ball (AppDelegate.controller s') = None /\
      AppDelegate.world s' = AppDelegate.world s)) /\
    (forall ball,
       AppDelegate.ballVisible (AppDelegate.delegate s) = true ->
       ViewController.ball (AppDelegate.controller s) = Some ball ->
       let s'' :=
         AppDelegate.run_completion (DockCompletion AppDelegate.hide) s' in
       AppDelegate.delegate s' = AppDelegate.delegate s /\
       AppDelegate.controller s' = AppDelegate.controller s /\
       app_step s' s'' /\
       AppDelegate.ballVisible (AppDelegate.delegate s'') = false /\
       ViewController.ball (AppDelegate.controller s'') = None /\
       ViewController.scene (AppDelegate.controller s'') = [] /\
       body_of ball (AppDelegate.world s'') = None) /\
    (AppDelegate.ballVisible (AppDelegate.delegate s) = true ->
     ViewController.ball (AppDelegate.controller s) = None ->
     AppDelegate.ballVisible (AppDelegate.delegate s') = false /\
     AppDelegate.controller s' = AppDelegate.controller s /\
     World.balls (AppDelegate.world s') =
       World.balls (AppDelegate.world s)).
Proof.
  intros Hfresh Hreach.
  pose proof (app_reachable_invariant a0 screen s Hfresh Hreach)
    as (Hvis & Hshown & Hcons).
  destruct (reopen_spec now mouse currentScreen s) as (r & Hr & Heq).
  eexists r, _. split; [exact Hr|]. split; [exact Heq|].
  pose proof (app_step_invariant s _ (app_reopen _ _ _ _ _ Heq)
                (conj Hvis (conj Hshown Hcons))) as (_ & _ & Hcons').
  set (rect := constrainRect r (NSScreen.frame currentScreen)) in *.
  destruct Hcons as [Halloc Hscene]. cbn [fst snd] in Halloc, Hscene.
  split; [|split].
  - intros Hhid. rewrite Hhid in *.
    cbv zeta. cbn [AppDelegate.controller AppDelegate.world
                   AppDelegate.delegate].
    assert (Hnone : ViewController.ball (AppDelegate.controller s) = None).
    { destruct (ViewController.ball (AppDelegate.controller s)) eqn:E;
        [|reflexivity].
      assert (Hft : false = true) by (apply Hvis; eexists; reflexivity).
      discriminate Hft. }
    split; [exact Hnone|]. split; [apply set_ballVisible_value|].
    split; [symmetry; apply surjective_pairing|]. split.
    + intros [frame Hframe].
      destruct (launch_spec now rect frame (AppDelegate.controller s)
                  (AppDelegate.world s) Hframe Halloc) as (L1 & _).
      exact L1.
    + intros Hno. unfold ViewController.launch. rewrite Hno.
      split; [exact Hnone | reflexivity].
  - intros ball Hv Hball. rewrite Hv in *. cbv zeta in Hcons' |- *.
    cbn [AppDelegate.controller AppDelegate.world AppDelegate.delegate]
      in Hcons' |- *.
    destruct (lookup_lt_is_Some_2 _ _ (Halloc ball Hball)) as [b Hb].
    destruct (dock_holding rect AppDelegate.hide ball b
                (AppDelegate.controller s) (AppDelegate.world s) Hball Hb)
      as (D1 & D2 & b' & Db & _ & _ & Dact).
    rewrite (calls_between_none _ _ D2). cbn [AppDelegate.deliver foldl].
    split; [reflexivity|]. split; [exact D1|].
    set (docked := ViewController.dock rect AppDelegate.hide
                     (AppDelegate.controller s) (AppDelegate.world s)) in *.
    set (s1 := AppDelegate.mkApp (AppDelegate.delegate s) docked.1
                 docked.2).
    assert (Hstep : app_step s1
                      (AppDelegate.run_completion
                         (DockCompletion AppDelegate.hide) s1)).
    { eapply (app_completion ball b'); [exact Db|].
      rewrite Dact. apply elem_of_app. right. right. left. }
    split; [exact Hstep|].
    assert (Hinv1 : app_invariant s1).
    { split; [|split; [exact Hshown | exact Hcons']].
      intros _. exact Hv. }
    pose proof (app_step_invariant _ _ Hstep Hinv1) as (_ & _ & _ & Hsc).
    destruct Hcons' as [Halloc' _]. cbn [fst snd] in Halloc'.
    destruct (run_completion_spec AppDelegate.hide docked.1 docked.2
                Halloc') as (Hnone & Hinvoked & Hbody).
    unfold AppDelegate.run_completion in *. cbv zeta in *.
    cbn [AppDelegate.controller AppDelegate.world AppDelegate.delegate
         s1 fst snd] in *.
    split; [|split; [exact Hnone|split]].
    + rewrite (calls_between_one AppDelegate.hide _ _ Hinvoked).
      apply deliver_called.
    + rewrite Hsc, Hnone. reflexivity.
    + apply Hbody. rewrite D1. exact Hball.
  - intros Hv Hnone. rewrite Hv in *. cbv zeta.
    cbn [AppDelegate.controller AppDelegate.world AppDelegate.delegate].
    destruct (dock_spec rect AppDelegate.hide (AppDelegate.controller s)
                (AppDelegate.world s)) as (D1 & _ & D3).
    specialize (D3 Hnone). split; [|split; [exact D1|]].
    + rewrite (calls_between_one AppDelegate.hide); [apply deliver_called|].
      rewrite D3. reflexivity.
    + rewrite D3. reflexivity.
Qed.

Lemma X19_dock_icon_click_witness :
  let a0 := AppDelegate.mk false false true false false in
  let screen := NSScreen.mk (rect_of 0 0 1440 900) (rect_of 0 79 1440 821) in
  exists s' : AppDelegate.App,
    AppDelegate.applicationShouldHandleReopenHasVisibleWindows
      0%Q (CGPoint.mk 700%Q 5%Q) (Some screen)
      (AppDelegate.initial a0 (Some (rect_of 0 0 1440 900))) = Some s' /\
    AppDelegate.ballVisible (AppDelegate.delegate s') = true /\
    ViewController.ball (AppDelegate.controller s') = Some 0%nat.
Proof.
  intros a0 screen.
  destruct (X19_dock_icon_click a0 (Some (rect_of 0 0 1440 900))
              (AppDelegate.initial a0 (Some (rect_of 0 0 1440 900)))
              0%Q (CGPoint.mk 700%Q 5%Q) screen eq_refl
              (app_reachable_initial a0 (Some (rect_of 0 0 1440 900))))
    as (r & s' & _ & Heq & Hhidden & _).
  exists s'. split; [exact Heq|].
  destruct (Hhidden eq_refl) as (_ & Hv & _ & Hball & _).
  split; [exact Hv|].
  apply Hball. eexists. reflexivity.
Defined.

End Application.

Section DriverClockFacts.
Local Open Scope Q_scope.
Import motion.

Lemma ticks_running (timestamps : list Q) (d : DriverClock.t) (p : Q) :
  CALayerDriver.displayLink (DriverClock.driver d) = true ->
  DriverClock.prevTick d = Some p ->
  ~ p == 0 ->
  Forall (fun t => ~ t == 0) timestamps ->
  exists (deltas : list Q) (d' : DriverClock.t),
    DriverClock.ticks timestamps d = Some (deltas, d') /\
    length deltas = length timestamps /\
    DriverClock.total deltas == List.last timestamps p - p /\
    DriverClock.prevTick d' = Some (List.last timestamps p) /\
    DriverClock.driver d' = DriverClock.driver d.
Proof.
  revert d p. induction timestamps as [|t ts IH]; intros d p Hlink Hp Hnz Hall.
  - exists [], d. cbn. repeat split; [lra | exact Hp].
  - apply Forall_cons in Hall. destruct Hall as [Ht Hall].
    destruct (IH (DriverClock.mk (DriverClock.driver d) (Some t)) t
                Hlink eq_refl Ht Hall)
      as (deltas & d' & Hrun & Hlen & Hsum & Hprev & Hdrv).
    exists ((t - p) :: deltas), d'.
    cbn [DriverClock.ticks]. unfold DriverClock.tick.
    rewrite Hlink, Hp. cbn [negb].
    destruct (Qeq_bool p 0) eqn:E;
      [apply Qeq_bool_iff in E; contradiction|].
    rewrite Hrun. split; [reflexivity|].
    split; [cbn; rewrite Hlen; reflexivity|].
    assert (Hlast : forall q, List.last (t :: ts) q = List.last ts t).
    { clear. revert t. induction ts as [|u ts IH]; intros t q.
      - reflexivity.
      - change (List.last (t :: u :: ts) q) with (List.last (u :: ts) q).
        rewrite (IH u q), (IH u t). reflexivity. }
    rewrite Hlast. split; [|split; [exact Hprev | exact Hdrv]].
    cbn [DriverClock.total fold_right].
    fold (DriverClock.total deltas). rewrite Hsum. ring.
Qed.

(** X20.  The deltas the driver hands to its tickers.  [tick()] throws
    exactly when there is no display link.  On a stopped driver, whatever
    [prevTick] an earlier run left, [start()] at [t0] followed by ticks at
    the timestamps [ts], none of them zero, hands out one delta per tick;
    the deltas add up to the time from [t0] to the last tick, so the time
    the driver was stopped is never counted, and the first delta is the
    time since [start()]. *)
Theorem X20_driver_deltas (d : DriverClock.t) (t0 : Q) (ts : list Q) :
  CALayerDriver.displayLink (DriverClock.driver d) = false ->
  ~ t0 == 0 ->
  Forall (fun t => ~ t == 0) ts ->
  (forall t, DriverClock.tick t d = None) /\
  exists (deltas : list Q) (d' : DriverClock.t),
    DriverClock.ticks ts (DriverClock.start t0 d) = Some (deltas, d') /\
    length deltas = length ts /\
    DriverClock.total deltas == List.last ts t0 - t0 /\
    (forall t rest, ts = t :: rest -> head deltas = Some (t - t0)) /\
    DriverClock.prevTick d' = Some (List.last ts t0) /\
    CALayerDriver.displayLink (DriverClock.driver d') = true.
Proof.
  intros Hoff Ht0 Hall. split.
  - intros t. unfold DriverClock.tick. rewrite Hoff. reflexivity.
  - assert (Hstart : DriverClock.start t0 d =
                     DriverClock.mk
                       (CALayerDriver.mk true
                          (CALayerDriver.tickers (DriverClock.driver d)))
                       (Some t0)).
    { unfold DriverClock.start, CALayerDriver.start. rewrite Hoff.
      reflexivity. }
    destruct (ticks_running ts (DriverClock.start t0 d) t0)
      as (deltas & d' & Hrun & Hlen & Hsum & Hprev & Hdrv);
      try (rewrite Hstart; reflexivity); try assumption.
    exists deltas, d'. split; [exact Hrun|]. split; [exact Hlen|].
    split; [exact Hsum|]. split; [|split; [exact Hprev|]].
    + intros t rest ->. rewrite Hstart in Hrun.
      cbn [DriverClock.ticks] in Hrun. unfold DriverClock.tick in Hrun.
      cbn [DriverClock.driver DriverClock.prevTick
           CALayerDriver.displayLink negb] in Hrun.
      destruct (Qeq_bool t0 0) eqn:E;
        [apply Qeq_bool_iff in E; contradiction|].
      destruct (DriverClock.ticks rest _) as [[ds d1]|]; [|discriminate].
      injection Hrun as <- _. reflexivity.
    + rewrite Hdrv, Hstart. reflexivity.
Qed.

Lemma X20_driver_deltas_witness :
  let stale :=
    DriverClock.mk (CALayerDriver.mk false ∅) (Some 1000%Q) in
  exists (d' : DriverClock.t),
    DriverClock.ticks [5008%Q; 5016%Q; 5025%Q]
      (DriverClock.start 5000%Q stale) = Some ([8%Q; 8%Q; 9%Q], d') /\
    DriverClock.tick 5008%Q stale = None.
Proof.
  intros stale.
  destruct (X20_driver_deltas stale 5000%Q [5008%Q; 5016%Q; 5025%Q])
    as (Hthrow & deltas & d' & Hrun & _).
  - reflexivity.
  - discriminate.
  - repeat constructor; discriminate.
  - exists (DriverClock.mk (CALayerDriver.mk true ∅) (Some 5025%Q)).
    split; [reflexivity | exact (Hthrow 5008%Q)].
Defined.

End DriverClockFacts.
